(** * p5.Geometry and the tessellation entry points of p5.RendererGL

    A shallow embedding of [src/webgl/p5.Geometry.js]: the class
    [p5.Geometry] ([reset], [computeFaces], [_getFaceNormal],
    [computeNormals], [averageNormals], [averagePoleNormals],
    [_makeTriangleEdges], [_edgesToVertices] with [_addSegment], [_addCap],
    [_addJoin], and [normalize]) and, of [p5.RendererGL], the members that
    build geometry and the utility functions that need nothing but their
    arguments ([beginGeometry], [endGeometry], [buildGeometry],
    [_arraysEqual], [_flatten], [_vToNArray], the [combinecallback] of
    [_initTessy] and [_triangulate]).

    JavaScript numbers are kept behind a small interface whose instance is
    IEEE binary64, the numbers the program computes with.  What holds
    whatever the numbers do is stated over the interface; what depends on
    how doubles round, overflow or turn into [NaN] is stated on binary64
    and proved from the specification of its operations. *)

From Stdlib Require Import ZArith QArith Floats Lia String.
From Stdlib Require Uint63.
From stdpp Require Import base option list gmap.

#[local] Set Warnings "-inexact-float,-clear-no-such-hyp,-register-all".
#[local] Open Scope nat_scope.

(** ** Numbers *)

(** The arithmetic that [normalize] needs: the four operations,
    [Math.max], [Math.min] and the literals [0], [0.5] and [200]. *)
Class Arith := {
  num : Type;
  nadd : num → num → num;
  nsub : num → num → num;
  nmul : num → num → num;
  ndiv : num → num → num;
  nmax : num → num → num;
  nmin : num → num → num;
  lit_0 : num;
  lit_0_5 : num;
  lit_200 : num;
}.

(** The rest of what the program asks of a JavaScript number: [Math.sqrt],
    the comparisons [<] and [===], [isNaN], the value [NaN] that arithmetic
    on [undefined] produces, and the literals [1], [-1] and [1e-8]. *)
Class JSNumber := {
  js_arith :: Arith;
  nsqrt : num → num;
  nlt : num → num → bool;
  neq : num → num → bool;
  isNaN : num → bool;
  NaN : num;
  lit_1 : num;
  lit_neg_1 : num;
  lit_1e_8 : num;
}.

Declare Scope js_scope.
Delimit Scope js_scope with J.
Notation "a + b" := (nadd a b) : js_scope.
Notation "a - b" := (nsub a b) : js_scope.
Notation "a * b" := (nmul a b) : js_scope.
Notation "a / b" := (ndiv a b) : js_scope.
Notation "a <? b" := (nlt a b) : js_scope.
Notation "a >? b" := (nlt b a) : js_scope.
Notation "a === b" := (neq a b) (at level 70) : js_scope.
Notation "a !== b" := (negb (neq a b)) (at level 70) : js_scope.

(** *** IEEE binary64, the numbers of the running program *)

Module Binary64.

(** [Math.max]: [NaN] if either argument is, and [+0] above [-0]. *)
Definition max (a b : float) : float :=
  if (PrimFloat.is_nan a || PrimFloat.is_nan b)%bool then nan
  else if PrimFloat.ltb a b then b
  else if PrimFloat.ltb b a then a
  else match PrimFloat.classify a with NZero => b | _ => a end.

(** [Math.min]: [NaN] if either argument is, and [-0] below [+0]. *)
Definition min (a b : float) : float :=
  if (PrimFloat.is_nan a || PrimFloat.is_nan b)%bool then nan
  else if PrimFloat.ltb a b then a
  else if PrimFloat.ltb b a then b
  else match PrimFloat.classify a with PZero => b | _ => a end.

(** [Math.asin].  The language leaves its precision to the implementation;
    this one sums the power series, folding arguments above [0.5] back with
    [asin x = pi/2 - 2 asin (sqrt ((1 - x) / 2))], and is there to run
    examples.  The functions that call [Math.asin] take it as an argument,
    and no property below depends on which function it is. *)
Fixpoint asin_series (n : nat) (k term x2 acc : float) : float :=
  match n with
  | O => acc
  | S n' =>
      let term := (term * x2 * ((2 * k - 1) * (2 * k - 1))
                   / (2 * k * (2 * k + 1)))%float in
      asin_series n' (k + 1)%float term x2 (acc + term)%float
  end.

Definition asin (x : float) : float :=
  let a := PrimFloat.abs x in
  if PrimFloat.is_nan x then nan
  else if PrimFloat.ltb 1 a then nan
  else if PrimFloat.leb a 0.5 then asin_series 30 1 x (x * x)%float x
  else
    let y := PrimFloat.sqrt ((1 - a) / 2)%float in
    let r := (0x1.921fb54442d18p+0
              - 2 * asin_series 30 1 y (y * y) y)%float in
    if PrimFloat.ltb x 0 then (- r)%float else r.

#[export] Instance arith : Arith := {|
  num := float;
  nadd := PrimFloat.add;
  nsub := PrimFloat.sub;
  nmul := PrimFloat.mul;
  ndiv := PrimFloat.div;
  nmax := max;
  nmin := min;
  lit_0 := 0%float;
  lit_0_5 := 0.5%float;
  lit_200 := 200%float;
|}.

#[export] Instance number : JSNumber := {|
  js_arith := arith;
  nsqrt := PrimFloat.sqrt;
  nlt := PrimFloat.ltb;
  neq := PrimFloat.eqb;
  isNaN := PrimFloat.is_nan;
  NaN := nan;
  lit_1 := 1%float;
  lit_neg_1 := (-1)%float;
  lit_1e_8 := 1e-8%float;
|}.

End Binary64.

(** ** Vectors *)

Section Vector.
Context {A : Arith}.

(** Modelled from the spec: the class [p5.Vector], whose file
    [src/math/p5.Vector.js] is not among the sources.  A vector is a
    3-component coordinate.  The methods below are the ones the geometry
    code calls; a method that changes its receiver in place returns the
    new value here, and [copy()] is the identity. *)
Record Vector := mkVector { vx : num; vy : num; vz : num }.

(** Modelled from the spec: [p5.Vector.sub], the difference of two
    vectors, component by component. *)
Definition vsub (a b : Vector) : Vector :=
  mkVector (vx a - vx b)%J (vy a - vy b)%J (vz a - vz b)%J.

(** Modelled from the spec: [p5.Vector.add], the sum of two vectors. *)
Definition vadd (a b : Vector) : Vector :=
  mkVector (vx a + vx b)%J (vy a + vy b)%J (vz a + vz b)%J.

(** Modelled from the spec: [p5.Vector.mult], scaling by a number. *)
Definition vmult (a : Vector) (s : num) : Vector :=
  mkVector (vx a * s)%J (vy a * s)%J (vz a * s)%J.

(** Modelled from the spec: [p5.Vector.div], dividing by a number. *)
Definition vdiv (a : Vector) (s : num) : Vector :=
  mkVector (vx a / s)%J (vy a / s)%J (vz a / s)%J.

(** Modelled from the spec: [p5.Vector.lerp]; [lerp a b t] moves [a]
    towards [b] by the fraction [t], so that [lerp max min 0.5] is the
    centre of the box. *)
Definition lerp (a b : Vector) (t : num) : Vector :=
  mkVector (vx a + (vx b - vx a) * t)%J
           (vy a + (vy b - vy a) * t)%J
           (vz a + (vz b - vz a) * t)%J.

(** Modelled from the spec: [p5.Vector.array], the three components as an
    array. *)
Definition array (a : Vector) : list num := [vx a; vy a; vz a].

(** Modelled from the spec: [new p5.Vector()], the zero vector. *)
Definition vzero : Vector := mkVector lit_0 lit_0 lit_0.

(** Modelled from the spec: [p5.Vector.cross], the cross product. *)
Definition cross (a b : Vector) : Vector :=
  mkVector (vy a * vz b - vz a * vy b)%J
           (vz a * vx b - vx a * vz b)%J
           (vx a * vy b - vy a * vx b)%J.

(** Modelled from the spec: [p5.Vector.dot], the dot product. *)
Definition dot (a b : Vector) : num :=
  (vx a * vx b + vy a * vy b + vz a * vz b)%J.

(** Modelled from the spec: [p5.Vector.magSq], the squared length. *)
Definition magSq (a : Vector) : num :=
  (vx a * vx a + vy a * vy a + vz a * vz a)%J.

End Vector.

Arguments Vector : clear implicits.
Arguments Vector {A}.

Section VectorJS.
Context {N : JSNumber}.

(** Modelled from the spec: [p5.Vector.mag], the square root of
    [magSq]. *)
Definition mag (a : Vector) : num := nsqrt (magSq a).

(** Modelled from the spec: [p5.Vector.normalize] scales a vector to unit
    length and leaves a vector of zero magnitude as it is rather than
    dividing by zero. *)
Definition vnormalize (a : Vector) : Vector :=
  let len := mag a in
  if (len !== lit_0)%J then vdiv a len else a.

End VectorJS.

(** ** The geometry object *)

(** A face is a triple of vertex indices, an edge a pair. *)
Abbreviation Face := (nat * nat * nat)%type.
Abbreviation Edge := (nat * nat)%type.

Section Geometry.
Context {A : Arith}.

(** The fields the constructor creates.  Modelled from the spec: a
    [p5.DataArray] ([src/webgl/p5.DataArray.js] is not among the sources)
    is a growable flat buffer of numbers with bulk append and bulk clear;
    it is kept as the list of its entries. *)
Record Geometry := mkGeometry {
  vertices : list Vector;
  lineVertices : list num;
  lineTangentsIn : list num;
  lineTangentsOut : list num;
  lineSides : list Z;
  vertexNormals : list Vector;
  faces : list Face;
  uvs : list (num * num);
  edges : list Edge;
  vertexColors : list num;
  vertexStrokeColors : list num;
  lineVertexColors : list num;
  detailX : nat;
  detailY : nat;
  dirtyFlags : list (string * bool);
}.

(** [new p5.Geometry(detailX, detailY)] without a callback. *)
Definition newGeometry (dx dy : nat) : Geometry :=
  mkGeometry [] [] [] [] [] [] [] [] [] [] [] [] dx dy [].

Definition set_vertices (g : Geometry) (vs : list Vector) : Geometry :=
  mkGeometry vs (lineVertices g) (lineTangentsIn g) (lineTangentsOut g)
    (lineSides g) (vertexNormals g) (faces g) (uvs g) (edges g)
    (vertexColors g) (vertexStrokeColors g) (lineVertexColors g)
    (detailX g) (detailY g) (dirtyFlags g).

Definition set_vertexNormals (g : Geometry) (ns : list Vector) : Geometry :=
  mkGeometry (vertices g) (lineVertices g) (lineTangentsIn g)
    (lineTangentsOut g) (lineSides g) ns (faces g) (uvs g) (edges g)
    (vertexColors g) (vertexStrokeColors g) (lineVertexColors g)
    (detailX g) (detailY g) (dirtyFlags g).

Definition set_faces (g : Geometry) (fs : list Face) : Geometry :=
  mkGeometry (vertices g) (lineVertices g) (lineTangentsIn g)
    (lineTangentsOut g) (lineSides g) (vertexNormals g) fs (uvs g) (edges g)
    (vertexColors g) (vertexStrokeColors g) (lineVertexColors g)
    (detailX g) (detailY g) (dirtyFlags g).

(** [reset()], assignment by assignment: four [clear()]s, four
    [length = 0], one [clear()], two [length = 0], and a fresh
    [dirtyFlags].  [faces], [detailX] and [detailY] are not assigned. *)
Definition reset (g : Geometry) : Geometry :=
  {| lineVertices := [];
     lineTangentsIn := [];
     lineTangentsOut := [];
     lineSides := [];
     vertices := [];
     edges := [];
     vertexColors := [];
     vertexStrokeColors := [];
     lineVertexColors := [];
     vertexNormals := [];
     uvs := [];
     dirtyFlags := [];
     faces := faces g;
     detailX := detailX g;
     detailY := detailY g |}.

(** *** computeFaces *)

(** The inner loop [for (j = 0; j < detailX; j++)] of row [i]; [k] counts
    the iterations still to run and [fs] is [this.faces]. *)
Fixpoint computeFaces_row (sliceCount i j k : nat) (fs : list Face)
  : list Face :=
  match k with
  | O => fs
  | S k' =>
      let a := i * sliceCount + j in
      let b := i * sliceCount + j + 1 in
      let c := (i + 1) * sliceCount + j + 1 in
      let d := (i + 1) * sliceCount + j in
      let fs := fs ++ [(a, b, d)] in
      let fs := fs ++ [(d, b, c)] in
      computeFaces_row sliceCount i (j + 1) k' fs
  end.

(** The outer loop [for (i = 0; i < detailY; i++)]. *)
Fixpoint computeFaces_rows (sliceCount dX i k : nat) (fs : list Face)
  : list Face :=
  match k with
  | O => fs
  | S k' =>
      computeFaces_rows sliceCount dX (i + 1) k'
        (computeFaces_row sliceCount i 0 dX fs)
  end.

Definition computeFaces (g : Geometry) : Geometry :=
  let fs : list Face := [] in
  let sliceCount := detailX g + 1 in
  set_faces g (computeFaces_rows sliceCount (detailX g) 0 (detailY g) fs).

End Geometry.

Arguments Geometry : clear implicits.
Arguments Geometry {A}.

(** ** Stroke tessellation *)

Section Strokes.
Context {N : JSNumber}.

(** [this.lineVertices.push(...xs)], and the same for the other four
    stroke buffers. *)
Definition push_lineVertices (g : Geometry) (xs : list num) : Geometry :=
  mkGeometry (vertices g) (lineVertices g ++ xs) (lineTangentsIn g)
    (lineTangentsOut g) (lineSides g) (vertexNormals g) (faces g) (uvs g)
    (edges g) (vertexColors g) (vertexStrokeColors g) (lineVertexColors g)
    (detailX g) (detailY g) (dirtyFlags g).

Definition push_lineTangentsIn (g : Geometry) (xs : list num) : Geometry :=
  mkGeometry (vertices g) (lineVertices g) (lineTangentsIn g ++ xs)
    (lineTangentsOut g) (lineSides g) (vertexNormals g) (faces g) (uvs g)
    (edges g) (vertexColors g) (vertexStrokeColors g) (lineVertexColors g)
    (detailX g) (detailY g) (dirtyFlags g).

Definition push_lineTangentsOut (g : Geometry) (xs : list num) : Geometry :=
  mkGeometry (vertices g) (lineVertices g) (lineTangentsIn g)
    (lineTangentsOut g ++ xs) (lineSides g) (vertexNormals g) (faces g)
    (uvs g) (edges g) (vertexColors g) (vertexStrokeColors g)
    (lineVertexColors g) (detailX g) (detailY g) (dirtyFlags g).

Definition push_lineSides (g : Geometry) (xs : list Z) : Geometry :=
  mkGeometry (vertices g) (lineVertices g) (lineTangentsIn g)
    (lineTangentsOut g) (lineSides g ++ xs) (vertexNormals g) (faces g)
    (uvs g) (edges g) (vertexColors g) (vertexStrokeColors g)
    (lineVertexColors g) (detailX g) (detailY g) (dirtyFlags g).

Definition push_lineVertexColors (g : Geometry) (xs : list num) : Geometry :=
  mkGeometry (vertices g) (lineVertices g) (lineTangentsIn g)
    (lineTangentsOut g) (lineSides g) (vertexNormals g) (faces g) (uvs g)
    (edges g) (vertexColors g) (vertexStrokeColors g)
    (lineVertexColors g ++ xs) (detailX g) (detailY g) (dirtyFlags g).

(** The four [clear()] calls that open [_edgesToVertices];
    [lineVertexColors] is not among them. *)
Definition clear_lines (g : Geometry) : Geometry :=
  mkGeometry (vertices g) [] [] [] [] (vertexNormals g) (faces g) (uvs g)
    (edges g) (vertexColors g) (vertexStrokeColors g) (lineVertexColors g)
    (detailX g) (detailY g) (dirtyFlags g).

(** [_addSegment(begin, end, fromColor, toColor, dir)]. *)
Definition _addSegment (begin end_ : Vector) (fromColor toColor : list num)
    (dir : Vector) (g : Geometry) : Geometry :=
  let a := array begin in
  let b := array end_ in
  let dirArr := array dir in
  let g := push_lineSides g [1; 1; -1; 1; -1; -1]%Z in
  let g := Nat.iter 6 (λ g, push_lineTangentsIn g dirArr) g in
  let g := Nat.iter 6 (λ g, push_lineTangentsOut g dirArr) g in
  let g := push_lineVertices g (a ++ b ++ a ++ b ++ b ++ a) in
  push_lineVertexColors g
    (fromColor ++ toColor ++ fromColor ++ toColor ++ toColor ++ fromColor).

(** [_addCap(point, tangent, color)]. *)
Definition _addCap (point tangent : Vector) (color : list num)
    (g : Geometry) : Geometry :=
  let ptArray := array point in
  let tanInArray := array tangent in
  let tanOutArray := [lit_0; lit_0; lit_0] in
  let g := Nat.iter 6 (λ g,
             let g := push_lineVertices g ptArray in
             let g := push_lineTangentsIn g tanInArray in
             let g := push_lineTangentsOut g tanOutArray in
             push_lineVertexColors g color) g in
  push_lineSides g [-1; 2; -2; 1; 2; -1]%Z.

(** [_addJoin(point, fromTangent, toTangent, color)]. *)
Definition _addJoin (point fromTangent toTangent : Vector)
    (color : list num) (g : Geometry) : Geometry :=
  let ptArray := array point in
  let tanInArray := array fromTangent in
  let tanOutArray := array toTangent in
  let g := Nat.iter 12 (λ g,
             let g := push_lineVertices g ptArray in
             let g := push_lineTangentsIn g tanInArray in
             let g := push_lineTangentsOut g tanOutArray in
             push_lineVertexColors g color) g in
  let g := push_lineSides g [-1; -3; -2; -1; 0; -3]%Z in
  push_lineSides g [3; 1; 2; 3; 0; 1]%Z.

(** A potential-cap record [{ point, dir, color }]; the field names carry
    a prefix to keep them apart from the locals of the same name. *)
Record Cap := mkCap {
  capPoint : Vector;
  capDir : Vector;
  capColor : list num;
}.

(** A JavaScript [Map] keyed by vertex index: [get], [set], [delete] and
    [values()], which iterates in insertion order. *)
Definition CapMap : Type := list (nat * Cap).

Fixpoint Map_get (k : nat) (m : CapMap) : option Cap :=
  match m with
  | [] => None
  | (k', v') :: m' => if Nat.eqb k' k then Some v' else Map_get k m'
  end.

Fixpoint Map_set (k : nat) (v : Cap) (m : CapMap) : CapMap :=
  match m with
  | [] => [(k, v)]
  | (k', v') :: m' =>
      if Nat.eqb k' k then (k, v) :: m' else (k', v') :: Map_set k v m'
  end.

Fixpoint Map_delete (k : nat) (m : CapMap) : CapMap :=
  match m with
  | [] => []
  | (k', v') :: m' =>
      if Nat.eqb k' k then m' else (k', v') :: Map_delete k m'
  end.

Definition Map_values (m : CapMap) : list Cap := snd <$> m.

(** The state of the pass over the edges: the geometry whose buffers grow,
    and the three locals [potentialCaps], [connected], [lastValidDir]. *)
Record Pass := mkPass {
  geom : Geometry;
  potentialCaps : CapMap;
  connected : gset nat;
  lastValidDir : option Vector;
}.

(** [array.slice(from, to)]. *)
Definition slice (l : list num) (from to : nat) : list num :=
  take (to - from) (drop from l).

(** The colour of vertex [v] (lines 277-282 and 283-288): its four entries
    of [vertexStrokeColors], or [[0, 0, 0, 0]] when that array is empty. *)
Definition strokeColorOf (g : Geometry) (v : nat) : list num :=
  if Nat.ltb 0 (length (vertexStrokeColors g))
  then slice (vertexStrokeColors g) (v * 4) ((v + 1) * 4)
  else [lit_0; lit_0; lit_0; lit_0].

(** Lines 299-311: the edge starts where the previous one ended. *)
Definition continueLine (currEdge : Edge) (begin dir : Vector) (dirOK : bool)
    (fromColor : list num) (st : Pass) : Pass :=
  if bool_decide (currEdge.1 ∈ connected st) then st
  else
    let conn := connected st ∪ {[currEdge.1]} in
    let caps := Map_delete currEdge.1 (potentialCaps st) in
    match lastValidDir st with
    | Some lvd =>
        if (dirOK && (dot dir lvd <? lit_1 - lit_1e_8)%J)%bool
        then mkPass (_addJoin begin lvd dir fromColor (geom st))
                    caps conn (lastValidDir st)
        else mkPass (geom st) caps conn (lastValidDir st)
    | None => mkPass (geom st) caps conn (lastValidDir st)
    end.

(** Lines 314-332: the start vertex of an edge that opens a new line. *)
Definition openLine (currEdge : Edge) (begin dir : Vector) (dirOK : bool)
    (fromColor : list num) (st : Pass) : Pass :=
  if (dirOK && negb (bool_decide (currEdge.1 ∈ connected st)))%bool then
    match Map_get currEdge.1 (potentialCaps st) with
    | Some existingCap =>
        mkPass (_addJoin begin (capDir existingCap) dir fromColor (geom st))
               (Map_delete currEdge.1 (potentialCaps st))
               (connected st ∪ {[currEdge.1]})
               (lastValidDir st)
    | None =>
        mkPass (geom st)
               (Map_set currEdge.1
                  (mkCap begin (vmult dir lit_neg_1) fromColor)
                  (potentialCaps st))
               (connected st) (lastValidDir st)
    end
  else st.

(** Lines 333-353: the end vertex of the line that the previous edge
    finished.  [prevEdge] is [undefined] for the first edge, and reading
    [prevEdge[1]] is then a [TypeError], [None] here; so is a vertex that
    does not exist. *)
Definition closeLine (prevEdge : option Edge) (fromColor : list num)
    (st : Pass) : option Pass :=
  match lastValidDir st with
  | Some lvd =>
      prev ← prevEdge;
      if bool_decide (prev.2 ∈ connected st) then Some st
      else
        pt ← vertices (geom st) !! prev.2;
        match Map_get prev.2 (potentialCaps st) with
        | Some existingCap =>
            Some (mkPass
                    (_addJoin pt lvd (vmult (capDir existingCap) lit_neg_1)
                       fromColor (geom st))
                    (Map_delete prev.2 (potentialCaps st))
                    (connected st ∪ {[prev.2]})
                    None)
        | None =>
            Some (mkPass (geom st)
                    (Map_set prev.2 (mkCap pt lvd fromColor)
                       (potentialCaps st))
                    (connected st)
                    None)
        end
  | None => Some st
  end.

(** Lines 356-374: the end vertex of the last edge. *)
Definition endLastEdge (i : nat) (currEdge : Edge) (end_ dir : Vector)
    (toColor : list num) (st : Pass) : Pass :=
  if (Nat.eqb i (length (edges (geom st)) - 1)
      && negb (bool_decide (currEdge.2 ∈ connected st)))%bool then
    match Map_get currEdge.2 (potentialCaps st) with
    | Some existingCap =>
        mkPass (_addJoin end_ dir (vmult (capDir existingCap) lit_neg_1)
                  toColor (geom st))
               (Map_delete currEdge.2 (potentialCaps st))
               (connected st ∪ {[currEdge.2]})
               (lastValidDir st)
    | None =>
        mkPass (geom st)
               (Map_set currEdge.2 (mkCap end_ dir toColor)
                  (potentialCaps st))
               (connected st) (lastValidDir st)
    end
  else st.

(** One turn of the loop over [this.edges] (lines 273-378).  An edge that
    names a vertex that does not exist is outside the model: the turn gives
    [None], where the source goes on with [undefined] and, on most paths,
    ends in a [TypeError]. *)
Definition edgeStep (i : nat) (st : Pass) : option Pass :=
  let prevEdge := if Nat.eqb i 0 then None else edges (geom st) !! (i - 1) in
  currEdge ← edges (geom st) !! i;
  begin ← vertices (geom st) !! currEdge.1;
  end_ ← vertices (geom st) !! currEdge.2;
  let fromColor := strokeColorOf (geom st) currEdge.1 in
  let toColor := strokeColorOf (geom st) currEdge.2 in
  let dir := vnormalize (vsub end_ begin) in
  let dirOK := (magSq dir >? lit_0)%J in
  let st :=
    if dirOK
    then mkPass (_addSegment begin end_ fromColor toColor dir (geom st))
                (potentialCaps st) (connected st) (lastValidDir st)
    else st in
  let continues :=
    match prevEdge with
    | Some prev => (Nat.ltb 0 i && Nat.eqb prev.2 currEdge.1)%bool
    | None => false
    end in
  st ← (if continues
        then Some (continueLine currEdge begin dir dirOK fromColor st)
        else closeLine prevEdge fromColor
               (openLine currEdge begin dir dirOK fromColor st));
  let st := endLastEdge i currEdge end_ dir toColor st in
  Some (if dirOK
        then mkPass (geom st) (potentialCaps st) (connected st) (Some dir)
        else st).

(** [for (let i = ...; i < this.edges.length; i++)], with [k] turns still
    to run. *)
Fixpoint edgeLoop (k i : nat) (st : Pass) : option Pass :=
  match k with
  | O => Some st
  | S k' => st' ← edgeStep i st; edgeLoop k' (S i) st'
  end.

(** The state in which the loop starts. *)
Definition startPass (g : Geometry) : Pass :=
  mkPass (clear_lines g) [] ∅ None.

(** [for (const { point, dir, color } of potentialCaps.values())]. *)
Definition addCaps (caps : list Cap) (g : Geometry) : Geometry :=
  foldl (λ g cap, _addCap (capPoint cap) (capDir cap) (capColor cap) g)
        g caps.

(** [_edgesToVertices()]. *)
Definition _edgesToVertices (g : Geometry) : option Geometry :=
  st ← edgeLoop (length (edges g)) 0 (startPass g);
  Some (addCaps (Map_values (potentialCaps st)) (geom st)).

End Strokes.

(** ** Normals *)

(** What a call leaves on the console. *)
Abbreviation Console := (list string).

Section Normals.
Context {N : JSNumber}.

(** [Math.asin], a builtin of the host with no counterpart among the
    primitive operations on doubles; the functions below take it as an
    argument. *)
Variable asin : num → num.

(** The two arguments of [console.warn], joined by a space as the console
    prints them. *)
Definition faceNormalWarning : string :=
  "p5.Geometry.prototype._getFaceNormal: face has colinear sides or a repeated vertex".

(** [_getFaceNormal(faceId)]: the value returned and the lines written by
    [console.warn].  Reading a vertex that does not exist is a [TypeError],
    [None] here. *)
Definition _getFaceNormal (g : Geometry) (faceId : nat)
  : option (Vector * Console) :=
  face ← faces g !! faceId;
  vA ← vertices g !! face.1.1;
  vB ← vertices g !! face.1.2;
  vC ← vertices g !! face.2;
  let ab := vsub vB vA in
  let ac := vsub vC vA in
  let n := cross ab ac in
  let ln := mag n in
  let sinAlpha := (ln / (mag ab * mag ac))%J in
  if ((sinAlpha === lit_0)%J || isNaN sinAlpha)%bool then
    Some (n, [faceNormalWarning])
  else
    let sinAlpha := if (sinAlpha >? lit_1)%J then lit_1 else sinAlpha in
    Some (vmult n (asin sinAlpha / ln)%J, []).

(** [vertexNormals[vertexIndex].add(faceNormal)]; there is nothing to add
    to when the index is out of range. *)
Definition addToNormal (vertexIndex : nat) (faceNormal : Vector)
    (vertexNormals : list Vector) : option (list Vector) :=
  v ← vertexNormals !! vertexIndex;
  Some (<[vertexIndex := vadd v faceNormal]> vertexNormals).

(** The body of [faces.forEach((face, f) => ...)]. *)
Definition accumulateFace (g : Geometry) (face : Face) (f : nat)
    (acc : list Vector * Console) : option (list Vector * Console) :=
  '(faceNormal, warned) ← _getFaceNormal g f;
  vn ← addToNormal face.1.1 faceNormal acc.1;
  vn ← addToNormal face.1.2 faceNormal vn;
  vn ← addToNormal face.2 faceNormal vn;
  Some (vn, acc.2 ++ warned).

(** [faces.forEach], from face number [f] on. *)
Fixpoint accumulateFaces (g : Geometry) (fs : list Face) (f : nat)
    (acc : list Vector * Console) : option (list Vector * Console) :=
  match fs with
  | [] => Some acc
  | face :: fs' =>
      acc' ← accumulateFace g face f acc;
      accumulateFaces g fs' (f + 1) acc'
  end.

(** [computeNormals()]. *)
Definition computeNormals (g : Geometry) : option (Geometry * Console) :=
  let vertexNormals := replicate (length (vertices g)) vzero in
  '(vertexNormals, console) ←
     accumulateFaces g (faces g) 0 (vertexNormals, []);
  Some (set_vertexNormals g (vnormalize <$> vertexNormals), console).

End Normals.

(** ** normalize *)

Section Normalize.
Context {A : Arith}.

(** Lines 511-521: the corners of the bounding box, both started at
    [vertices[0]] and widened by every vertex. *)
Definition boundingBox (v0 : Vector) (vs : list Vector) : Vector * Vector :=
  foldl (λ '(maxPosition, minPosition) v,
           (mkVector (nmax (vx maxPosition) (vx v))
                     (nmax (vy maxPosition) (vy v))
                     (nmax (vz maxPosition) (vz v)),
            mkVector (nmin (vx minPosition) (vx v))
                     (nmin (vy minPosition) (vy v))
                     (nmin (vz minPosition) (vz v))))
        (v0, v0) vs.

(** Line 525: the longest side of a box with the given diagonal. *)
Definition longestSide (dist : Vector) : num :=
  nmax (nmax (vx dist) (vy dist)) (vz dist).

(** [normalize()]. *)
Definition normalize (g : Geometry) : Geometry :=
  match vertices g with
  | [] => g
  | v0 :: _ =>
      let '(maxPosition, minPosition) := boundingBox v0 (vertices g) in
      let center := lerp maxPosition minPosition lit_0_5 in
      let dist := vsub maxPosition minPosition in
      let longestDist := longestSide dist in
      let scale := (lit_200 / longestDist)%J in
      set_vertices g ((λ v, vmult (vsub v center) scale) <$> vertices g)
  end.

End Normalize.

(** ** p5.RendererGL *)

(** The outcome of a call that may [throw new Error(message)]. *)
Inductive Result (T : Type) : Type :=
| Returns (value : T)
| Throws (message : string).
Arguments Returns {T} value.
Arguments Throws {T} message.

Section RendererGL.

(** [GeometryBuilder] comes from another file; its constructor and its
    [finish()] are arguments of the model, acting on the part [R] of the
    renderer that is not the [geometryBuilder] field. *)
Variables (Builder Model R : Type).
Variable newGeometryBuilder : R → Builder * R.
Variable finish : Builder → R → Model * R.

Record RendererGL := mkRendererGL {
  geometryBuilder : option Builder;
  renderer : R;
}.

(** [beginGeometry()]. *)
Definition beginGeometry (this : RendererGL) : Result RendererGL :=
  match geometryBuilder this with
  | Some _ =>
      Throws "It looks like `beginGeometry()` is being called while another p5.Geometry is already being build."
  | None =>
      let '(builder, r) := newGeometryBuilder (renderer this) in
      Returns (mkRendererGL (Some builder) r)
  end.

(** [endGeometry()]. *)
Definition endGeometry (this : RendererGL) : Result (Model * RendererGL) :=
  match geometryBuilder this with
  | None => Throws "Make sure you call beginGeometry() before endGeometry()!"
  | Some builder =>
      let '(geometry, r) := finish builder (renderer this) in
      Returns (geometry, mkRendererGL None r)
  end.

End RendererGL.

Section Tessy.
Context {N : JSNumber}.

(** [p5.RendererGL.prototype.tessyVertexSize]. *)
Definition tessyVertexSize : nat := 12.

(** [data[i][j] * weight[i]]; a slot that the tuple does not have reads as
    [undefined], and the product is then [NaN]. *)
Definition weighted (d : list num) (j : nat) (w : num) : num :=
  match d !! j with
  | Some x => (x * w)%J
  | None => NaN
  end.

(** The inner loop of [combinecallback] over the slots [j], with [k] turns
    still to run.  [d] is [data[i]]: [None] when it is [null] or
    [undefined]. *)
Fixpoint combineSlots (w : num) (d : option (list num)) (k j : nat)
    (result : list num) : list num :=
  match k with
  | O => result
  | S k' =>
      let result :=
        match d with
        | Some tuple =>
            if (w === lit_0)%J then result
            else alter (λ r, r + weighted tuple j w)%J j result
        | None => result
        end in
      combineSlots w d k' (j + 1) result
  end.

(** The outer loop over [i < weight.length]; [ws] is what is left of
    [weight]. *)
Fixpoint combineWeights (data : list (option (list num))) (ws : list num)
    (i : nat) (result : list num) : list num :=
  match ws with
  | [] => result
  | w :: ws' =>
      combineWeights data ws' (i + 1)
        (combineSlots w (mjoin (data !! i)) (length result) 0 result)
  end.

(** [combinecallback(coords, data, weight)]. *)
Definition combinecallback (coords : list num)
    (data : list (option (list num))) (weight : list num) : list num :=
  let result := replicate tessyVertexSize lit_0 in
  combineWeights data weight 0 result.

End Tessy.

(** ** The rest of p5.Geometry: edges from faces, averaged normals *)

(** The integers that the methods below use as numbers: the literal [2],
    and an integer count such as [detailX] where it is a divisor. *)
Class Integers (A : Arith) := {
  int_2 : num;
  of_count : nat → num;
}.

(** On doubles a count is exact below [2^53], the integers a double
    holds. *)
#[global] Instance binary64_integers : Integers Binary64.arith :=
  @Build_Integers Binary64.arith 2%float
    (λ n, PrimFloat.of_uint63 (Uint63.of_Z (Z.of_nat n))).

Section EdgesAndSeams.
Context {A : Arith} {I : Integers A}.

Definition set_edges (g : Geometry) (es : list Edge) : Geometry :=
  mkGeometry (vertices g) (lineVertices g) (lineTangentsIn g)
    (lineTangentsOut g) (lineSides g) (vertexNormals g) (faces g) (uvs g) es
    (vertexColors g) (vertexStrokeColors g) (lineVertexColors g)
    (detailX g) (detailY g) (dirtyFlags g).

(** The loop [for (let j = 0; j < this.faces.length; j++)] of
    [_makeTriangleEdges]; [fs] holds the faces from [j] on and [es] is
    [this.edges]. *)
Fixpoint makeTriangleEdges_loop (fs : list Face) (es : list Edge)
  : list Edge :=
  match fs with
  | [] => es
  | face :: fs' =>
      let es := es ++ [(face.1.1, face.1.2)] in
      let es := es ++ [(face.1.2, face.2)] in
      let es := es ++ [(face.2, face.1.1)] in
      makeTriangleEdges_loop fs' es
  end.

(** [_makeTriangleEdges()]. *)
Definition _makeTriangleEdges (g : Geometry) : Geometry :=
  let es : list Edge := [] in
  set_edges g (makeTriangleEdges_loop (faces g) es).

(** One turn of the loop of [averageNormals] (lines 180-188), for row [i].
    A row whose first or last normal does not exist is outside the model:
    the turn gives [None]. *)
Definition averageRow (dX i : nat) (vertexNormals : list Vector)
  : option (list Vector) :=
  let offset := dX + 1 in
  first ← vertexNormals !! (i * offset);
  last ← vertexNormals !! (i * offset + dX);
  let temp := vadd first last in
  let temp := vdiv temp int_2 in
  let vertexNormals := <[i * offset := temp]> vertexNormals in
  Some (<[i * offset + dX := temp]> vertexNormals).

(** [for (let i = ...; i <= this.detailY; i++)], with [k] turns still to
    run. *)
Fixpoint averageRows (dX i k : nat) (vertexNormals : list Vector)
  : option (list Vector) :=
  match k with
  | O => Some vertexNormals
  | S k' =>
      vertexNormals ← averageRow dX i vertexNormals;
      averageRows dX (S i) k' vertexNormals
  end.

(** [averageNormals()]. *)
Definition averageNormals (g : Geometry) : option Geometry :=
  vn ← averageRows (detailX g) 0 (detailY g + 1) (vertexNormals g);
  Some (set_vertexNormals g vn).

(** [sum.add(this.vertexNormals[i])] for the indices [indices] in turn; a
    normal that does not exist is outside the model. *)
Fixpoint addNormals (vertexNormals : list Vector) (indices : list nat)
    (sum : Vector) : option Vector :=
  match indices with
  | [] => Some sum
  | i :: indices' =>
      v ← vertexNormals !! i;
      addNormals vertexNormals indices' (vadd sum v)
  end.

(** [this.vertexNormals[i] = sum] for the indices [indices] in turn. *)
Fixpoint assignNormals (indices : list nat) (sum : Vector)
    (vertexNormals : list Vector) : option (list Vector) :=
  match indices with
  | [] => Some vertexNormals
  | i :: indices' =>
      _ ← vertexNormals !! i;
      assignNormals indices' sum (<[i := sum]> vertexNormals)
  end.

(** The indices of the two south-pole loops (lines 212-216 and 221-225):
    from [length - 1] down, [dX] of them.  With more than [length] of them
    the loops reach negative indices, outside the model. *)
Definition southIndices (length dX : nat) : option (list nat) :=
  if Nat.leb dX length then Some ((λ k, length - 1 - k) <$> seq 0 dX)
  else None.

(** [averagePoleNormals()]. *)
Definition averagePoleNormals (g : Geometry) : option Geometry :=
  let vn := vertexNormals g in
  let north := seq 0 (detailX g) in
  sum ← addNormals vn north vzero;
  let sum := vdiv sum (of_count (detailX g)) in
  vn ← assignNormals north sum vn;
  south ← southIndices (length (vertices g)) (detailX g);
  sum ← addNormals vn south vzero;
  let sum := vdiv sum (of_count (detailX g)) in
  vn ← assignNormals south sum vn;
  Some (set_vertexNormals g vn).

End EdgesAndSeams.

(** ** buildGeometry *)

Section BuildGeometry.
Variables (Builder Model R : Type).
Variable newGeometryBuilder : R → Builder * R.
Variable finish : Builder → R → Model * R.

(** [buildGeometry(callback)]: the outcome together with the renderer the
    call leaves behind, which is there whether the call returns or throws.
    The callback is any code that runs on the renderer; an exception of
    [beginGeometry], of the callback or of [endGeometry] is not caught and
    ends the call where it is raised. *)
Definition buildGeometry
    (callback : RendererGL Builder R → Result unit * RendererGL Builder R)
    (this : RendererGL Builder R)
  : Result Model * RendererGL Builder R :=
  match beginGeometry Builder R newGeometryBuilder this with
  | Throws message => (Throws message, this)
  | Returns this =>
      match callback this with
      | (Throws message, this) => (Throws message, this)
      | (Returns _, this) =>
          match endGeometry Builder Model R finish this with
          | Throws message => (Throws message, this)
          | Returns (geometry, this) => (Returns geometry, this)
          end
      end
  end.

End BuildGeometry.

(** ** The utility functions of p5.RendererGL *)

Section Values.
Context {A : Arith}.

(** The values the utility functions meet inside an array: a number,
    [undefined], or an array again. *)
Inductive Value : Type :=
| Num (x : num)
| Undefined
| Arr (items : list Value).

(** [array.pop()]: the last element and what is left, if there is one. *)
Definition pop {X} (l : list X) : option (X * list X) :=
  match reverse l with
  | [] => None
  | x :: r => Some (x, reverse r)
  end.

(** [[].concat(...arr)]: an argument that is an array gives its elements,
    any other argument gives itself. *)
Definition concatSpread (arr : list Value) : list Value :=
  flat_map (λ v, match v with Arr items => items | _ => [v] end) arr.

(** The [do ... while] loop of [_flatten] (lines 2461-2467), started with
    [node] popped; it ends when [nodes] is empty or when the value popped
    is [undefined].  [fuel] bounds the turns. *)
Fixpoint flattenLoop (fuel : nat) (node : Value) (nodes result : list Value)
  : option (list Value) :=
  match fuel with
  | O => None
  | S fuel' =>
      let '(nodes, result) :=
        match node with
        | Arr items => (nodes ++ items, result)
        | _ => (nodes, result ++ [node])
        end in
      match pop nodes with
      | None => Some result
      | Some (Undefined, _) => Some result
      | Some (node, nodes) => flattenLoop fuel' node nodes result
      end
  end.

(** The number of values in a value, itself included: every turn of the
    loop takes one of them off [nodes]. *)
Fixpoint nodeCount (v : Value) : nat :=
  match v with
  | Arr items => S (list_sum (map nodeCount items))
  | _ => 1
  end.

(** [_flatten(arr)]. *)
Definition _flatten (arr : list Value) : option (list Value) :=
  if Nat.eqb (length arr) 0 then Some []
  else if (20000 <? Z.of_nat (length arr))%Z then
    let result : list Value := [] in
    let nodes := arr in
    '(node, nodes) ← pop nodes;
    result ← flattenLoop (list_sum (map nodeCount arr)) node nodes result;
    Some (reverse result)
  else Some (concatSpread arr).

(** [_vToNArray(arr)]. *)
Definition _vToNArray (arr : list Vector) : list num :=
  foldl (λ ret item, ret ++ [vx item; vy item; vz item]) [] arr.

End Values.

Arguments Value : clear implicits.
Arguments Value {A}.

Section Comparing.
Context {N : JSNumber}.

(** [_arraysEqual(a, b)] on arrays of numbers; [b[i]] is read only below
    [b.length], which is [a.length] by then. *)
Definition _arraysEqual (a b : list num) : bool :=
  let aLength := length a in
  if negb (Nat.eqb aLength (length b)) then false
  else
    forallb id
      (imap (λ i ai, match b !! i with
                     | Some bi => (ai === bi)%J
                     | None => false
                     end) a).

End Comparing.

(** ** _triangulate *)

Section Triangulate.
Context {N : JSNumber}.

(** What [_triangulate] asks of the tessellator, call by call.  The
    tessellator itself ([libtess]) is a library. *)
Inductive TessCall : Type :=
| gluTessNormal (x y z : num)
| gluTessBeginPolygon
| gluTessBeginContour
| gluTessVertex (coords : list num)
| gluTessEndContour
| gluTessEndPolygon.

(** [x !== z] where either side may be [undefined]. *)
Definition differs (x z : option num) : bool :=
  match x, z with
  | Some x, Some z => (x !== z)%J
  | None, None => false
  | _, _ => true
  end.

(** The inner loop of lines 2579-2588 over one contour, from offset [j]
    with [k] turns left: [false] at the first vertex whose third slot
    differs from [z], which is where the loop breaks. *)
Fixpoint sameZ (k j : nat) (contour : list num) (z : option num)
    (allSameZ : bool) : bool :=
  match k with
  | O => allSameZ
  | S k' =>
      if Nat.ltb j (length contour) then
        if differs (contour !! (j + 2)) z then false
        else sameZ k' (j + tessyVertexSize) contour z allSameZ
      else allSameZ
  end.

(** The loop of lines 2602-2612 over one contour: a [gluTessVertex] call
    for every [tessyVertexSize] slots. *)
Fixpoint tessVertices (k j : nat) (contour : list num) : list TessCall :=
  match k with
  | O => []
  | S k' =>
      if Nat.ltb j (length contour) then
        let coords := take tessyVertexSize (drop j contour) in
        gluTessVertex coords :: tessVertices k' (j + tessyVertexSize) contour
      else []
  end.

(** [_triangulate(contours)], as the calls it makes; the array it returns
    is the one the tessellator fills through its callbacks. *)
Definition _triangulate (contours : list (list num)) : list TessCall :=
  let z := c ← contours !! 0; c !! 2 in
  let allSameZ :=
    foldl (λ allSameZ contour,
             sameZ (length contour) 0 contour z allSameZ) true contours in
  [ if allSameZ then gluTessNormal lit_0 lit_0 lit_1
    else gluTessNormal lit_0 lit_0 lit_0 ]
  ++ [gluTessBeginPolygon]
  ++ flat_map (λ contour,
                 [gluTessBeginContour]
                 ++ tessVertices (length contour) 0 contour
                 ++ [gluTessEndContour]) contours
  ++ [gluTessEndPolygon].

End Triangulate.

(** * The vocabulary of the properties *)

Section GridVocabulary.
Context {A : Arith}.

(** The two triangles of cell [(i, j)] of a grid with [sliceCount] vertices
    per row. *)
Definition cellFaces (sliceCount i j : nat) : list Face :=
  [ (i * sliceCount + j, i * sliceCount + j + 1, (i + 1) * sliceCount + j);
    ((i + 1) * sliceCount + j, i * sliceCount + j + 1,
     (i + 1) * sliceCount + j + 1) ].

Definition rowFaces (sliceCount dX i : nat) : list Face :=
  flat_map (cellFaces sliceCount i) (seq 0 dX).

(** A face whose three indices are vertices of the geometry. *)
Definition validFace (g : Geometry) (face : Face) : Prop :=
  face.1.1 < length (vertices g) ∧ face.1.2 < length (vertices g)
  ∧ face.2 < length (vertices g).

(** The bounding box of a list of vertices the way [normalize] computes
    it: the corner of the largest and the corner of the smallest
    coordinates, and none for the empty list. *)
Definition boxOf (vs : list Vector) : option (Vector * Vector) :=
  match vs with
  | [] => None
  | v0 :: _ => Some (boundingBox v0 vs)
  end.



End GridVocabulary.

Section StrokeVocabulary.
Context {N : JSNumber}.

(** The colour [[0, 0, 0, 0]]. *)
Definition transparentBlack : list num := [lit_0; lit_0; lit_0; lit_0].

(** The geometry has no stroke colours, and since [base] every stroke
    vertex in its buffers, one per side code, was given
    [transparentBlack]. *)
Definition allTransparent (base : list num) (g : Geometry) : Prop :=
  vertexStrokeColors g = []
  ∧ lineVertexColors g
    = base ++ concat (replicate (length (lineSides g)) transparentBlack)
  ∧ length (lineVertices g) = 3 * length (lineSides g).

(** Every pending cap carries [transparentBlack]. *)
Definition capsTransparent (caps : CapMap) : Prop :=
  Forall (λ entry, capColor entry.2 = transparentBlack) caps.

(** The invariant of the pass. *)
Definition passTransparent (base : list num) (st : Pass) : Prop :=
  allTransparent base (geom st) ∧ capsTransparent (potentialCaps st).

(** An edge whose two ends are vertices of the geometry. *)
Definition validEdge (g : Geometry) (edge : Edge) : Prop :=
  edge.1 < length (vertices g) ∧ edge.2 < length (vertices g).

(** The pass reads the vertices and the edges and never writes them. *)
Definition sameShape (g g' : Geometry) : Prop :=
  vertices g' = vertices g ∧ edges g' = edges g.

End StrokeVocabulary.

Section CombineVocabulary.
Context {N : JSNumber}.

(** The input vertices that contribute, in order from index [i]: those
    whose weight is not [0] and whose data is there, each with its
    weight. *)
Fixpoint contributing (data : list (option (list num))) (ws : list num)
    (i : nat) : list (num * list num) :=
  match ws with
  | [] => []
  | w :: ws' =>
      match mjoin (data !! i) with
      | Some tuple =>
          if (w === lit_0)%J then contributing data ws' (i + 1)
          else (w, tuple) :: contributing data ws' (i + 1)
      | None => contributing data ws' (i + 1)
      end
  end.

(** Slot [j] of the sum of the contributions, added up from the left. *)
Definition weightedSum (j : nat) (start : num)
    (contributions : list (num * list num)) : num :=
  foldl (λ acc c, (acc + weighted c.2 j c.1)%J) start contributions.

End CombineVocabulary.

Section NormalVocabulary.
Context {N : JSNumber}.
Variable asin : num → num.

(** The face normal, once for every place the face gives to vertex [v]. *)
Definition occurrences (face : Face) (v : nat) (n : Vector) : list Vector :=
  (if Nat.eqb face.1.1 v then [n] else [])
  ++ (if Nat.eqb face.1.2 v then [n] else [])
  ++ (if Nat.eqb face.2 v then [n] else []).

(** What the faces [fs], numbered from [f], add to the normal of vertex
    [v], in the order in which [forEach] adds it. *)
Fixpoint contributions (g : Geometry) (fs : list Face) (f v : nat)
  : list Vector :=
  match fs with
  | [] => []
  | face :: fs' =>
      match _getFaceNormal asin g f with
      | Some (n, _) => occurrences face v n
      | None => []
      end ++ contributions g fs' (f + 1) v
  end.

End NormalVocabulary.

(** ** The vocabulary of the further properties *)

Section OutlineVocabulary.
Context {A : Arith}.

(** The three edges around a face, in the order of its indices. *)
Definition faceEdges (face : Face) : list Edge :=
  [(face.1.1, face.1.2); (face.1.2, face.2); (face.2, face.1.1)].

End OutlineVocabulary.

Section PassVocabulary.
Context {N : JSNumber}.

(** A state of the pass whose geometry satisfies [P] and whose pending
    caps carry colours that satisfy [C]. *)
Definition passKeeps (C : list num → Prop) (P : Geometry → Prop)
    (st : Pass) : Prop :=
  P (geom st) ∧ Forall (λ entry, C (capColor entry.2)) (potentialCaps st).

(** The fields that are not stroke buffers. *)
Definition fillData (g : Geometry) :=
  (vertices g, vertexNormals g, faces g, uvs g, edges g, vertexColors g,
   vertexStrokeColors g, detailX g, detailY g, dirtyFlags g).

(** Three coordinates and two tangents for every side code, and whole
    triangles only. *)
Definition strokesAligned (g : Geometry) : Prop :=
  length (lineVertices g) = 3 * length (lineSides g)
  ∧ length (lineTangentsIn g) = 3 * length (lineSides g)
  ∧ length (lineTangentsOut g) = 3 * length (lineSides g)
  ∧ (6 | length (lineSides g)).

(** The geometry with the colours [p] in front of its stroke colours, and
    a state of the pass over such a geometry. *)
Definition prependColors (p : list num) (g : Geometry) : Geometry :=
  mkGeometry (vertices g) (lineVertices g) (lineTangentsIn g)
    (lineTangentsOut g) (lineSides g) (vertexNormals g) (faces g) (uvs g)
    (edges g) (vertexColors g) (vertexStrokeColors g)
    (p ++ lineVertexColors g) (detailX g) (detailY g) (dirtyFlags g).

Definition prependPass (p : list num) (st : Pass) : Pass :=
  mkPass (prependColors p (geom st)) (potentialCaps st) (connected st)
    (lastValidDir st).

(** The geometry without its stroke colours. *)
Definition withoutColors (g : Geometry) : Geometry :=
  mkGeometry (vertices g) (lineVertices g) (lineTangentsIn g)
    (lineTangentsOut g) (lineSides g) (vertexNormals g) (faces g) (uvs g)
    (edges g) (vertexColors g) (vertexStrokeColors g) []
    (detailX g) (detailY g) (dirtyFlags g).

(** The coordinate arrays handed to [gluTessVertex], in call order. *)
Definition tessCoords (calls : list TessCall) : list (list num) :=
  flat_map (λ call, match call with
                    | gluTessVertex coords => [coords]
                    | _ => []
                    end) calls.

End PassVocabulary.

Section LineVocabulary.
Context {N : JSNumber}.

(** The directions of the edges along a line through [points], and for
    every inner point whether the line turns there, which is the test of
    line 308. *)
Definition directions (points : list Vector) : list Vector :=
  zip_with (λ A B, vnormalize (vsub B A)) points (tail points).

Definition turns (dirs : list Vector) : list bool :=
  zip_with (λ d1 d2, (dot d2 d1 <? lit_1 - lit_1e_8)%J) dirs (tail dirs).

Definition countTrue (bs : list bool) : nat :=
  length (filter (λ b, b = true) bs).

(** The state of the pass after [i] edges of an open line through the
    vertices [path]: the cap pending at its start [startCap], and after
    the last edge the cap pending at its end [endCap]. *)
Definition alongLine (g : Geometry) (path : list nat) (points : list Vector)
    (startCap endCap : nat * Cap) (i : nat) (st : Pass) : Prop :=
  edges (geom st) = edges g ∧ vertices (geom st) = vertices g
  ∧ vertexStrokeColors (geom st) = vertexStrokeColors g
  ∧ lastValidDir st = directions points !! (i - 1)
  ∧ (∀ v, v ∈ connected st ↔ v ∈ take (i - 1) (tail path))
  ∧ length (lineSides (geom st))
    = 6 * i + 12 * countTrue (take (i - 1) (turns (directions points)))
  ∧ potentialCaps st
    = startCap :: (if Nat.eqb i (length (edges g)) then [endCap] else []).
End LineVocabulary.

Section BuildVocabulary.
Variables (Builder Model R : Type).
Variable newGeometryBuilder : R → Builder * R.
Variable finish : Builder → R → Model * R.

(** A callback that calls [buildGeometry(inner)] itself and returns. *)
Definition nestedBuild
    (inner : RendererGL Builder R → Result unit * RendererGL Builder R)
    (this : RendererGL Builder R)
  : Result unit * RendererGL Builder R :=
  match buildGeometry Builder Model R newGeometryBuilder finish inner this
  with
  | (Returns _, this) => (Returns tt, this)
  | (Throws message, this) => (Throws message, this)
  end.

End BuildVocabulary.

Section ValueVocabulary.
Context {A : Arith}.

(** The values that are not arrays, in reading order, at any depth. *)
Fixpoint leaves (v : Value) : list Value :=
  match v with
  | Arr items => flat_map leaves items
  | _ => [v]
  end.

(** No [undefined] at any depth. *)
Fixpoint defined (v : Value) : bool :=
  match v with
  | Undefined => false
  | Num _ => true
  | Arr items => forallb defined items
  end.

(** A two-dimensional array of numbers, as [uvs] is. *)
Definition rowsOf (rows : list (list num)) : list Value :=
  (λ row, Arr (Num <$> row)) <$> rows.

End ValueVocabulary.

(** ** The vocabulary of doubles *)

(** The double is [+0], [-0] or [NaN]. *)
Definition zeroOrNaN (x : float) : Prop :=
  match Prim2SF x with
  | S754_zero _ | S754_nan => True
  | _ => False
  end.


(** Every coordinate of the vector is a zero or [NaN]; every coordinate is
    an infinity or [NaN]. *)
Definition flatVector (v : Vector (A := Binary64.arith)) : Prop :=
  zeroOrNaN (vx v) ∧ zeroOrNaN (vy v) ∧ zeroOrNaN (vz v).



(** ** Geometries on doubles *)

Module Examples.
Import Binary64.

Definition vec (x y z : float) : Vector := @mkVector Binary64.arith x y z.

(** A geometry that holds only vertices and edges. *)
Definition polyline (vs : list Vector) (es : list Edge) : Geometry :=
  mkGeometry vs [] [] [] [] [] [] [] es [] [] [] 1 1 [].

(** One edge from the origin along the x axis. *)
Definition straight : Geometry :=
  polyline [vec 0 0 0; vec 1 0 0] [(0, 1)].

(** A right angle at the middle vertex. *)
Definition rightAngle : Geometry :=
  polyline [vec 0 0 0; vec 1 0 0; vec 1 1 0] [(0, 1); (1, 2)].

(** Three vertices on a line, both edges in the same direction. *)
Definition collinear : Geometry :=
  polyline [vec 0 0 0; vec 1 0 0; vec 2 0 0] [(0, 1); (1, 2)].

(** An edge, then a zero-length edge elsewhere: [[0, 1], [2, 2]]. *)
Definition strayPoint : Geometry :=
  polyline [vec 0 0 0; vec 1 0 0; vec 5 5 5] [(0, 1); (2, 2)].

(** An edge, then a zero-length edge at its end: [[0, 1], [1, 1]]. *)
Definition stalled : Geometry :=
  polyline [vec 0 0 0; vec 1 0 0] [(0, 1); (1, 1)].


Definition slanted : Geometry :=
  polyline [vec 0 0 0; vec 0.3 0.1 0] [].


(** Three vertices on a line, a step of [1.5e-161] apart: the squared
    length of a step is below the smallest normal double. *)
Definition minute : Geometry :=
  polyline [vec 0 0 0; vec 1.5e-161 0 0; vec 3e-161 0 0] [(0, 1); (1, 2)].

(** One edge whose squared length underflows to [0], and one whose squared
    length overflows to [Infinity]. *)
Definition hairline : Geometry :=
  polyline [vec 0 0 0; vec 1e-200 0 0] [(0, 1)].

Definition beam : Geometry :=
  polyline [vec 0 0 0; vec 1e200 0 0] [(0, 1)].

(** One edge between two vertices at the same position. *)
Definition doubled : Geometry :=
  polyline [vec 1 2 3; vec 1 2 3] [(0, 1)].

(** Two vertices far from the origin and [2] apart. *)
Definition remote : Geometry :=
  polyline [vec 1e16 0 0; vec 10000000000000002 0 0] [].


End Examples.

(** ** Further geometries and renderers to run *)

Module MoreExamples.
Import Binary64 Examples.

(** One triangle, given by its face. *)
Definition triangle : Geometry :=
  mkGeometry [vec 0 0 0; vec 1 0 0; vec 0 1 0] [] [] [] [] []
    [(0, 1, 2)] [] [] [] [] [] 1 1 [].

(** The four vertices of a one-cell grid. *)
Definition quad : Geometry :=
  mkGeometry [vec 0 0 0; vec 1 0 0; vec 0 1 0; vec 1 1 0] [] [] [] [] []
    [] [] [] [] [] [] 1 1 [].

(** An edge from a vertex to itself. *)
Definition selfEdge : Geometry := polyline [vec 1 2 3] [(0, 0)].

(** Two edges that share no vertex, red, green, blue and white. *)
Definition dashes : Geometry :=
  mkGeometry [vec 0 0 0; vec 1 0 0; vec 2 0 0; vec 3 0 0] [] [] [] [] []
    [] [] [(0, 1); (2, 3)] []
    [1; 0; 0; 1; 0; 1; 0; 1; 0; 0; 1; 1; 1; 1; 1; 1]%float [] 1 1 [].

(** A right angle with one colour per vertex, and stroke colours left
    from an earlier pass. *)
Definition painted : Geometry :=
  mkGeometry [vec 0 0 0; vec 1 0 0; vec 1 1 0] [] [] [] [] []
    [] [] [(0, 1); (1, 2)] []
    [1; 0; 0; 1; 0; 1; 0; 1; 0; 0; 1; 1]%float [0.5; 0.5; 0.5; 1]%float
    1 1 [].

(** Two rows of three normals: a strip that closes on itself. *)
Definition strip : Geometry :=
  mkGeometry [vec 0 0 0; vec 1 0 0; vec 0 0 0; vec 0 0 1; vec 1 0 1;
              vec 0 0 1] [] [] [] []
    [vec 1 0 0; vec 0 0 1; vec 0 1 0; vec 1 0 0; vec 0 0 1; vec 0 1 0]
    [] [] [] [] [] [] 2 1 [].

(** A line of three edges that goes straight on at its second vertex and
    turns at its third. *)
Definition zigzag : Geometry :=
  polyline [vec 0 0 0; vec 1 0 0; vec 2 0 0; vec 2 1 0]
    [(0, 1); (1, 2); (2, 3)].

(** One triangle and a fourth vertex that it does not use. *)
Definition spare : Geometry :=
  mkGeometry [vec 0 0 0; vec 1 0 0; vec 0 1 0; vec 5 5 5] [] [] [] [] []
    [(0, 1, 2)] [] [] [] [] [] 1 1 [].

(** Two pole fans of two normals each around one ring vertex. *)
Definition globe : Geometry :=
  mkGeometry [vec 0 1 0; vec 0 1 0; vec 1 0 0; vec 0 (-1) 0; vec 0 (-1) 0]
    [] [] [] []
    [vec 1 0 0; vec 0 0 1; vec 1 0 0; vec (-1) 0 0; vec 0 0 (-1)]
    [] [] [] [] [] [] 2 1 [].

(** A renderer whose builder counts the shapes drawn into it, a callback
    that draws one shape, and one that fails. *)
Definition counting : RendererGL nat unit := mkRendererGL nat unit None tt.

Definition drawOne (this : RendererGL nat unit)
  : Result unit * RendererGL nat unit :=
  (Returns tt, mkRendererGL nat unit (S <$> geometryBuilder _ _ this) tt).

Definition failing (this : RendererGL nat unit)
  : Result unit * RendererGL nat unit :=
  (Throws "the callback failed", this).

(** An array with an array inside an array, and the [uvs] of a
    triangle. *)
Definition nested : list Value :=
  [Arr [Num 1%float; Arr [Num 2%float]]; Num 3%float].

Definition cornerUvs : list (list float) :=
  [[0; 0]; [1; 0]; [1; 1]]%float.

(** A contour of two vertices in the plane [z = 0], twelve slots each. *)
Definition flatContour : list float :=
  [0; 0; 0; 1; 1; 1; 1; 0; 0; 0; 0; 0;
   1; 0; 0; 1; 1; 1; 1; 1; 0; 0; 0; 0]%float.

End MoreExamples.

(** * Properties *)

(** ** reset *)

(** C3.  [reset()] empties the vertex positions, normals, uvs, edges, fill
    colours, stroke colours and the five stroke buffers, and it leaves
    [faces] exactly as it was: on a geometry holding the face [(0, 1, 2)]
    that face is still there afterwards, although the vertices it indexes
    are gone. *)
Theorem reset_keeps_faces :
  (∀ (A : Arith) (g : Geometry (A := A)),
     vertices (reset g) = [] ∧ vertexNormals (reset g) = [] ∧
     uvs (reset g) = [] ∧ edges (reset g) = [] ∧
     vertexColors (reset g) = [] ∧ vertexStrokeColors (reset g) = [] ∧
     lineVertices (reset g) = [] ∧ lineTangentsIn (reset g) = [] ∧
     lineTangentsOut (reset g) = [] ∧ lineSides (reset g) = [] ∧
     lineVertexColors (reset g) = [] ∧
     faces (reset g) = faces g) ∧
  (let g : Geometry (A := Binary64.arith) :=
     mkGeometry
       [ @mkVector Binary64.arith 0%float 0%float 0%float;
         @mkVector Binary64.arith 1%float 0%float 0%float;
         @mkVector Binary64.arith 0%float 1%float 0%float ]
       [] [] [] [] [] [(0, 1, 2)] [] [] [] [] [] 1 1 [] in
   faces (reset g) = [(0, 1, 2)] ∧ vertices (reset g) = []).
Proof. split; [intros A g; repeat split | split; reflexivity]. Qed.

(** ** computeFaces *)

Section ComputeFaces.
Context {A : Arith}.

Lemma computeFaces_row_app sliceCount i k : ∀ j fs,
  computeFaces_row sliceCount i j k fs
  = fs ++ flat_map (cellFaces sliceCount i) (seq j k).
Proof.
  induction k as [|k IH]; intros j fs; simpl.
  - by rewrite app_nil_r.
  - rewrite IH, <- !app_assoc. simpl. by rewrite (Nat.add_1_r j).
Qed.

Lemma computeFaces_rows_app sliceCount dX k : ∀ i fs,
  computeFaces_rows sliceCount dX i k fs
  = fs ++ flat_map (rowFaces sliceCount dX) (seq i k).
Proof.
  induction k as [|k IH]; intros i fs; simpl.
  - by rewrite app_nil_r.
  - rewrite IH, computeFaces_row_app, <- app_assoc.
    by rewrite (Nat.add_1_r i).
Qed.

Lemma faces_computeFaces (g : Geometry) :
  faces (computeFaces g)
  = flat_map (rowFaces (detailX g + 1) (detailX g)) (seq 0 (detailY g)).
Proof. unfold computeFaces. simpl. by rewrite computeFaces_rows_app. Qed.

(** Blocks of equal length laid end to end: the length of the whole and
    the place of each element. *)
Lemma length_flat_map_block {X Y} (f : X → list Y) n (l : list X) :
  (∀ x, length (f x) = n) → length (flat_map f l) = length l * n.
Proof.
  intros Hn. induction l as [|x l IH]; simpl; [done|].
  by rewrite length_app, Hn, IH.
Qed.

Lemma lookup_flat_map_block {X Y} (f : X → list Y) n (l : list X) :
  (∀ x, length (f x) = n) →
  ∀ p q x, l !! p = Some x → q < n →
  flat_map f l !! (p * n + q) = f x !! q.
Proof.
  intros Hn. induction l as [|y l IH]; intros p q x Hp Hq; [done|].
  destruct p as [|p]; simpl in *.
  - inversion Hp; subst. rewrite lookup_app_l; [done | by rewrite Hn].
  - rewrite lookup_app_r; rewrite Hn; [|lia].
    replace (n + p * n + q - n) with (p * n + q) by lia. by apply IH.
Qed.

Lemma length_rowFaces sliceCount dX i :
  length (rowFaces sliceCount dX i) = dX * 2.
Proof.
  unfold rowFaces.
  rewrite (length_flat_map_block _ 2); [by rewrite length_seq | done].
Qed.

Lemma lookup_cell (g : Geometry) i j q :
  i < detailY g → j < detailX g → q < 2 →
  faces (computeFaces g) !! (2 * (i * detailX g + j) + q)
  = cellFaces (detailX g + 1) i j !! q.
Proof.
  intros Hi Hj Hq. rewrite faces_computeFaces.
  replace (2 * (i * detailX g + j) + q)
    with (i * (detailX g * 2) + (j * 2 + q)) by lia.
  rewrite (lookup_flat_map_block _ (detailX g * 2) _
             (length_rowFaces _ _) i (j * 2 + q) i); [| |lia].
  - unfold rowFaces.
    apply (lookup_flat_map_block _ 2); [done| |done].
    by rewrite lookup_seq.
  - by rewrite lookup_seq.
Qed.

Lemma elem_of_computeFaces (g : Geometry) (face : Face) :
  face ∈ faces (computeFaces g) →
  ∃ i j, i < detailY g ∧ j < detailX g
         ∧ face ∈ cellFaces (detailX g + 1) i j.
Proof.
  rewrite faces_computeFaces, list_elem_of_In, in_flat_map.
  intros (i & Hi & Hrow). apply in_seq in Hi.
  unfold rowFaces in Hrow. apply in_flat_map in Hrow as (j & Hj & Hcell).
  apply in_seq in Hj. exists i, j.
  rewrite list_elem_of_In. repeat split; [lia | lia | done].
Qed.

(** C4.  [computeFaces] leaves exactly [2 * detailX * detailY] faces; every
    index in them is below [(detailX + 1) * (detailY + 1)]; cell [(i, j)]
    gives the faces [[a, b, d]] and [[d, b, c]], stored one after the other
    in row-major order of the cells, with [a = i * stride + j],
    [b = a + 1], [c = (i + 1) * stride + j + 1], [d = (i + 1) * stride + j]
    and [stride = detailX + 1]; and the outcome does not depend on the
    faces stored before the call. *)
Theorem computeFaces_grid (g : Geometry) :
  let stride := detailX g + 1 in
  length (faces (computeFaces g)) = 2 * detailX g * detailY g
  ∧ (∀ a b c, (a, b, c) ∈ faces (computeFaces g) →
       a < (detailX g + 1) * (detailY g + 1)
       ∧ b < (detailX g + 1) * (detailY g + 1)
       ∧ c < (detailX g + 1) * (detailY g + 1))
  ∧ (∀ i j, i < detailY g → j < detailX g →
       let a := i * stride + j in
       let b := a + 1 in
       let c := (i + 1) * stride + j + 1 in
       let d := (i + 1) * stride + j in
       faces (computeFaces g) !! (2 * (i * detailX g + j)) = Some (a, b, d)
       ∧ faces (computeFaces g) !! (2 * (i * detailX g + j) + 1)
         = Some (d, b, c))
  ∧ (∀ fs, faces (computeFaces (set_faces g fs)) = faces (computeFaces g)).
Proof.
  intros stride. split; [|split; [|split]].
  - rewrite faces_computeFaces.
    rewrite (length_flat_map_block _ (detailX g * 2)
               _ (length_rowFaces _ _)), length_seq. lia.
  - intros a b c Hin.
    apply elem_of_computeFaces in Hin as (i & j & Hi & Hj & Hc).
    unfold cellFaces in Hc. rewrite !elem_of_cons in Hc.
    destruct Hc as [Hc|[Hc|Hc]]; [| |by apply elem_of_nil in Hc];
      inversion Hc; subst; nia.
  - intros i j Hi Hj. cbv zeta. split.
    + pose proof (lookup_cell g i j 0 Hi Hj ltac:(lia)) as Hl.
      replace (2 * (i * detailX g + j) + 0)
        with (2 * (i * detailX g + j)) in Hl by lia.
      exact Hl.
    + exact (lookup_cell g i j 1 Hi Hj ltac:(lia)).
  - intros fs. by rewrite !faces_computeFaces.
Qed.

End ComputeFaces.

(** ** beginGeometry and endGeometry *)

Section GeometryBuild.
Variables (Builder Model R : Type).
Variable newGeometryBuilder : R → Builder * R.
Variable finish : Builder → R → Model * R.

(** C8.  [endGeometry()] with no build in flight throws its error, and so
    does [beginGeometry()] while a build is in flight; neither returns.  In
    the other two states the calls return: [beginGeometry()] installs a
    builder and [endGeometry()] hands back the model and removes the
    builder. *)
Theorem geometry_build_misuse_throws :
  (∀ this : RendererGL Builder R,
     geometryBuilder _ _ this = None →
     endGeometry _ _ _ finish this
     = Throws "Make sure you call beginGeometry() before endGeometry()!")
  ∧ (∀ this : RendererGL Builder R,
       is_Some (geometryBuilder _ _ this) →
       beginGeometry _ _ newGeometryBuilder this
       = Throws "It looks like `beginGeometry()` is being called while another p5.Geometry is already being build.")
  ∧ (∀ this : RendererGL Builder R,
       geometryBuilder _ _ this = None →
       ∃ this', beginGeometry _ _ newGeometryBuilder this = Returns this'
                ∧ is_Some (geometryBuilder _ _ this'))
  ∧ (∀ this : RendererGL Builder R,
       is_Some (geometryBuilder _ _ this) →
       ∃ model this', endGeometry _ _ _ finish this = Returns (model, this')
                      ∧ geometryBuilder _ _ this' = None).
Proof.
  repeat split.
  - intros this Hnone. unfold endGeometry. by rewrite Hnone.
  - intros this [b Hb]. unfold beginGeometry. by rewrite Hb.
  - intros this Hnone. unfold beginGeometry. rewrite Hnone.
    destruct (newGeometryBuilder (renderer _ _ this)) as [b r].
    by eexists.
  - intros this [b Hb]. unfold endGeometry. rewrite Hb.
    destruct (finish b (renderer _ _ this)) as [m r].
    by eexists _, _.
Qed.

End GeometryBuild.

(** A renderer whose builder is a counter, run through both misuses. *)
Lemma geometry_build_misuse_throws_witness :
  endGeometry nat nat unit (λ b r, (b, r)) (mkRendererGL nat unit None tt)
  = Throws "Make sure you call beginGeometry() before endGeometry()!"
  ∧ beginGeometry nat unit (λ r, (0, r)) (mkRendererGL nat unit (Some 7) tt)
    = Throws "It looks like `beginGeometry()` is being called while another p5.Geometry is already being build.".
Proof.
  split.
  - apply (geometry_build_misuse_throws nat nat unit (λ r, (0, r))
             (λ b r, (b, r))). reflexivity.
  - apply (geometry_build_misuse_throws nat nat unit (λ r, (0, r))
             (λ b r, (b, r))). by eexists.
Defined.

(** ** combinecallback *)

Section Combine.
Context {N : JSNumber}.

Lemma length_combineSlots w d k : ∀ j result,
  length (combineSlots w d k j result) = length result.
Proof.
  induction k as [|k IH]; intros j result; simpl; [done|].
  rewrite IH. destruct d as [tuple|]; [|done].
  destruct (w === lit_0)%J; [done|]. by rewrite length_alter.
Qed.

Lemma lookup_combineSlots_skip w d k : ∀ j result,
  (d = None ∨ (w === lit_0)%J = true) →
  combineSlots w d k j result = result.
Proof.
  induction k as [|k IH]; intros j result Hskip; simpl; [done|].
  rewrite IH by done.
  destruct Hskip as [->|Hw]; [done|]. rewrite Hw. by destruct d.
Qed.

Lemma lookup_combineSlots_before w d k : ∀ j result m,
  m < j → combineSlots w d k j result !! m = result !! m.
Proof.
  induction k as [|k IH]; intros j result m Hm; simpl; [done|].
  rewrite IH by lia. destruct d as [tuple|]; [|done].
  destruct (w === lit_0)%J; [done|].
  apply list_lookup_alter_ne. lia.
Qed.

Lemma lookup_combineSlots w tuple k : ∀ j result m x,
  (w === lit_0)%J = false → j ≤ m < j + k → result !! m = Some x →
  combineSlots w (Some tuple) k j result !! m
  = Some (x + weighted tuple m w)%J.
Proof.
  induction k as [|k IH]; intros j result m x Hw Hm Hx; simpl; [lia|].
  rewrite Hw. destruct (decide (m = j)) as [->|Hne].
  - rewrite lookup_combineSlots_before by lia.
    by rewrite list_lookup_alter_eq, Hx.
  - apply IH; [done | lia |].
    rewrite list_lookup_alter_ne by done. done.
Qed.

Lemma lookup_combineWeights data ws : ∀ i result j x,
  result !! j = Some x →
  combineWeights data ws i result !! j
  = Some (weightedSum j x (contributing data ws i)).
Proof.
  induction ws as [|w ws IH]; intros i result j x Hx; simpl; [done|].
  destruct (mjoin (data !! i)) as [tuple|] eqn:Hd.
  - destruct (w === lit_0)%J eqn:Hw.
    + rewrite lookup_combineSlots_skip by auto. by apply IH.
    + simpl. apply IH. apply lookup_combineSlots; [done| |done].
      apply lookup_lt_Some in Hx. lia.
  - rewrite lookup_combineSlots_skip by auto. by apply IH.
Qed.

Lemma length_combineWeights data ws : ∀ i result,
  length (combineWeights data ws i result) = length result.
Proof.
  induction ws as [|w ws IH]; intros i result; simpl; [done|].
  by rewrite IH, length_combineSlots.
Qed.

(** C7.  The tuple that [combinecallback] returns has [tessyVertexSize],
    that is 12, slots, and slot [j] is the sum, from [0] and in index
    order, of [data[i][j] * weight[i]] over the input vertices [i] whose
    weight is not [0] and whose data is there. *)
Theorem combinecallback_weighted_sum coords data weight :
  tessyVertexSize = 12
  ∧ length (combinecallback coords data weight) = tessyVertexSize
  ∧ (∀ j, j < tessyVertexSize →
       combinecallback coords data weight !! j
       = Some (weightedSum j lit_0 (contributing data weight 0)))
  ∧ (∀ tuple j w x, tuple !! j = Some x → weighted tuple j w = (x * w)%J).
Proof.
  split; [done|]. split; [|split].
  - unfold combinecallback.
    by rewrite length_combineWeights, length_replicate.
  - intros j Hj. unfold combinecallback.
    apply lookup_combineWeights. by apply lookup_replicate_2.
  - intros tuple j w x Hx. unfold weighted. by rewrite Hx.
Qed.

End Combine.

(** ** Stroke tessellation *)

Section StrokeBuffers.
Context {N : JSNumber}.

(** What [_addSegment], [_addJoin] and [_addCap] append to each of the five
    buffers. *)
Lemma lineSides_addSegment begin end_ fromColor toColor dir (g : Geometry) :
  lineSides (_addSegment begin end_ fromColor toColor dir g)
  = lineSides g
      ++ [1; 1; -1; 1; -1; -1]%Z.
Proof. simpl. by rewrite <- ?app_assoc, ?app_nil_r. Qed.

Lemma lineVertices_addSegment begin end_ fromColor toColor dir (g : Geometry) :
  lineVertices (_addSegment begin end_ fromColor toColor dir g)
  = lineVertices g
      ++ array begin ++ array end_ ++ array begin ++ array end_
        ++ array end_ ++ array begin.
Proof. simpl. by rewrite <- ?app_assoc, ?app_nil_r. Qed.

Lemma lineTangentsIn_addSegment begin end_ fromColor toColor dir (g : Geometry) :
  lineTangentsIn (_addSegment begin end_ fromColor toColor dir g)
  = lineTangentsIn g
      ++ concat (replicate 6 (array dir)).
Proof. simpl. by rewrite <- ?app_assoc, ?app_nil_r. Qed.

Lemma lineTangentsOut_addSegment begin end_ fromColor toColor dir (g : Geometry) :
  lineTangentsOut (_addSegment begin end_ fromColor toColor dir g)
  = lineTangentsOut g
      ++ concat (replicate 6 (array dir)).
Proof. simpl. by rewrite <- ?app_assoc, ?app_nil_r. Qed.

Lemma lineVertexColors_addSegment begin end_ fromColor toColor dir (g : Geometry) :
  lineVertexColors (_addSegment begin end_ fromColor toColor dir g)
  = lineVertexColors g
      ++ fromColor ++ toColor ++ fromColor ++ toColor ++ toColor
        ++ fromColor.
Proof. simpl. by rewrite <- ?app_assoc, ?app_nil_r. Qed.

Lemma lineSides_addJoin point fromTangent toTangent color (g : Geometry) :
  lineSides (_addJoin point fromTangent toTangent color g)
  = lineSides g
      ++ [-1; -3; -2; -1; 0; -3; 3; 1; 2; 3; 0; 1]%Z.
Proof. simpl. by rewrite <- ?app_assoc, ?app_nil_r. Qed.

Lemma lineVertices_addJoin point fromTangent toTangent color (g : Geometry) :
  lineVertices (_addJoin point fromTangent toTangent color g)
  = lineVertices g
      ++ concat (replicate 12 (array point)).
Proof. simpl. by rewrite <- ?app_assoc, ?app_nil_r. Qed.

Lemma lineTangentsIn_addJoin point fromTangent toTangent color (g : Geometry) :
  lineTangentsIn (_addJoin point fromTangent toTangent color g)
  = lineTangentsIn g
      ++ concat (replicate 12 (array fromTangent)).
Proof. simpl. by rewrite <- ?app_assoc, ?app_nil_r. Qed.

Lemma lineTangentsOut_addJoin point fromTangent toTangent color (g : Geometry) :
  lineTangentsOut (_addJoin point fromTangent toTangent color g)
  = lineTangentsOut g
      ++ concat (replicate 12 (array toTangent)).
Proof. simpl. by rewrite <- ?app_assoc, ?app_nil_r. Qed.

Lemma lineVertexColors_addJoin point fromTangent toTangent color (g : Geometry) :
  lineVertexColors (_addJoin point fromTangent toTangent color g)
  = lineVertexColors g
      ++ concat (replicate 12 color).
Proof. simpl. by rewrite <- ?app_assoc, ?app_nil_r. Qed.

Lemma lineSides_addCap point tangent color (g : Geometry) :
  lineSides (_addCap point tangent color g)
  = lineSides g
      ++ [-1; 2; -2; 1; 2; -1]%Z.
Proof. simpl. by rewrite <- ?app_assoc, ?app_nil_r. Qed.

Lemma lineVertices_addCap point tangent color (g : Geometry) :
  lineVertices (_addCap point tangent color g)
  = lineVertices g
      ++ concat (replicate 6 (array point)).
Proof. simpl. by rewrite <- ?app_assoc, ?app_nil_r. Qed.

Lemma lineTangentsIn_addCap point tangent color (g : Geometry) :
  lineTangentsIn (_addCap point tangent color g)
  = lineTangentsIn g
      ++ concat (replicate 6 (array tangent)).
Proof. simpl. by rewrite <- ?app_assoc, ?app_nil_r. Qed.

Lemma lineTangentsOut_addCap point tangent color (g : Geometry) :
  lineTangentsOut (_addCap point tangent color g)
  = lineTangentsOut g
      ++ concat (replicate 6 (array vzero)).
Proof. simpl. by rewrite <- ?app_assoc, ?app_nil_r. Qed.

Lemma lineVertexColors_addCap point tangent color (g : Geometry) :
  lineVertexColors (_addCap point tangent color g)
  = lineVertexColors g
      ++ concat (replicate 6 color).
Proof. simpl. by rewrite <- ?app_assoc, ?app_nil_r. Qed.

(** They leave the vertices, the edges and the stroke colours alone. *)
Lemma vertices_addSegment begin end_ fromColor toColor dir (g : Geometry) :
  vertices (_addSegment begin end_ fromColor toColor dir g) = vertices g.
Proof. done. Qed.

Lemma edges_addSegment begin end_ fromColor toColor dir (g : Geometry) :
  edges (_addSegment begin end_ fromColor toColor dir g) = edges g.
Proof. done. Qed.

Lemma vertexStrokeColors_addSegment begin end_ fromColor toColor dir (g : Geometry) :
  vertexStrokeColors (_addSegment begin end_ fromColor toColor dir g) = vertexStrokeColors g.
Proof. done. Qed.

Lemma vertices_addJoin point fromTangent toTangent color (g : Geometry) :
  vertices (_addJoin point fromTangent toTangent color g) = vertices g.
Proof. done. Qed.

Lemma edges_addJoin point fromTangent toTangent color (g : Geometry) :
  edges (_addJoin point fromTangent toTangent color g) = edges g.
Proof. done. Qed.

Lemma vertexStrokeColors_addJoin point fromTangent toTangent color (g : Geometry) :
  vertexStrokeColors (_addJoin point fromTangent toTangent color g) = vertexStrokeColors g.
Proof. done. Qed.

Lemma vertices_addCap point tangent color (g : Geometry) :
  vertices (_addCap point tangent color g) = vertices g.
Proof. done. Qed.

Lemma edges_addCap point tangent color (g : Geometry) :
  edges (_addCap point tangent color g) = edges g.
Proof. done. Qed.

Lemma vertexStrokeColors_addCap point tangent color (g : Geometry) :
  vertexStrokeColors (_addCap point tangent color g) = vertexStrokeColors g.
Proof. done. Qed.

(** [clear_lines] empties four buffers and keeps the colours. *)
Lemma lineSides_clear_lines (g : Geometry) : lineSides (clear_lines g) = [].
Proof. done. Qed.
Lemma lineVertices_clear_lines (g : Geometry) :
  lineVertices (clear_lines g) = [].
Proof. done. Qed.
Lemma lineTangentsIn_clear_lines (g : Geometry) :
  lineTangentsIn (clear_lines g) = [].
Proof. done. Qed.
Lemma lineTangentsOut_clear_lines (g : Geometry) :
  lineTangentsOut (clear_lines g) = [].
Proof. done. Qed.
Lemma lineVertexColors_clear_lines (g : Geometry) :
  lineVertexColors (clear_lines g) = lineVertexColors g.
Proof. done. Qed.
Lemma vertices_clear_lines (g : Geometry) :
  vertices (clear_lines g) = vertices g.
Proof. done. Qed.
Lemma edges_clear_lines (g : Geometry) : edges (clear_lines g) = edges g.
Proof. done. Qed.
Lemma vertexStrokeColors_clear_lines (g : Geometry) :
  vertexStrokeColors (clear_lines g) = vertexStrokeColors g.
Proof. done. Qed.

End StrokeBuffers.

Create Rewrite HintDb buffers.
#[global] Hint Rewrite
  @lineSides_addSegment @lineVertices_addSegment @lineTangentsIn_addSegment
  @lineTangentsOut_addSegment @lineVertexColors_addSegment @lineSides_addJoin
  @lineVertices_addJoin @lineTangentsIn_addJoin @lineTangentsOut_addJoin
  @lineVertexColors_addJoin @lineSides_addCap @lineVertices_addCap
  @lineTangentsIn_addCap @lineTangentsOut_addCap @lineVertexColors_addCap
  @vertices_addSegment @edges_addSegment @vertexStrokeColors_addSegment
  @vertices_addJoin @edges_addJoin @vertexStrokeColors_addJoin
  @vertices_addCap @edges_addCap @vertexStrokeColors_addCap
  @lineSides_clear_lines @lineVertices_clear_lines
  @lineTangentsIn_clear_lines @lineTangentsOut_clear_lines
  @lineVertexColors_clear_lines @vertices_clear_lines @edges_clear_lines
  @vertexStrokeColors_clear_lines
  : buffers.

Section StrokeRuns.
Context {N : JSNumber}.

(** Deciding membership in [connected] and equality of vertex indices
    while a run is unfolded. *)
Ltac decide_mem :=
  repeat match goal with
  | |- context [bool_decide (?x ∈ ?s)] =>
      first [ rewrite (bool_decide_eq_false_2 (x ∈ s)) by set_solver
            | rewrite (bool_decide_eq_true_2 (x ∈ s)) by set_solver ]
  end.

Ltac decide_eqb :=
  repeat match goal with
  | |- context [Nat.eqb ?x ?x] => rewrite (Nat.eqb_refl x)
  | |- context [Nat.eqb ?x ?y] =>
      rewrite (proj2 (Nat.eqb_neq x y)) by (done || lia)
  end.

(** Running the loop turn by turn. *)
Lemma edgeLoop_turn k i (st st' : Pass) :
  edgeStep i st = Some st' → edgeLoop (S k) i st = edgeLoop k (S i) st'.
Proof. intros Hstep. cbn [edgeLoop]. by rewrite Hstep. Qed.

Lemma edgesToVertices_of_loop (g : Geometry) (st : Pass) :
  edgeLoop (length (edges g)) 0 (startPass g) = Some st →
  _edgesToVertices g
  = Some (addCaps (Map_values (potentialCaps st)) (geom st)).
Proof. intros Hloop. unfold _edgesToVertices. by rewrite Hloop. Qed.

(** The only turn of the loop when there is one edge. *)
Lemma first_edge_of_one (g : Geometry) a b A B :
  edges g = [(a, b)] →
  vertices g !! a = Some A → vertices g !! b = Some B → a ≠ b →
  let dir := vnormalize (vsub B A) in
  (magSq dir >? lit_0)%J = true →
  edgeStep 0 (startPass g)
  = Some (mkPass
            (_addSegment A B (strokeColorOf g a) (strokeColorOf g b) dir
               (clear_lines g))
            [ (a, mkCap A (vmult dir lit_neg_1) (strokeColorOf g a));
              (b, mkCap B dir (strokeColorOf g b)) ]
            ∅ (Some dir)).
Proof.
  intros He HA HB Hab dir Hok.
  unfold edgeStep. simpl. rewrite He. simpl. rewrite HA, HB. simpl.
  fold dir. rewrite Hok. simpl.
  unfold openLine. simpl. decide_mem. simpl.
  unfold endLastEdge. simpl. rewrite He. simpl. decide_mem. decide_eqb.
  reflexivity.
Qed.

(** C2, as the code has it.  One edge [(a, b)] between two different
    vertices, whose computed direction has a squared length above [0]: the
    pass returns, and it leaves 18 stroke vertices,
    the 6 of the segment, the 6 of the cap at [a] and the 6 of the cap at
    [b]; on all 12 cap vertices the tangent-out is the zero vector. *)
Theorem single_edge_strokes (g : Geometry) a b A B :
  edges g = [(a, b)] → a ≠ b →
  vertices g !! a = Some A → vertices g !! b = Some B →
  let dir := vnormalize (vsub B A) in
  (magSq dir >? lit_0)%J = true →
  ∃ g', _edgesToVertices g = Some g'
    ∧ length (lineSides g') = 18
    ∧ lineSides g'
      = ([1; 1; -1; 1; -1; -1] ++ [-1; 2; -2; 1; 2; -1]
           ++ [-1; 2; -2; 1; 2; -1])%Z
    ∧ lineVertices g'
      = (array A ++ array B ++ array A ++ array B ++ array B ++ array A)
          ++ concat (replicate 6 (array A))
          ++ concat (replicate 6 (array B))
    ∧ lineTangentsIn g'
      = concat (replicate 6 (array dir))
          ++ concat (replicate 6 (array (vmult dir lit_neg_1)))
          ++ concat (replicate 6 (array dir))
    ∧ lineTangentsOut g'
      = concat (replicate 6 (array dir))
          ++ concat (replicate 6 (array vzero))
          ++ concat (replicate 6 (array vzero)).
Proof.
  intros He Hab HA HB dir Hok.
  eexists. split.
  { apply edgesToVertices_of_loop. rewrite He. cbn [length].
    rewrite (edgeLoop_turn _ _ _ _
               (first_edge_of_one g a b A B He HA HB Hab Hok)).
    reflexivity. }
  cbn [Map_values fmap list_fmap snd addCaps foldl capPoint capDir capColor
       potentialCaps geom].
  autorewrite with buffers. cbn [app]. rewrite <- ?app_assoc.
  split; [|split; [|split; [|split]]]; reflexivity.
Qed.

(** The two turns of the loop over a polyline [a, b, c]. *)
Lemma first_edge_of_two (g : Geometry) a b c A B :
  edges g = [(a, b); (b, c)] →
  vertices g !! a = Some A → vertices g !! b = Some B →
  let d1 := vnormalize (vsub B A) in
  (magSq d1 >? lit_0)%J = true →
  edgeStep 0 (startPass g)
  = Some (mkPass
            (_addSegment A B (strokeColorOf g a) (strokeColorOf g b) d1
               (clear_lines g))
            [ (a, mkCap A (vmult d1 lit_neg_1) (strokeColorOf g a)) ]
            ∅ (Some d1)).
Proof.
  intros He HA HB d1 Hok.
  unfold edgeStep. simpl. rewrite He. simpl. rewrite HA, HB. simpl.
  fold d1. rewrite Hok. simpl.
  unfold openLine. simpl. decide_mem. simpl.
  unfold endLastEdge. simpl. rewrite He. reflexivity.
Qed.

Lemma second_edge_of_two (g1 : Geometry) a b c B C caps lvd :
  edges g1 = [(a, b); (b, c)] →
  vertices g1 !! b = Some B → vertices g1 !! c = Some C →
  b ≠ c → Map_get c caps = None → Map_delete b caps = caps →
  let d2 := vnormalize (vsub C B) in
  (magSq d2 >? lit_0)%J = true →
  let seg := _addSegment B C (strokeColorOf g1 b) (strokeColorOf g1 c) d2
               g1 in
  edgeStep 1 (mkPass g1 caps ∅ (Some lvd))
  = Some (mkPass
            (if (dot d2 lvd <? lit_1 - lit_1e_8)%J
             then _addJoin B lvd d2 (strokeColorOf g1 b) seg
             else seg)
            (Map_set c (mkCap C d2 (strokeColorOf g1 c)) caps)
            (∅ ∪ {[b]}) (Some d2)).
Proof.
  intros He HB HC Hbc Hget Hdel d2 Hok seg.
  unfold edgeStep. cbn [geom Nat.eqb Nat.sub]. rewrite He.
  cbn [lookup list_lookup mbind option_bind fst snd]. rewrite HB, HC.
  cbn [mbind option_bind]. fold d2. rewrite Hok. fold seg.
  cbn [Nat.ltb Nat.leb andb]. rewrite Nat.eqb_refl.
  unfold continueLine. cbn [geom connected potentialCaps lastValidDir fst].
  decide_mem. rewrite Hdel. cbn [andb mbind option_bind].
  unfold endLastEdge.
  destruct (dot d2 lvd <? lit_1 - lit_1e_8)%J;
    cbn [geom connected potentialCaps lastValidDir snd]; unfold seg;
    rewrite ?edges_addJoin, ?edges_addSegment, He;
    cbn [length Nat.sub Nat.eqb andb negb]; decide_mem;
    cbn [negb]; rewrite Hget; reflexivity.
Qed.

(** C1, as the code has it.  Where an edge starts at the end vertex of the edge before it and
    that vertex is not yet connected, [continueLine] runs (first part);
    it appends a join of 12 vertices at the shared point, with side codes
    [-1, -3, -2, -1, 0, -3, 3, 1, 2, 3, 0, 1], tangent-in [lastValidDir] and
    tangent-out the direction of the edge, when [lastValidDir] is set, the
    edge is not degenerate and the dot product of the two directions is
    below [1 - 1e-8] (second part), and it appends nothing otherwise
    (third part).  So a polyline on three vertices gets its two segments,
    the join at the middle vertex exactly when the dot product of the two
    computed directions is below the bound, and its two caps (fourth
    part). *)
Theorem join_at_shared_vertex :
  (∀ i (st : Pass) prev currEdge begin end_,
     0 < i → edges (geom st) !! (i - 1) = Some prev →
     edges (geom st) !! i = Some currEdge → prev.2 = currEdge.1 →
     vertices (geom st) !! currEdge.1 = Some begin →
     vertices (geom st) !! currEdge.2 = Some end_ →
     let fromColor := strokeColorOf (geom st) currEdge.1 in
     let toColor := strokeColorOf (geom st) currEdge.2 in
     let dir := vnormalize (vsub end_ begin) in
     let dirOK := (magSq dir >? lit_0)%J in
     let st1 :=
       if dirOK
       then mkPass (_addSegment begin end_ fromColor toColor dir (geom st))
              (potentialCaps st) (connected st) (lastValidDir st)
       else st in
     let st3 :=
       endLastEdge i currEdge end_ dir toColor
         (continueLine currEdge begin dir dirOK fromColor st1) in
     edgeStep i st
     = Some (if dirOK
             then mkPass (geom st3) (potentialCaps st3) (connected st3)
                    (Some dir)
             else st3))
  ∧ (∀ currEdge begin dir (dirOK : bool) fromColor (st : Pass) lvd,
       currEdge.1 ∉ connected st →
       lastValidDir st = Some lvd → dirOK = true →
       (dot dir lvd <? lit_1 - lit_1e_8)%J = true →
       let st' := continueLine currEdge begin dir dirOK fromColor st in
       lineSides (geom st')
       = lineSides (geom st)
           ++ [-1; -3; -2; -1; 0; -3; 3; 1; 2; 3; 0; 1]%Z
       ∧ lineVertices (geom st')
         = lineVertices (geom st) ++ concat (replicate 12 (array begin))
       ∧ lineTangentsIn (geom st')
         = lineTangentsIn (geom st) ++ concat (replicate 12 (array lvd))
       ∧ lineTangentsOut (geom st')
         = lineTangentsOut (geom st) ++ concat (replicate 12 (array dir))
       ∧ lineVertexColors (geom st')
         = lineVertexColors (geom st) ++ concat (replicate 12 fromColor))
  ∧ (∀ currEdge begin dir (dirOK : bool) fromColor (st : Pass),
       currEdge.1 ∉ connected st →
       (lastValidDir st = None ∨ dirOK = false
        ∨ ∃ lvd, lastValidDir st = Some lvd
                 ∧ (dot dir lvd <? lit_1 - lit_1e_8)%J = false) →
       geom (continueLine currEdge begin dir dirOK fromColor st) = geom st)
  ∧ (∀ (g : Geometry) a b c A B C,
       edges g = [(a, b); (b, c)] → a ≠ b → b ≠ c → a ≠ c →
       vertices g !! a = Some A → vertices g !! b = Some B →
       vertices g !! c = Some C →
       let d1 := vnormalize (vsub B A) in
       let d2 := vnormalize (vsub C B) in
       (magSq d1 >? lit_0)%J = true → (magSq d2 >? lit_0)%J = true →
       let bend := (dot d2 d1 <? lit_1 - lit_1e_8)%J in
       ∃ g', _edgesToVertices g = Some g'
         ∧ lineSides g'
           = ([1; 1; -1; 1; -1; -1] ++ [1; 1; -1; 1; -1; -1]
                ++ (if bend
                    then [-1; -3; -2; -1; 0; -3; 3; 1; 2; 3; 0; 1]
                    else [])
                ++ [-1; 2; -2; 1; 2; -1] ++ [-1; 2; -2; 1; 2; -1])%Z
         ∧ lineVertices g'
           = (array A ++ array B ++ array A ++ array B ++ array B
                ++ array A)
               ++ (array B ++ array C ++ array B ++ array C ++ array C
                     ++ array B)
               ++ (if bend then concat (replicate 12 (array B)) else [])
               ++ concat (replicate 6 (array A))
               ++ concat (replicate 6 (array C))
         ∧ lineTangentsIn g'
           = concat (replicate 6 (array d1))
               ++ concat (replicate 6 (array d2))
               ++ (if bend then concat (replicate 12 (array d1)) else [])
               ++ concat (replicate 6 (array (vmult d1 lit_neg_1)))
               ++ concat (replicate 6 (array d2))
         ∧ lineTangentsOut g'
           = concat (replicate 6 (array d1))
               ++ concat (replicate 6 (array d2))
               ++ (if bend then concat (replicate 12 (array d2)) else [])
               ++ concat (replicate 6 (array vzero))
               ++ concat (replicate 6 (array vzero))).
Proof.
  split; [|split; [|split]].
  - intros i st prev currEdge begin end_ Hi Hprev Hcur Hshared Hb He.
    cbv zeta. unfold edgeStep.
    destruct i as [|i]; [lia|].
    replace (S i - 1) with i in * by lia.
    cbn [Nat.eqb]. rewrite Hprev, Hcur. cbn [mbind option_bind].
    rewrite Hb, He. cbn [mbind option_bind].
    rewrite Hshared, Nat.eqb_refl.
    destruct (magSq (vnormalize (vsub end_ begin)) >? lit_0)%J; reflexivity.
  - intros currEdge begin dir dirOK fromColor st lvd Hfresh Hlvd -> Hdot.
    cbv zeta. unfold continueLine.
    rewrite (bool_decide_eq_false_2 _ Hfresh), Hlvd, Hdot.
    cbn [andb geom].
    by autorewrite with buffers.
  - intros currEdge begin dir dirOK fromColor st Hfresh Hno.
    unfold continueLine. rewrite (bool_decide_eq_false_2 _ Hfresh).
    destruct Hno as [->|[->|(lvd & -> & ->)]].
    + reflexivity.
    + by destruct (lastValidDir st).
    + by rewrite andb_false_r.
  - intros g a b c A B C He Hab Hbc Hac HA HB HC d1 d2 Hok1 Hok2 bend.
    pose proof (second_edge_of_two
                  (_addSegment A B (strokeColorOf g a) (strokeColorOf g b)
                     d1 (clear_lines g))
                  a b c B C
                  [(a, mkCap A (vmult d1 lit_neg_1) (strokeColorOf g a))]
                  d1) as Hsecond.
    rewrite edges_addSegment, edges_clear_lines, vertices_addSegment,
      vertices_clear_lines in Hsecond.
    specialize (Hsecond He HB HC Hbc).
    cbn [Map_get Map_delete Map_set] in Hsecond.
    rewrite (proj2 (Nat.eqb_neq a c) Hac), (proj2 (Nat.eqb_neq a b) Hab)
      in Hsecond.
    specialize (Hsecond eq_refl eq_refl Hok2).
    fold d2 bend in Hsecond. clearbody bend.
    eexists. split.
    { apply edgesToVertices_of_loop. rewrite He. cbn [length].
      rewrite (edgeLoop_turn _ _ _ _
                 (first_edge_of_two g a b c A B He HA HB Hok1)).
      fold d1. rewrite (edgeLoop_turn _ _ _ _ Hsecond). reflexivity. }
    cbn [Map_values fmap list_fmap snd addCaps foldl capPoint capDir
         capColor potentialCaps geom].
    destruct bend; autorewrite with buffers; cbn [app];
      rewrite <- ?app_assoc; (split; [|split; [|split]]); reflexivity.
Qed.

(** What one turn of the loop does to [lastValidDir]. *)
Lemma closeLine_lastValidDir prevEdge fromColor (st st' : Pass) :
  closeLine prevEdge fromColor st = Some st' →
  lastValidDir st'
  = match lastValidDir st, prevEdge with
    | Some lvd, Some prev =>
        if bool_decide (prev.2 ∈ connected st) then Some lvd else None
    | _, _ => None
    end.
Proof.
  unfold closeLine. destruct (lastValidDir st) as [lvd|] eqn:Hlvd.
  - destruct prevEdge as [prev|]; [|done]. cbn [mbind option_bind].
    destruct (bool_decide (prev.2 ∈ connected st)).
    + intros [= <-]. done.
    + destruct (vertices (geom st) !! prev.2) as [pt|]; [|done].
      cbn [mbind option_bind].
      destruct (Map_get prev.2 (potentialCaps st)); by intros [= <-].
  - intros [= <-]. done.
Qed.

Lemma continueLine_lastValidDir currEdge begin dir dirOK fromColor
    (st : Pass) :
  lastValidDir (continueLine currEdge begin dir dirOK fromColor st)
  = lastValidDir st.
Proof.
  unfold continueLine.
  destruct (bool_decide (currEdge.1 ∈ connected st)); [done|].
  destruct (lastValidDir st) as [lvd|]; [|done].
  by destruct (dirOK && (dot dir lvd <? lit_1 - lit_1e_8)%J)%bool.
Qed.

Lemma endLastEdge_lastValidDir i currEdge end_ dir toColor (st : Pass) :
  lastValidDir (endLastEdge i currEdge end_ dir toColor st)
  = lastValidDir st.
Proof.
  unfold endLastEdge.
  destruct (Nat.eqb i (length (edges (geom st)) - 1)
            && negb (bool_decide (currEdge.2 ∈ connected st)))%bool;
    [|done].
  by destruct (Map_get currEdge.2 (potentialCaps st)).
Qed.

(** C9, as the code has it.  After the turn for edge [i], [lastValidDir] is
    the direction of the edge when the edge is not degenerate.  When it is
    degenerate, [lastValidDir] is unchanged if the edge starts at the end
    vertex of the edge before it, if it is the first edge, or if that end
    vertex is already connected; in the remaining case, a degenerate edge
    that opens a new line after an end vertex not yet connected,
    [lastValidDir] is cleared. *)
Theorem lastValidDir_after_edge i (st st' : Pass) currEdge begin end_ :
  edges (geom st) !! i = Some currEdge →
  vertices (geom st) !! currEdge.1 = Some begin →
  vertices (geom st) !! currEdge.2 = Some end_ →
  edgeStep i st = Some st' →
  let dir := vnormalize (vsub end_ begin) in
  let dirOK := (magSq dir >? lit_0)%J in
  (dirOK = true → lastValidDir st' = Some dir)
  ∧ (dirOK = false → i = 0 → lastValidDir st' = lastValidDir st)
  ∧ (∀ prev, dirOK = false → 0 < i →
       edges (geom st) !! (i - 1) = Some prev →
       (prev.2 = currEdge.1 → lastValidDir st' = lastValidDir st)
       ∧ (prev.2 ≠ currEdge.1 → prev.2 ∈ connected st →
            lastValidDir st' = lastValidDir st)
       ∧ (prev.2 ≠ currEdge.1 → prev.2 ∉ connected st →
            lastValidDir st' = None)).
Proof.
  intros Hcur Hb He Hstep dir dirOK. revert Hstep.
  unfold edgeStep. rewrite Hcur. cbn [mbind option_bind].
  rewrite Hb, He. cbn [mbind option_bind]. fold dir. fold dirOK.
  destruct dirOK eqn:Hok.
  - (* the last assignment wins *)
    intros Hstep. split; [|split; [done | intros; done]].
    intros _. revert Hstep.
    match goal with
    | |- (?m ≫= _) = _ → _ => destruct m as [st2|]; [|done]
    end.
    by intros [= <-].
  - split; [done|]. split.
    + intros _ ->. revert Hstep. cbn [Nat.eqb].
      unfold openLine. cbn [andb].
      match goal with
      | |- (?m ≫= _) = _ → _ => destruct m as [st2|] eqn:Hclose; [|done]
      end.
      cbn [mbind option_bind]. intros [= <-].
      rewrite endLastEdge_lastValidDir.
      rewrite (closeLine_lastValidDir _ _ _ _ Hclose).
      revert Hclose. unfold closeLine.
      by destruct (lastValidDir st).
    + intros prev _ Hi Hprev. revert Hstep.
      destruct i as [|i]; [lia|].
      replace (S i - 1) with i in * by lia.
      cbn [Nat.eqb Nat.ltb Nat.leb andb]. rewrite Hprev.
      unfold openLine. cbn [andb].
      destruct (Nat.eqb prev.2 currEdge.1) eqn:Heq.
      * apply Nat.eqb_eq in Heq. cbn [mbind option_bind].
        intros [= <-].
        rewrite endLastEdge_lastValidDir, continueLine_lastValidDir.
        split; [done|]. split; intros Hne; by destruct Hne.
      * apply Nat.eqb_neq in Heq.
        match goal with
        | |- (?m ≫= _) = _ → _ =>
            destruct m as [st2|] eqn:Hclose; [|done]
        end.
        cbn [mbind option_bind]. intros [= <-].
        rewrite endLastEdge_lastValidDir.
        rewrite (closeLine_lastValidDir _ _ _ _ Hclose).
        split; [done|]. split; intros _ Hconn.
        -- rewrite (bool_decide_eq_true_2 _ Hconn).
           by destruct (lastValidDir st).
        -- rewrite (bool_decide_eq_false_2 _ Hconn).
           by destruct (lastValidDir st).
Qed.

(** *** Colours when [vertexStrokeColors] is empty *)

Lemma strokeColorOf_empty (g : Geometry) v :
  vertexStrokeColors g = [] → strokeColorOf g v = transparentBlack.
Proof. intros Hempty. unfold strokeColorOf. by rewrite Hempty. Qed.

Lemma concat_replicate_add {X} n m (xs : list X) :
  concat (replicate (n + m) xs)
  = concat (replicate n xs) ++ concat (replicate m xs).
Proof. by rewrite replicate_add, concat_app. Qed.

Lemma allTransparent_addSegment base begin end_ dir (g : Geometry) :
  allTransparent base g →
  allTransparent base
    (_addSegment begin end_ transparentBlack transparentBlack dir g).
Proof.
  intros (Hempty & Hcolors & Hcount). split; [done|]. split.
  - rewrite lineVertexColors_addSegment, lineSides_addSegment, Hcolors.
    rewrite length_app, concat_replicate_add, <- app_assoc. done.
  - rewrite lineVertices_addSegment, lineSides_addSegment, !length_app, Hcount.
    cbn [length array concat replicate app]. lia.
Qed.

Lemma allTransparent_addJoin base point from to (g : Geometry) :
  allTransparent base g →
  allTransparent base (_addJoin point from to transparentBlack g).
Proof.
  intros (Hempty & Hcolors & Hcount). split; [done|]. split.
  - rewrite lineVertexColors_addJoin, lineSides_addJoin, Hcolors.
    rewrite length_app, concat_replicate_add, <- app_assoc. done.
  - rewrite lineVertices_addJoin, lineSides_addJoin, !length_app, Hcount.
    cbn [length array concat replicate app]. lia.
Qed.

Lemma allTransparent_addCap base point tangent (g : Geometry) :
  allTransparent base g →
  allTransparent base (_addCap point tangent transparentBlack g).
Proof.
  intros (Hempty & Hcolors & Hcount). split; [done|]. split.
  - rewrite lineVertexColors_addCap, lineSides_addCap, Hcolors.
    rewrite length_app, concat_replicate_add, <- app_assoc. done.
  - rewrite lineVertices_addCap, lineSides_addCap, !length_app, Hcount.
    cbn [length array concat replicate app]. lia.
Qed.

Lemma capsTransparent_get k caps cap :
  capsTransparent caps → Map_get k caps = Some cap →
  capColor cap = transparentBlack.
Proof.
  induction 1 as [|[k' cap'] caps Hhead _ IH]; [done|]. cbn [Map_get].
  destruct (Nat.eqb k' k); [by intros [= <-] | exact IH].
Qed.

Lemma capsTransparent_set k cap caps :
  capsTransparent caps → capColor cap = transparentBlack →
  capsTransparent (Map_set k cap caps).
Proof.
  intros Hcaps Hcap.
  induction Hcaps as [|[k' cap'] caps Hhead Htail IH]; cbn [Map_set].
  - by repeat constructor.
  - destruct (Nat.eqb k' k); by constructor.
Qed.

Lemma capsTransparent_delete k caps :
  capsTransparent caps → capsTransparent (Map_delete k caps).
Proof.
  induction 1 as [|[k' cap'] caps Hhead Htail IH]; cbn [Map_delete].
  - constructor.
  - destruct (Nat.eqb k' k); [done | by constructor].
Qed.

Lemma passTransparent_continueLine base currEdge begin dir dirOK st :
  passTransparent base st →
  passTransparent base
    (continueLine currEdge begin dir dirOK transparentBlack st).
Proof.
  intros [Hgeom Hcaps]. unfold continueLine.
  destruct (bool_decide (currEdge.1 ∈ connected st)); [done|].
  pose proof (capsTransparent_delete currEdge.1 _ Hcaps) as Hdel.
  destruct (lastValidDir st) as [lvd|]; [|done].
  destruct (dirOK && (dot dir lvd <? lit_1 - lit_1e_8)%J)%bool; [|done].
  split; [by apply allTransparent_addJoin | done].
Qed.

Lemma passTransparent_openLine base currEdge begin dir dirOK st :
  passTransparent base st →
  passTransparent base
    (openLine currEdge begin dir dirOK transparentBlack st).
Proof.
  intros [Hgeom Hcaps]. unfold openLine.
  destruct (dirOK && negb (bool_decide (currEdge.1 ∈ connected st)))%bool;
    [|done].
  destruct (Map_get currEdge.1 (potentialCaps st)).
  - split; [by apply allTransparent_addJoin
           | by apply capsTransparent_delete].
  - split; [done | by apply capsTransparent_set].
Qed.

Lemma passTransparent_closeLine base prevEdge st st' :
  passTransparent base st →
  closeLine prevEdge transparentBlack st = Some st' →
  passTransparent base st'.
Proof.
  intros [Hgeom Hcaps]. unfold closeLine.
  destruct (lastValidDir st) as [lvd|]; [|by intros [= <-]].
  destruct prevEdge as [prev|]; [|done]. cbn [mbind option_bind].
  destruct (bool_decide (prev.2 ∈ connected st)); [by intros [= <-]|].
  destruct (vertices (geom st) !! prev.2) as [pt|]; [|done].
  cbn [mbind option_bind].
  destruct (Map_get prev.2 (potentialCaps st)); intros [= <-].
  - split; [by apply allTransparent_addJoin
           | by apply capsTransparent_delete].
  - split; [done | by apply capsTransparent_set].
Qed.

Lemma passTransparent_endLastEdge base i currEdge end_ dir st :
  passTransparent base st →
  passTransparent base
    (endLastEdge i currEdge end_ dir transparentBlack st).
Proof.
  intros [Hgeom Hcaps]. unfold endLastEdge.
  destruct (Nat.eqb i (length (edges (geom st)) - 1)
            && negb (bool_decide (currEdge.2 ∈ connected st)))%bool;
    [|done].
  destruct (Map_get currEdge.2 (potentialCaps st)).
  - split; [by apply allTransparent_addJoin
           | by apply capsTransparent_delete].
  - split; [done | by apply capsTransparent_set].
Qed.

Lemma passTransparent_edgeStep base i st st' :
  passTransparent base st → edgeStep i st = Some st' →
  passTransparent base st'.
Proof.
  intros Hst. unfold edgeStep.
  destruct (edges (geom st) !! i) as [currEdge|]; [|done].
  cbn [mbind option_bind].
  destruct (vertices (geom st) !! currEdge.1) as [begin|]; [|done].
  cbn [mbind option_bind].
  destruct (vertices (geom st) !! currEdge.2) as [end_|]; [|done].
  cbn [mbind option_bind].
  rewrite !(strokeColorOf_empty (geom st)) by apply Hst.
  set (dir := vnormalize (vsub end_ begin)).
  set (st1 := if (magSq dir >? lit_0)%J then _ else st).
  assert (passTransparent base st1) as Hst1.
  { subst st1. destruct (magSq dir >? lit_0)%J; [|done].
    destruct Hst as [Hgeom Hcaps].
    split; [by apply allTransparent_addSegment | done]. }
  match goal with
  | |- (?m ≫= _) = _ → _ => destruct m as [st2|] eqn:Hst2; [|done]
  end.
  assert (passTransparent base st2) as Hinv2.
  { revert Hst2.
    match goal with
    | |- (if ?c then _ else _) = _ → _ => destruct c
    end.
    - intros [= <-]. by apply passTransparent_continueLine.
    - apply passTransparent_closeLine.
      by apply passTransparent_openLine. }
  cbn [mbind option_bind].
  pose proof (passTransparent_endLastEdge base i currEdge end_ dir st2
                Hinv2) as Hinv3.
  destruct (magSq dir >? lit_0)%J; intros [= <-]; [|done].
  exact Hinv3.
Qed.

Lemma passTransparent_edgeLoop base k : ∀ i st st',
  passTransparent base st → edgeLoop k i st = Some st' →
  passTransparent base st'.
Proof.
  induction k as [|k IH]; intros i st st' Hst; cbn [edgeLoop].
  - by intros [= <-].
  - destruct (edgeStep i st) as [st1|] eqn:Hstep; [|done].
    cbn [mbind option_bind].
    apply IH. by apply (passTransparent_edgeStep base i st).
Qed.

Lemma allTransparent_addCaps base caps : ∀ g : Geometry,
  allTransparent base g →
  Forall (λ cap, capColor cap = transparentBlack) caps →
  allTransparent base (addCaps caps g).
Proof.
  induction caps as [|cap caps IH]; intros g Hg Hcaps; [done|].
  inversion Hcaps as [|? ? Hcap Hrest]; subst. cbn [addCaps foldl].
  apply IH; [|done]. rewrite Hcap. by apply allTransparent_addCap.
Qed.

(** *** The pass returns *)

Lemma sameShape_continueLine currEdge begin dir dirOK fromColor (st : Pass) :
  sameShape (geom st)
    (geom (continueLine currEdge begin dir dirOK fromColor st)).
Proof.
  unfold continueLine.
  destruct (bool_decide (currEdge.1 ∈ connected st)); [done|].
  destruct (lastValidDir st) as [lvd|]; [|done].
  by destruct (dirOK && (dot dir lvd <? lit_1 - lit_1e_8)%J)%bool.
Qed.

Lemma sameShape_openLine currEdge begin dir dirOK fromColor (st : Pass) :
  sameShape (geom st) (geom (openLine currEdge begin dir dirOK fromColor st)).
Proof.
  unfold openLine.
  destruct (dirOK && negb (bool_decide (currEdge.1 ∈ connected st)))%bool;
    [|done].
  by destruct (Map_get currEdge.1 (potentialCaps st)).
Qed.

Lemma sameShape_closeLine prevEdge fromColor (st st' : Pass) :
  closeLine prevEdge fromColor st = Some st' →
  sameShape (geom st) (geom st').
Proof.
  unfold closeLine.
  destruct (lastValidDir st) as [lvd|]; [|by intros [= <-]].
  destruct prevEdge as [prev|]; [|done]. cbn [mbind option_bind].
  destruct (bool_decide (prev.2 ∈ connected st)); [by intros [= <-]|].
  destruct (vertices (geom st) !! prev.2) as [pt|]; [|done].
  cbn [mbind option_bind].
  by destruct (Map_get prev.2 (potentialCaps st)); intros [= <-].
Qed.

Lemma sameShape_endLastEdge i currEdge end_ dir toColor (st : Pass) :
  sameShape (geom st) (geom (endLastEdge i currEdge end_ dir toColor st)).
Proof.
  unfold endLastEdge.
  destruct (Nat.eqb i (length (edges (geom st)) - 1)
            && negb (bool_decide (currEdge.2 ∈ connected st)))%bool;
    [|done].
  by destruct (Map_get currEdge.2 (potentialCaps st)).
Qed.

Lemma sameShape_trans (g1 g2 g3 : Geometry) :
  sameShape g1 g2 → sameShape g2 g3 → sameShape g1 g3.
Proof. intros [? ?] [? ?]. split; congruence. Qed.

Lemma closeLine_total prevEdge fromColor (st : Pass) :
  (lastValidDir st = None
   ∨ ∃ prev, prevEdge = Some prev ∧ prev.2 < length (vertices (geom st))) →
  is_Some (closeLine prevEdge fromColor st).
Proof.
  intros Hprev. unfold closeLine.
  destruct (lastValidDir st) as [lvd|]; [|by eexists].
  destruct Hprev as [|(prev & -> & Hin)]; [done|].
  cbn [mbind option_bind].
  destruct (bool_decide (prev.2 ∈ connected st)); [by eexists|].
  destruct (lookup_lt_is_Some_2 _ _ Hin) as [pt ->].
  cbn [mbind option_bind].
  destruct (Map_get prev.2 (potentialCaps st)); by eexists.
Qed.

Lemma edgeStep_returns i (st : Pass) currEdge :
  edges (geom st) !! i = Some currEdge →
  validEdge (geom st) currEdge →
  (lastValidDir st = None
   ∨ 0 < i ∧ ∃ prev, edges (geom st) !! (i - 1) = Some prev
                     ∧ validEdge (geom st) prev) →
  ∃ st', edgeStep i st = Some st' ∧ sameShape (geom st) (geom st').
Proof.
  intros Hcur [Hb He] Hprev. unfold edgeStep. rewrite Hcur.
  cbn [mbind option_bind].
  destruct (lookup_lt_is_Some_2 _ _ Hb) as [begin ->].
  destruct (lookup_lt_is_Some_2 _ _ He) as [end_ ->].
  cbn [mbind option_bind].
  set (dir := vnormalize (vsub end_ begin)).
  set (fromColor := strokeColorOf (geom st) currEdge.1).
  set (toColor := strokeColorOf (geom st) currEdge.2).
  set (st1 := if (magSq dir >? lit_0)%J then _ else st).
  assert (sameShape (geom st) (geom st1)
          ∧ lastValidDir st1 = lastValidDir st) as [Hshape1 Hlvd1].
  { subst st1. by destruct (magSq dir >? lit_0)%J. }
  set (prevEdge := if Nat.eqb i 0 then None else edges (geom st) !! (i - 1)).
  assert (∃ st2, (if match prevEdge with
                     | Some prev =>
                         (Nat.ltb 0 i && Nat.eqb prev.2 currEdge.1)%bool
                     | None => false
                     end
                  then Some (continueLine currEdge begin dir
                               (magSq dir >? lit_0)%J fromColor st1)
                  else closeLine prevEdge fromColor
                         (openLine currEdge begin dir
                            (magSq dir >? lit_0)%J fromColor st1))
                 = Some st2 ∧ sameShape (geom st) (geom st2))
    as (st2 & -> & Hshape2).
  { match goal with
    | |- ∃ st2, (if ?c then _ else _) = _ ∧ _ => destruct c
    end.
    - eexists. split; [reflexivity|].
      eapply sameShape_trans; [exact Hshape1|].
      apply sameShape_continueLine.
    - pose proof (sameShape_openLine currEdge begin dir
                    (magSq dir >? lit_0)%J fromColor st1) as Hopen.
      destruct (closeLine_total prevEdge fromColor
                  (openLine currEdge begin dir (magSq dir >? lit_0)%J
                     fromColor st1)) as [st2 Hclose].
      + destruct Hprev as [Hnone|(Hi & prev & Hp & [_ Hpe])].
        * left. rewrite <- Hlvd1 in Hnone. revert Hnone. clear.
          unfold openLine.
          destruct (_ && _)%bool; [|done].
          by destruct (Map_get _ _).
        * right. exists prev. split.
          -- subst prevEdge. destruct i; [lia|]. exact Hp.
          -- destruct Hopen as [-> _]. destruct Hshape1 as [-> _]. exact Hpe.
      + exists st2. split; [exact Hclose|].
        eapply sameShape_trans; [exact Hshape1|].
        eapply sameShape_trans; [exact Hopen|].
        by apply sameShape_closeLine in Hclose. }
  cbn [mbind option_bind].
  pose proof (sameShape_endLastEdge i currEdge end_ dir toColor st2)
    as Hshape3.
  eexists. split; [reflexivity|].
  destruct (magSq dir >? lit_0)%J; cbn [geom];
    eapply sameShape_trans; eauto.
Qed.

Lemma edgeLoop_returns k : ∀ i (st : Pass),
  i + k = length (edges (geom st)) →
  Forall (validEdge (geom st)) (edges (geom st)) →
  (lastValidDir st = None ∨ 0 < i) →
  is_Some (edgeLoop k i st).
Proof.
  induction k as [|k IH]; intros i st Hlen Hvalid Hfirst; [by eexists|].
  cbn [edgeLoop].
  destruct (lookup_lt_is_Some_2 (edges (geom st)) i ltac:(lia))
    as [currEdge Hcur].
  destruct (edgeStep_returns i st currEdge Hcur) as (st' & -> & Hv & He).
  - by apply (Forall_lookup_1 _ _ _ _ Hvalid Hcur).
  - destruct Hfirst as [?|Hi]; [by left|right]. split; [done|].
    destruct (lookup_lt_is_Some_2 (edges (geom st)) (i - 1) ltac:(lia))
      as [prev Hp].
    exists prev. split; [done|].
    by apply (Forall_lookup_1 _ _ _ _ Hvalid Hp).
  - cbn [mbind option_bind]. apply IH.
    + rewrite He. lia.
    + rewrite He. unfold validEdge. rewrite Hv. exact Hvalid.
    + right. lia.
Qed.

Lemma edgesToVertices_returns (g : Geometry) :
  Forall (validEdge g) (edges g) → is_Some (_edgesToVertices g).
Proof.
  intros Hvalid. unfold _edgesToVertices.
  destruct (edgeLoop_returns (length (edges g)) 0 (startPass g))
    as [st ->]; [done | exact Hvalid | by left | by eexists].
Qed.

(** C10.  With an empty [vertexStrokeColors], every colour the pass reads
    for a vertex is the literal [[0, 0, 0, 0]], not a slice of the empty
    array; the pass returns when every edge names vertices that exist; and
    a pass that returns has appended to [lineVertexColors] the colour
    [[0, 0, 0, 0]] once for every stroke vertex it emitted, as many as there
    are side codes and triples of coordinates, whether the vertex belongs
    to a segment, a join or a cap. *)
Theorem empty_stroke_colors_give_transparent_black (g : Geometry) :
  vertexStrokeColors g = [] →
  (∀ v, strokeColorOf g v = [lit_0; lit_0; lit_0; lit_0])
  ∧ (Forall (validEdge g) (edges g) → is_Some (_edgesToVertices g))
  ∧ ∀ g', _edgesToVertices g = Some g' →
      lineVertexColors g'
      = lineVertexColors g
          ++ concat (replicate (length (lineSides g'))
                       [lit_0; lit_0; lit_0; lit_0])
      ∧ length (lineVertices g') = 3 * length (lineSides g').
Proof.
  intros Hempty. split; [|split].
  - intros v. by apply strokeColorOf_empty.
  - apply edgesToVertices_returns.
  - intros g'. unfold _edgesToVertices.
    destruct (edgeLoop (length (edges g)) 0 (startPass g)) as [st|]
      eqn:Hloop; [|done].
    cbn [mbind option_bind]. intros [= <-].
    assert (passTransparent (lineVertexColors g) (startPass g)) as Hstart.
    { split; [|constructor]. split; [done|]. split; [|done].
      cbn [startPass geom]. autorewrite with buffers.
      by rewrite app_nil_r. }
    destruct (passTransparent_edgeLoop _ _ _ _ _ Hstart Hloop)
      as [Hgeom Hcaps].
    destruct (allTransparent_addCaps (lineVertexColors g)
                (Map_values (potentialCaps st)) (geom st) Hgeom)
      as (_ & Hcolors & Hcount).
    { unfold Map_values. by apply Forall_fmap. }
    split; [exact Hcolors | exact Hcount].
Qed.

End StrokeRuns.

(** ** computeNormals *)

Section NormalProps.
Context {N : JSNumber}.
Variable asin : num → num.

Lemma addToNormal_lookup i n (vn vn' : list Vector) :
  addToNormal i n vn = Some vn' →
  length vn' = length vn
  ∧ ∀ v x, vn !! v = Some x →
      vn' !! v = Some (foldl vadd x (if Nat.eqb i v then [n] else [])).
Proof.
  unfold addToNormal. destruct (vn !! i) as [y|] eqn:Hy; [|done].
  cbn [mbind option_bind]. intros [= <-]. split; [by rewrite length_insert|].
  intros v x Hx. destruct (Nat.eqb i v) eqn:Hiv.
  - apply Nat.eqb_eq in Hiv as ->. rewrite Hx in Hy. injection Hy as ->.
    apply list_lookup_insert_eq. by apply lookup_lt_Some in Hx.
  - apply Nat.eqb_neq in Hiv. by rewrite list_lookup_insert_ne.
Qed.

Lemma addToNormal_total i n (vn : list Vector) :
  i < length vn → is_Some (addToNormal i n vn).
Proof.
  intros Hi. unfold addToNormal.
  destruct (lookup_lt_is_Some_2 vn i Hi) as [x ->]. by eexists.
Qed.

Lemma getFaceNormal_total (g : Geometry) f face :
  faces g !! f = Some face → validFace g face →
  is_Some (_getFaceNormal asin g f).
Proof.
  intros Hf (Ha & Hb & Hc). unfold _getFaceNormal. rewrite Hf.
  cbn [mbind option_bind].
  destruct (lookup_lt_is_Some_2 _ _ Ha) as [vA ->].
  destruct (lookup_lt_is_Some_2 _ _ Hb) as [vB ->].
  destruct (lookup_lt_is_Some_2 _ _ Hc) as [vC ->].
  cbn [mbind option_bind].
  match goal with |- is_Some (if ?c then _ else _) => destruct c end;
    by eexists.
Qed.

Lemma accumulateFace_lookup (g : Geometry) face f vn log vn' log' :
  accumulateFace asin g face f (vn, log) = Some (vn', log') →
  length vn' = length vn
  ∧ ∀ v x, vn !! v = Some x →
      vn' !! v
      = Some (foldl vadd x
                (match _getFaceNormal asin g f with
                 | Some (n, _) => occurrences face v n
                 | None => []
                 end)).
Proof.
  unfold accumulateFace.
  destruct (_getFaceNormal asin g f) as [[n warned]|]; [|done].
  cbn [mbind option_bind fst snd].
  destruct (addToNormal face.1.1 n vn) as [vn1|] eqn:H1; [|done].
  cbn [mbind option_bind].
  destruct (addToNormal face.1.2 n vn1) as [vn2|] eqn:H2; [|done].
  cbn [mbind option_bind].
  destruct (addToNormal face.2 n vn2) as [vn3|] eqn:H3; [|done].
  cbn [mbind option_bind]. intros [= <- <-].
  apply addToNormal_lookup in H1 as [L1 E1].
  apply addToNormal_lookup in H2 as [L2 E2].
  apply addToNormal_lookup in H3 as [L3 E3].
  split; [congruence|]. intros v x Hx.
  unfold occurrences. rewrite !foldl_app.
  apply E3, E2, E1, Hx.
Qed.

Lemma accumulateFaces_lookup (g : Geometry) fs : ∀ f vn log vn' log',
  accumulateFaces asin g fs f (vn, log) = Some (vn', log') →
  length vn' = length vn
  ∧ ∀ v x, vn !! v = Some x →
      vn' !! v = Some (foldl vadd x (contributions asin g fs f v)).
Proof.
  induction fs as [|face fs IH]; intros f vn log vn' log'.
  - cbn [accumulateFaces]. by intros [= <- <-].
  - cbn [accumulateFaces contributions].
    destruct (accumulateFace asin g face f (vn, log)) as [[vn1 log1]|]
      eqn:Hface; [|done].
    cbn [mbind option_bind]. intros Hrest.
    apply accumulateFace_lookup in Hface as [L1 E1].
    apply IH in Hrest as [L2 E2]. split; [congruence|].
    intros v x Hx. rewrite foldl_app. by apply E2, E1.
Qed.

Lemma accumulateFace_total (g : Geometry) face f vn log :
  faces g !! f = Some face → validFace g face →
  length vn = length (vertices g) →
  is_Some (accumulateFace asin g face f (vn, log)).
Proof.
  intros Hf Hvalid Hlen. unfold accumulateFace.
  destruct (getFaceNormal_total g f face Hf Hvalid) as [[n warned] ->].
  cbn [mbind option_bind fst snd]. destruct Hvalid as (Ha & Hb & Hc).
  destruct (addToNormal_total face.1.1 n vn ltac:(lia)) as [vn1 H1].
  rewrite H1. cbn [mbind option_bind].
  pose proof (proj1 (addToNormal_lookup _ _ _ _ H1)) as L1.
  destruct (addToNormal_total face.1.2 n vn1 ltac:(lia)) as [vn2 H2].
  rewrite H2. cbn [mbind option_bind].
  pose proof (proj1 (addToNormal_lookup _ _ _ _ H2)) as L2.
  destruct (addToNormal_total face.2 n vn2 ltac:(lia)) as [vn3 H3].
  rewrite H3. by eexists.
Qed.

Lemma accumulateFaces_total (g : Geometry) fs : ∀ f vn log,
  (∀ k face, fs !! k = Some face →
     faces g !! (f + k) = Some face ∧ validFace g face) →
  length vn = length (vertices g) →
  is_Some (accumulateFaces asin g fs f (vn, log)).
Proof.
  induction fs as [|face fs IH]; intros f vn log Hfs Hlen.
  - by eexists.
  - cbn [accumulateFaces].
    destruct (Hfs 0 face eq_refl) as [Hf Hvalid].
    rewrite Nat.add_0_r in Hf.
    destruct (accumulateFace_total g face f vn log Hf Hvalid Hlen)
      as [[vn1 log1] Hface].
    rewrite Hface. cbn [mbind option_bind].
    apply IH.
    + intros k face' Hk. replace (f + 1 + k) with (f + S k) by lia.
      by apply Hfs.
    + apply accumulateFace_lookup in Hface as [L1 _]. congruence.
Qed.



Lemma computeNormals_accumulates (g : Geometry) :
  (∀ face : Face, face ∈ faces g → validFace g face) →
  ∃ g' console, computeNormals asin g = Some (g', console)
    ∧ length (vertexNormals g') = length (vertices g)
    ∧ ∀ v, v < length (vertices g) →
        vertexNormals g' !! v
        = Some (vnormalize
                  (foldl vadd vzero (contributions asin g (faces g) 0 v))).
Proof.
  intros Hvalid. unfold computeNormals. cbv zeta.
  destruct (accumulateFaces_total g (faces g) 0
              (replicate (length (vertices g)) vzero) [])
    as [[vn console] Hacc].
  - intros k face Hk. split; [done|].
    apply Hvalid. by apply list_elem_of_lookup_2 in Hk.
  - by rewrite length_replicate.
  - eexists _, _. split; [by rewrite Hacc|].
    apply accumulateFaces_lookup in Hacc as [Hlen Hlook].
    rewrite length_replicate in Hlen.
    split.
    + cbn [vertexNormals set_vertexNormals]. by rewrite length_fmap.
    + intros v Hv. cbn [vertexNormals set_vertexNormals].
      rewrite list_lookup_fmap.
      rewrite (Hlook v vzero); [done|]. by apply lookup_replicate_2.
Qed.

End NormalProps.

(** ** normalize *)

Section Box.
Context {A : Arith}.

End Box.

(** ** Doubles *)

(** What the operations on doubles do to zeros, infinities and [NaN], from
    their specification. *)

Section Doubles.
Import Binary64.

Lemma sub_self (x : float) : zeroOrNaN (x - x)%float.
Proof.
  unfold zeroOrNaN. rewrite sub_spec.
  destruct (Prim2SF x) as [s|s| |s m e]; cbn; try done.
  - by destruct s.
  - by destruct s.
  - unfold SF64sub, SFsub. by rewrite Z.sub_diag.
Qed.



Lemma mul_zeroOrNaN_l x y : zeroOrNaN x → zeroOrNaN (x * y)%float.
Proof.
  unfold zeroOrNaN. rewrite mul_spec.
  destruct (Prim2SF x) as [sx|sx| |sx mx ex]; [|done| |done];
    by destruct (Prim2SF y).
Qed.



Lemma add_zeroOrNaN x y :
  zeroOrNaN x → zeroOrNaN y → zeroOrNaN (x + y)%float.
Proof.
  unfold zeroOrNaN. rewrite add_spec.
  destruct (Prim2SF x) as [sx|sx| |sx mx ex]; [|done| |done];
    destruct (Prim2SF y) as [sy|sy| |sy my ey]; try done.
  intros _ _. cbn. by destruct sx, sy.
Qed.

Lemma sqrt_zeroOrNaN x : zeroOrNaN x → zeroOrNaN (PrimFloat.sqrt x).
Proof.
  unfold zeroOrNaN. rewrite sqrt_spec.
  by destruct (Prim2SF x) as [sx|sx| |sx mx ex].
Qed.

Lemma div_zeroOrNaN x y : zeroOrNaN x → zeroOrNaN (x / y)%float.
Proof.
  unfold zeroOrNaN. rewrite div_spec.
  destruct (Prim2SF x) as [sx|sx| |sx mx ex]; [|done| |done];
    by destruct (Prim2SF y).
Qed.


Lemma zeroOrNaN_not_above x : zeroOrNaN x → (0 <? x)%float = false.
Proof.
  unfold zeroOrNaN. rewrite ltb_spec.
  change (Prim2SF 0) with (S754_zero false).
  by destruct (Prim2SF x) as [sx|sx| |sx mx ex].
Qed.

Lemma flatVector_vsub_self (v : Vector) : flatVector (vsub v v).
Proof. repeat split; apply sub_self. Qed.




Lemma flatVector_mag (v : Vector) :
  flatVector v → zeroOrNaN (magSq v) ∧ zeroOrNaN (mag (N := number) v).
Proof.
  intros (Hx & Hy & Hz).
  assert (zeroOrNaN (magSq v)) as Hsq
    by (repeat apply add_zeroOrNaN; by apply mul_zeroOrNaN_l).
  split; [done|]. by apply sqrt_zeroOrNaN.
Qed.

Lemma flatVector_vdiv (v : Vector) s : flatVector v → flatVector (vdiv v s).
Proof. intros (Hx & Hy & Hz). repeat split; by apply div_zeroOrNaN. Qed.

Lemma flatVector_vnormalize (v : Vector) :
  flatVector v → flatVector (vnormalize (N := number) v).
Proof.
  intros Hv. unfold vnormalize. cbv zeta.
  destruct (negb _); [by apply flatVector_vdiv | done].
Qed.

Section FaceNormals.
Variable asin : float → float.



End FaceNormals.

(** An edge between two equal positions. *)
Lemma zero_length_direction (A : Vector) :
  (magSq (vnormalize (N := number) (vsub A A)) >? lit_0)%J = false.
Proof.
  apply zeroOrNaN_not_above, flatVector_mag, flatVector_vnormalize,
    flatVector_vsub_self.
Qed.

(** *** A box without extent *)















End Doubles.

(** ** Runs on doubles *)

Section Witnesses.
Import Binary64 Examples.

Lemma single_edge_strokes_witness :
  ∃ g', _edgesToVertices (N := number) straight = Some g'
    ∧ length (lineSides g') = 18
    ∧ lineSides g'
      = [1; 1; -1; 1; -1; -1; -1; 2; -2; 1; 2; -1; -1; 2; -2; 1; 2; -1]%Z
    ∧ lineTangentsOut g'
      = concat (replicate 6 [1; 0; 0]%float)
          ++ concat (replicate 12 [0; 0; 0]%float).
Proof.
  destruct (single_edge_strokes (N := number) straight 0 1 (vec 0 0 0) (vec 1 0 0))
    as (g' & Hrun & Hlen & Hsides & _ & _ & Hout);
    [reflexivity | lia | reflexivity | reflexivity | reflexivity |].
  exists g'. split; [exact Hrun|]. split; [exact Hlen|].
  split; [exact Hsides | exact Hout].
Defined.

Lemma join_at_shared_vertex_witness :
  (∃ g', _edgesToVertices (N := number) rightAngle = Some g'
     ∧ lineSides g'
       = ([1; 1; -1; 1; -1; -1] ++ [1; 1; -1; 1; -1; -1]
            ++ [-1; -3; -2; -1; 0; -3; 3; 1; 2; 3; 0; 1]
            ++ [-1; 2; -2; 1; 2; -1] ++ [-1; 2; -2; 1; 2; -1])%Z)
  ∧ (∃ g', _edgesToVertices (N := number) collinear = Some g'
       ∧ lineSides g'
         = ([1; 1; -1; 1; -1; -1] ++ [1; 1; -1; 1; -1; -1]
              ++ [-1; 2; -2; 1; 2; -1] ++ [-1; 2; -2; 1; 2; -1])%Z).
Proof.
  split.
  - destruct (proj2 (proj2 (proj2 (join_at_shared_vertex (N := number))))
                rightAngle 0 1 2 (vec 0 0 0) (vec 1 0 0) (vec 1 1 0))
      as (g' & Hrun & Hsides & _);
      [reflexivity | lia | lia | lia | reflexivity | reflexivity
      | reflexivity | reflexivity | reflexivity |].
    exists g'. split; [exact Hrun | exact Hsides].
  - destruct (proj2 (proj2 (proj2 (join_at_shared_vertex (N := number))))
                collinear 0 1 2 (vec 0 0 0) (vec 1 0 0) (vec 2 0 0))
      as (g' & Hrun & Hsides & _);
      [reflexivity | lia | lia | lia | reflexivity | reflexivity
      | reflexivity | reflexivity | reflexivity |].
    exists g'. split; [exact Hrun | exact Hsides].
Defined.

(** C9, as the claim has it, fails: in the run over [[0, 1], [2, 2]] the
    first edge stores the direction [(1, 0, 0)], the second edge has zero
    length, and after it [lastValidDir] is [undefined]. *)
Lemma zero_length_edge_clears_lastValidDir :
  lastValidDir <$> edgeLoop (N := number) 1 0 (startPass strayPoint)
  = Some (Some (vec 1 0 0))
  ∧ (magSq (vnormalize (N := number) (vsub (vec 5 5 5) (vec 5 5 5)))
     >? lit_0)%J = false
  ∧ lastValidDir <$> edgeLoop (N := number) 2 0 (startPass strayPoint) = Some None.
Proof. split; [|split]; reflexivity. Qed.

Lemma lastValidDir_after_edge_witness :
  let st := mkPass (N := number) stalled [] ∅ (Some (vec 1 0 0)) in
  match edgeStep 1 st with
  | Some st' => lastValidDir st' = Some (vec 1 0 0)
  | None => False
  end.
Proof.
  intros st.
  destruct (edgeStep 1 st) as [st'|] eqn:Hstep.
  - destruct (lastValidDir_after_edge (N := number) 1 st st' (1, 1)
                (vec 1 0 0) (vec 1 0 0) eq_refl eq_refl eq_refl Hstep)
      as (_ & _ & Hprev).
    exact (proj1 (Hprev (0, 1) eq_refl ltac:(lia) eq_refl) eq_refl).
  - vm_compute in Hstep. discriminate Hstep.
Defined.

Lemma combinecallback_weighted_sum_witness :
  combinecallback (N := number) []
    [ Some [1; 2; 3; 4; 5; 6; 7; 8; 9; 10; 11; 12]%float;
      Some [1; 1; 1; 1; 1; 1; 1; 1; 1; 1; 1; 1]%float; None; None ]
    [0.25; 0.75; 0; 0]%float !! 1
  = Some (0 + 2 * 0.25 + 1 * 0.75)%float.
Proof.
  rewrite (proj1 (proj2 (proj2 (combinecallback_weighted_sum _ _ _)))
             1 ltac:(unfold tessyVertexSize; lia)).
  reflexivity.
Defined.

Lemma computeFaces_grid_witness :
  faces (computeFaces (newGeometry (A := arith) 2 2)) !! 6
  = Some (4, 5, 7)
  ∧ faces (computeFaces (newGeometry (A := arith) 2 2)) !! 7
    = Some (7, 5, 8).
Proof.
  exact (proj1 (proj2 (proj2 (computeFaces_grid
                                (newGeometry (A := arith) 2 2))))
           1 1 ltac:(cbn; lia) ltac:(cbn; lia)).
Defined.

Lemma empty_stroke_colors_give_transparent_black_witness :
  match _edgesToVertices (N := number) rightAngle with
  | Some g' => lineVertexColors g' = replicate (4 * 36) 0%float
  | None => False
  end.
Proof.
  destruct (empty_stroke_colors_give_transparent_black (N := number)
              rightAngle eq_refl) as (_ & Hreturns & Hcolors).
  destruct Hreturns as [g' Hrun].
  { repeat constructor; cbn; lia. }
  rewrite Hrun. destruct (Hcolors g' Hrun) as [Hzeros _].
  vm_compute in Hrun. injection Hrun as <-. exact Hzeros.
Defined.


(** On doubles the longest side can miss [200] by rounding even when the
    box is not flat: here it is [200.00000000000003]. *)
Lemma normalize_rounds_on_doubles :
  (λ box, longestSide (vsub box.1 box.2))
    <$> boxOf (vertices (normalize slanted))
  = Some 200.00000000000003%float.
Proof. reflexivity. Qed.

(** C1, as the claim has it, fails: the three vertices of [minute] lie on
    the x axis, the directions computed for its two edges are the same
    double for double, and still the middle vertex gets the join.  The
    squared length of an edge is too small for a normal double, so the
    direction comes out with length [0.99499...] and its dot product with
    itself, [0.99001...], is below [1 - 1e-8]. *)
Lemma collinear_points_can_get_a_join :
  let A := vec 0 0 0 in
  let B := vec 1.5e-161 0 0 in
  let C := vec 3e-161 0 0 in
  let d1 := vnormalize (N := number) (vsub B A) in
  let d2 := vnormalize (N := number) (vsub C B) in
  d1 = d2
  ∧ d1 = vec 0.99499297565954969 0 0
  ∧ (dot d2 d1 <? lit_1 - lit_1e_8)%J = true
  ∧ lineSides <$> _edgesToVertices (N := number) minute
    = Some ([1; 1; -1; 1; -1; -1] ++ [1; 1; -1; 1; -1; -1]
              ++ [-1; -3; -2; -1; 0; -3; 3; 1; 2; 3; 0; 1]
              ++ [-1; 2; -2; 1; 2; -1] ++ [-1; 2; -2; 1; 2; -1])%Z.
Proof. repeat split; reflexivity. Qed.

(** C2, as the claim has it, fails: the two ends of [hairline] and of
    [beam] are different positions, but the squared length of the edge
    underflows to [0] in the one and overflows in the other, the computed
    direction has squared length [0], and the pass leaves one cap and no
    segment: 6 stroke vertices. *)
Lemma distinct_endpoints_can_give_one_cap :
  (0 <? 1e-200)%float = true
  ∧ lineSides <$> _edgesToVertices (N := number) hairline
    = Some [-1; 2; -2; 1; 2; -1]%Z
  ∧ (0 <? 1e200)%float = true
  ∧ lineSides <$> _edgesToVertices (N := number) beam
    = Some [-1; 2; -2; 1; 2; -1]%Z.
Proof. repeat split; reflexivity. Qed.



(** Two vertices [1e16] and [1e16 + 2]: the centre rounds to the first of
    them, and the box after [normalize] reaches from [0] to [200]. *)
Lemma normalize_far_from_the_origin :
  boxOf (vertices (normalize remote)) = Some (vec 200 0 0, vec 0 0 0).
Proof. reflexivity. Qed.


End Witnesses.

(** * Further properties *)

(** ** Edges from faces *)

Section TriangleEdges.
Context {N : JSNumber}.
Variable asin : num → num.

Lemma makeTriangleEdges_loop_app (fs : list Face) : ∀ es,
  makeTriangleEdges_loop fs es = es ++ flat_map faceEdges fs.
Proof.
  induction fs as [|face fs IH]; intros es; cbn [makeTriangleEdges_loop].
  - by rewrite app_nil_r.
  - rewrite IH, <- !app_assoc. done.
Qed.

Lemma edges_makeTriangleEdges (g : Geometry) :
  edges (_makeTriangleEdges g) = flat_map faceEdges (faces g).
Proof.
  unfold _makeTriangleEdges. cbn [edges set_edges].
  by rewrite makeTriangleEdges_loop_app.
Qed.

(** X1.  [_makeTriangleEdges] leaves three edges for every face and no
    others: face [j] = [[a, b, c]] gives the edges [[a, b]], [[b, c]] and
    [[c, a]] at positions [3j], [3j + 1] and [3j + 2], a closed walk around
    the triangle.  The edges stored before the call do not matter, and the
    faces and the vertices stay as they are. *)
Theorem makeTriangleEdges_outlines_faces (g : Geometry) :
  length (edges (_makeTriangleEdges g)) = 3 * length (faces g)
  ∧ (∀ j a b c, faces g !! j = Some (a, b, c) →
       edges (_makeTriangleEdges g) !! (3 * j) = Some (a, b)
       ∧ edges (_makeTriangleEdges g) !! (3 * j + 1) = Some (b, c)
       ∧ edges (_makeTriangleEdges g) !! (3 * j + 2) = Some (c, a))
  ∧ (∀ es, edges (_makeTriangleEdges (set_edges g es))
           = edges (_makeTriangleEdges g))
  ∧ faces (_makeTriangleEdges g) = faces g
  ∧ vertices (_makeTriangleEdges g) = vertices g.
Proof.
  split; [|split; [|split; [|split]]]; [| | |done|done].
  - rewrite edges_makeTriangleEdges.
    rewrite (length_flat_map_block _ 3); [lia | done].
  - intros j a b c Hj. rewrite edges_makeTriangleEdges.
    pose proof (lookup_flat_map_block faceEdges 3 (faces g)
                  (λ _, eq_refl) j) as Hl.
    rewrite (Nat.mul_comm 3 j).
    split; [|split].
    + rewrite <- (Nat.add_0_r (j * 3)). by rewrite (Hl 0 _ Hj) by lia.
    + by rewrite (Hl 1 _ Hj) by lia.
    + by rewrite (Hl 2 _ Hj) by lia.
  - intros es. by rewrite !edges_makeTriangleEdges.
Qed.

Lemma validEdge_makeTriangleEdges (g : Geometry) :
  (∀ face : Face, face ∈ faces g → validFace g face) →
  Forall (validEdge (_makeTriangleEdges g)) (edges (_makeTriangleEdges g)).
Proof.
  intros Hvalid. rewrite edges_makeTriangleEdges.
  apply Forall_forall. intros edge Hin.
  apply list_elem_of_In, in_flat_map in Hin as (face & Hface & Hedge).
  apply list_elem_of_In, Hvalid in Hface as (Ha & Hb & Hc).
  unfold faceEdges in Hedge. cbn [In] in Hedge.
  unfold validEdge. cbn [vertices _makeTriangleEdges set_edges].
  destruct Hedge as [<-|[<-|[<-|[]]]]; cbn [fst snd]; done.
Qed.

Lemma validFace_computeFaces (g : Geometry) :
  (detailX g + 1) * (detailY g + 1) ≤ length (vertices g) →
  ∀ face : Face, face ∈ faces (computeFaces g) →
  validFace (computeFaces g) face.
Proof.
  intros Hgrid face Hin.
  apply elem_of_computeFaces in Hin as (i & j & Hi & Hj & Hc).
  unfold cellFaces in Hc. rewrite !elem_of_cons in Hc.
  unfold validFace. cbn [vertices computeFaces set_faces].
  destruct Hc as [->|[->|Hc]]; [| |by apply elem_of_nil in Hc];
    cbn [fst snd]; nia.
Qed.

(** X2.  On a geometry that holds the [(detailX + 1) * (detailY + 1)]
    vertices of its grid, [computeFaces] followed by [_makeTriangleEdges]
    leaves [6 * detailX * detailY] edges, every one between vertices that
    exist; [_edgesToVertices] then returns, and so does [computeNormals]
    on the faces. *)
Theorem grid_outline_and_normals_return (g : Geometry) :
  (detailX g + 1) * (detailY g + 1) ≤ length (vertices g) →
  let grid := computeFaces g in
  let outlined := _makeTriangleEdges grid in
  length (edges outlined) = 6 * detailX g * detailY g
  ∧ Forall (validEdge outlined) (edges outlined)
  ∧ is_Some (_edgesToVertices outlined)
  ∧ is_Some (computeNormals asin grid).
Proof.
  intros Hgrid grid outlined.
  pose proof (validFace_computeFaces g Hgrid) as Hfaces.
  pose proof (validEdge_makeTriangleEdges grid Hfaces) as Hedges.
  split; [|split; [|split]].
  - subst outlined grid. rewrite edges_makeTriangleEdges.
    rewrite (length_flat_map_block _ 3) by done.
    rewrite faces_computeFaces.
    rewrite (length_flat_map_block _ (detailX g * 2)
               _ (length_rowFaces _ _)), length_seq. lia.
  - exact Hedges.
  - by apply edgesToVertices_returns.
  - destruct (computeNormals_accumulates asin grid Hfaces)
      as (g' & console & -> & _). by eexists.
Qed.

(** X3.  The outline of a grid holds the diagonal of every cell twice,
    once in each direction: cell [(i, j)], whose faces are [[a, b, d]] and
    [[d, b, c]], gives the edge [[b, d]] as the second edge of its first
    face and the edge [[d, b]] as the first edge of its second face. *)
Theorem grid_outline_draws_each_diagonal_twice (g : Geometry) i j :
  i < detailY g → j < detailX g →
  let stride := detailX g + 1 in
  let b := i * stride + j + 1 in
  let d := (i + 1) * stride + j in
  let cell := 2 * (i * detailX g + j) in
  let outline := edges (_makeTriangleEdges (computeFaces g)) in
  outline !! (3 * cell + 1) = Some (b, d)
  ∧ outline !! (3 * (cell + 1)) = Some (d, b).
Proof.
  intros Hi Hj stride b d cell outline. subst outline.
  rewrite edges_makeTriangleEdges.
  pose proof (lookup_cell g i j 0 Hi Hj ltac:(lia)) as H0.
  pose proof (lookup_cell g i j 1 Hi Hj ltac:(lia)) as H1.
  fold cell in H0, H1. rewrite Nat.add_0_r in H0.
  cbn [cellFaces lookup list_lookup] in H0, H1.
  pose proof (lookup_flat_map_block faceEdges 3 (faces (computeFaces g))
                (λ _, eq_refl)) as Hl.
  split.
  - rewrite (Nat.mul_comm 3 cell). by rewrite (Hl cell 1 _ H0) by lia.
  - rewrite (Nat.mul_comm 3 (cell + 1)), <- (Nat.add_0_r ((cell + 1) * 3)).
    by rewrite (Hl (cell + 1) 0 _ H1) by lia.
Qed.

End TriangleEdges.

(** ** The pass over the edges, whatever the edges *)

(** A property [P] of the geometry that the three emitting methods keep,
    for colours that satisfy [C], is kept by the whole pass. *)
Section PassInvariant.
Context {N : JSNumber}.
Variable C : list num → Prop.
Variable P : Geometry → Prop.
Hypothesis P_colour : ∀ (g : Geometry) v,
  P g → is_Some (vertices g !! v) → C (strokeColorOf g v).
Hypothesis P_addSegment : ∀ begin end_ fromColor toColor dir (g : Geometry),
  C fromColor → C toColor → P g →
  P (_addSegment begin end_ fromColor toColor dir g).
Hypothesis P_addJoin : ∀ point fromTangent toTangent color (g : Geometry),
  C color → P g → P (_addJoin point fromTangent toTangent color g).
Hypothesis P_addCap : ∀ point tangent color (g : Geometry),
  C color → P g → P (_addCap point tangent color g).

Lemma capsKeep_set k cap (caps : CapMap) :
  Forall (λ entry, C (capColor entry.2)) caps → C (capColor cap) →
  Forall (λ entry, C (capColor entry.2)) (Map_set k cap caps).
Proof.
  intros Hcaps Hcap.
  induction Hcaps as [|[k' cap'] caps Hhead Htail IH]; cbn [Map_set].
  - by repeat constructor.
  - destruct (Nat.eqb k' k); by constructor.
Qed.

Lemma capsKeep_delete k (caps : CapMap) :
  Forall (λ entry, C (capColor entry.2)) caps →
  Forall (λ entry, C (capColor entry.2)) (Map_delete k caps).
Proof.
  induction 1 as [|[k' cap'] caps Hhead Htail IH]; cbn [Map_delete].
  - constructor.
  - destruct (Nat.eqb k' k); [done | by constructor].
Qed.

Lemma passKeeps_continueLine currEdge begin dir dirOK fromColor st :
  C fromColor → passKeeps C P st →
  passKeeps C P (continueLine currEdge begin dir dirOK fromColor st).
Proof.
  intros Hcolor [Hgeom Hcaps]. unfold continueLine.
  destruct (bool_decide (currEdge.1 ∈ connected st)); [done|].
  pose proof (capsKeep_delete currEdge.1 _ Hcaps) as Hdel.
  destruct (lastValidDir st) as [lvd|]; [|done].
  destruct (dirOK && (dot dir lvd <? lit_1 - lit_1e_8)%J)%bool; [|done].
  split; [by apply P_addJoin | done].
Qed.

Lemma passKeeps_openLine currEdge begin dir dirOK fromColor st :
  C fromColor → passKeeps C P st →
  passKeeps C P (openLine currEdge begin dir dirOK fromColor st).
Proof.
  intros Hcolor [Hgeom Hcaps]. unfold openLine.
  destruct (dirOK && negb (bool_decide (currEdge.1 ∈ connected st)))%bool;
    [|done].
  destruct (Map_get currEdge.1 (potentialCaps st)).
  - split; [by apply P_addJoin | by apply capsKeep_delete].
  - split; [done | by apply capsKeep_set].
Qed.

Lemma passKeeps_closeLine prevEdge fromColor st st' :
  C fromColor → passKeeps C P st →
  closeLine prevEdge fromColor st = Some st' → passKeeps C P st'.
Proof.
  intros Hcolor [Hgeom Hcaps]. unfold closeLine.
  destruct (lastValidDir st) as [lvd|]; [|by intros [= <-]].
  destruct prevEdge as [prev|]; [|done]. cbn [mbind option_bind].
  destruct (bool_decide (prev.2 ∈ connected st)); [by intros [= <-]|].
  destruct (vertices (geom st) !! prev.2) as [pt|]; [|done].
  cbn [mbind option_bind].
  destruct (Map_get prev.2 (potentialCaps st)); intros [= <-].
  - split; [by apply P_addJoin | by apply capsKeep_delete].
  - split; [done | by apply capsKeep_set].
Qed.

Lemma passKeeps_endLastEdge i currEdge end_ dir toColor st :
  C toColor → passKeeps C P st →
  passKeeps C P (endLastEdge i currEdge end_ dir toColor st).
Proof.
  intros Hcolor [Hgeom Hcaps]. unfold endLastEdge.
  destruct (Nat.eqb i (length (edges (geom st)) - 1)
            && negb (bool_decide (currEdge.2 ∈ connected st)))%bool;
    [|done].
  destruct (Map_get currEdge.2 (potentialCaps st)).
  - split; [by apply P_addJoin | by apply capsKeep_delete].
  - split; [done | by apply capsKeep_set].
Qed.

Lemma passKeeps_edgeStep i st st' :
  passKeeps C P st → edgeStep i st = Some st' → passKeeps C P st'.
Proof.
  intros Hst. unfold edgeStep.
  destruct (edges (geom st) !! i) as [currEdge|]; [|done].
  cbn [mbind option_bind].
  destruct (vertices (geom st) !! currEdge.1) as [begin|] eqn:Hb; [|done].
  cbn [mbind option_bind].
  destruct (vertices (geom st) !! currEdge.2) as [end_|] eqn:He; [|done].
  cbn [mbind option_bind].
  assert (C (strokeColorOf (geom st) currEdge.1)) as Hfrom
    by (apply P_colour; [apply Hst | by rewrite Hb]).
  assert (C (strokeColorOf (geom st) currEdge.2)) as Hto
    by (apply P_colour; [apply Hst | by rewrite He]).
  set (fromColor := strokeColorOf (geom st) currEdge.1) in *.
  set (toColor := strokeColorOf (geom st) currEdge.2) in *.
  set (dir := vnormalize (vsub end_ begin)).
  set (st1 := if (magSq dir >? lit_0)%J then _ else st).
  assert (passKeeps C P st1) as Hst1.
  { subst st1. destruct (magSq dir >? lit_0)%J; [|done].
    destruct Hst as [Hgeom Hcaps].
    split; [by apply P_addSegment | done]. }
  match goal with
  | |- (?m ≫= _) = _ → _ => destruct m as [st2|] eqn:Hst2; [|done]
  end.
  assert (passKeeps C P st2) as Hinv2.
  { revert Hst2.
    match goal with
    | |- (if ?c then _ else _) = _ → _ => destruct c
    end.
    - intros [= <-]. by apply passKeeps_continueLine.
    - apply passKeeps_closeLine; [done|].
      by apply passKeeps_openLine. }
  cbn [mbind option_bind].
  pose proof (passKeeps_endLastEdge i currEdge end_ dir toColor st2
                Hto Hinv2) as Hinv3.
  destruct (magSq dir >? lit_0)%J; intros [= <-]; [|done].
  exact Hinv3.
Qed.

Lemma passKeeps_edgeLoop k : ∀ i st st',
  passKeeps C P st → edgeLoop k i st = Some st' → passKeeps C P st'.
Proof.
  induction k as [|k IH]; intros i st st' Hst; cbn [edgeLoop].
  - by intros [= <-].
  - destruct (edgeStep i st) as [st1|] eqn:Hstep; [|done].
    cbn [mbind option_bind].
    apply IH. by apply (passKeeps_edgeStep i st).
Qed.

Lemma keeps_addCaps caps : ∀ g : Geometry,
  P g → Forall (λ cap, C (capColor cap)) caps → P (addCaps caps g).
Proof.
  induction caps as [|cap caps IH]; intros g Hg Hcaps; [done|].
  inversion Hcaps as [|? ? Hcap Hrest]; subst. cbn [addCaps foldl].
  apply IH; [|done]. by apply P_addCap.
Qed.

Lemma edgesToVertices_keeps (g g' : Geometry) :
  P (clear_lines g) → _edgesToVertices g = Some g' → P g'.
Proof.
  intros Hstart. unfold _edgesToVertices.
  destruct (edgeLoop (length (edges g)) 0 (startPass g)) as [st|]
    eqn:Hloop; [|done].
  cbn [mbind option_bind]. intros [= <-].
  assert (passKeeps C P (startPass g)) as Hkeeps
    by (split; [exact Hstart | constructor]).
  destruct (passKeeps_edgeLoop _ _ _ _ Hkeeps Hloop) as [Hgeom Hcaps].
  apply keeps_addCaps; [done|].
  unfold Map_values. by apply Forall_fmap.
Qed.

End PassInvariant.

Section StrokeFrames.
Context {N : JSNumber}.

Lemma fillData_edgesToVertices (g g' : Geometry) :
  _edgesToVertices g = Some g' → fillData g' = fillData g.
Proof.
  apply (edgesToVertices_keeps (λ _, True) (λ h, fillData h = fillData g));
    done.
Qed.

(** X4.  A pass that returns has written the five stroke buffers and
    nothing else: the vertices, normals, faces, uvs, edges, fill colours,
    stroke colours per vertex, the two detail counts and the dirty flags
    of the geometry are what they were. *)
Theorem edgesToVertices_writes_stroke_buffers_only (g g' : Geometry) :
  _edgesToVertices g = Some g' →
  vertices g' = vertices g ∧ vertexNormals g' = vertexNormals g
  ∧ faces g' = faces g ∧ uvs g' = uvs g ∧ edges g' = edges g
  ∧ vertexColors g' = vertexColors g
  ∧ vertexStrokeColors g' = vertexStrokeColors g
  ∧ detailX g' = detailX g ∧ detailY g' = detailY g
  ∧ dirtyFlags g' = dirtyFlags g.
Proof.
  intros Hrun. apply fillData_edgesToVertices in Hrun.
  unfold fillData in Hrun. by simplify_eq.
Qed.

Lemma strokesAligned_push (g g' : Geometry) n :
  strokesAligned g →
  length (lineVertices g') = length (lineVertices g) + 3 * (6 * n) →
  length (lineTangentsIn g') = length (lineTangentsIn g) + 3 * (6 * n) →
  length (lineTangentsOut g') = length (lineTangentsOut g) + 3 * (6 * n) →
  length (lineSides g') = length (lineSides g) + 6 * n →
  strokesAligned g'.
Proof.
  intros (Hv & Hi & Ho & k & Hk) Hv' Hi' Ho' Hs'.
  split; [lia|]. split; [lia|]. split; [lia|].
  exists (k + n). lia.
Qed.

(** X5.  After a pass that returns, whatever the edges were, the stroke
    buffers are in step: three coordinates, three tangent-in entries and
    three tangent-out entries for every side code, and the number of
    stroke vertices is a multiple of 6, whole pairs of triangles. *)
Theorem edgesToVertices_buffers_aligned (g g' : Geometry) :
  _edgesToVertices g = Some g' →
  length (lineVertices g') = 3 * length (lineSides g')
  ∧ length (lineTangentsIn g') = 3 * length (lineSides g')
  ∧ length (lineTangentsOut g') = 3 * length (lineSides g')
  ∧ (6 | length (lineSides g')).
Proof.
  apply (edgesToVertices_keeps (λ _, True) strokesAligned).
  - done.
  - intros begin end_ fromColor toColor dir h _ _ Hh.
    apply (strokesAligned_push h _ 1 Hh); autorewrite with buffers;
      rewrite length_app; cbn [length array concat replicate app]; lia.
  - intros point fromTangent toTangent color h _ Hh.
    apply (strokesAligned_push h _ 2 Hh); autorewrite with buffers;
      rewrite length_app; cbn [length array concat replicate app]; lia.
  - intros point tangent color h _ Hh.
    apply (strokesAligned_push h _ 1 Hh); autorewrite with buffers;
      rewrite length_app; cbn [length array concat replicate app]; lia.
  - split; [done|]. split; [done|]. split; [done|]. by exists 0.
Qed.

(** X6.  When [vertexStrokeColors] is empty or holds four entries for
    every vertex, a pass that returns has appended four colour entries for
    every stroke vertex it emitted: [lineVertexColors] has grown by four
    times the number of side codes. *)
Theorem edgesToVertices_colours_aligned (g g' : Geometry) :
  vertexStrokeColors g = []
  ∨ 4 * length (vertices g) ≤ length (vertexStrokeColors g) →
  _edgesToVertices g = Some g' →
  length (lineVertexColors g')
  = length (lineVertexColors g) + 4 * length (lineSides g').
Proof.
  intros Hcolours.
  apply (edgesToVertices_keeps (λ c, length c = 4)
           (λ h, vertexStrokeColors h = vertexStrokeColors g
                 ∧ vertices h = vertices g
                 ∧ length (lineVertexColors h)
                   = length (lineVertexColors g)
                     + 4 * length (lineSides h))).
  - intros h v (Hvsc & Hvs & _) Hv. unfold strokeColorOf. rewrite Hvsc.
    destruct (Nat.ltb 0 (length (vertexStrokeColors g))) eqn:Hany; [|done].
    apply Nat.ltb_lt in Hany.
    destruct Hcolours as [Hnone|Hfour];
      [rewrite Hnone in Hany; cbn in Hany; lia|].
    apply lookup_lt_is_Some_1 in Hv. rewrite Hvs in Hv.
    unfold slice. rewrite length_take, length_drop. lia.
  - intros begin end_ fromColor toColor dir h Hfrom Hto (Hvsc & Hvs & Hlen).
    autorewrite with buffers. split; [done|]. split; [done|].
    rewrite !length_app, Hfrom, Hto, Hlen. cbn [length]. lia.
  - intros point fromTangent toTangent color h Hcolor (Hvsc & Hvs & Hlen).
    autorewrite with buffers. split; [done|]. split; [done|].
    rewrite !length_app, Hlen. cbn [replicate concat].
    rewrite !length_app, Hcolor. cbn [length]. lia.
  - intros point tangent color h Hcolor (Hvsc & Hvs & Hlen).
    autorewrite with buffers. split; [done|]. split; [done|].
    rewrite !length_app, Hlen. cbn [replicate concat].
    rewrite !length_app, Hcolor. cbn [length]. lia.
  - autorewrite with buffers. split; [done|]. split; [done|].
    cbn [length]. lia.
Qed.

End StrokeFrames.

Section Rerun.
Context {N : JSNumber}.

Lemma push_lineVertexColors_prepend p (g : Geometry) xs :
  push_lineVertexColors (prependColors p g) xs
  = prependColors p (push_lineVertexColors g xs).
Proof.
  unfold push_lineVertexColors, prependColors.
  cbn [vertices lineVertices lineTangentsIn lineTangentsOut lineSides
       vertexNormals faces uvs edges vertexColors vertexStrokeColors
       lineVertexColors detailX detailY dirtyFlags].
  by rewrite app_assoc.
Qed.

Lemma iter_prepend p (F : Geometry → Geometry) n :
  (∀ g, F (prependColors p g) = prependColors p (F g)) →
  ∀ g, Nat.iter n F (prependColors p g) = prependColors p (Nat.iter n F g).
Proof.
  intros HF g. induction n as [|n IH]; [done|].
  rewrite !Nat.iter_succ. by rewrite IH, HF.
Qed.

Lemma addSegment_prepend p begin end_ fromColor toColor dir (g : Geometry) :
  _addSegment begin end_ fromColor toColor dir (prependColors p g)
  = prependColors p (_addSegment begin end_ fromColor toColor dir g).
Proof.
  unfold _addSegment. cbv zeta.
  rewrite <- push_lineVertexColors_prepend. reflexivity.
Qed.

Lemma addCap_prepend p point tangent color (g : Geometry) :
  _addCap point tangent color (prependColors p g)
  = prependColors p (_addCap point tangent color g).
Proof.
  unfold _addCap. cbv zeta.
  rewrite (iter_prepend p _ 6); [reflexivity|].
  intros h. by rewrite <- push_lineVertexColors_prepend.
Qed.

Lemma addJoin_prepend p point fromTangent toTangent color (g : Geometry) :
  _addJoin point fromTangent toTangent color (prependColors p g)
  = prependColors p (_addJoin point fromTangent toTangent color g).
Proof.
  unfold _addJoin. cbv zeta.
  rewrite (iter_prepend p _ 12); [reflexivity|].
  intros h. by rewrite <- push_lineVertexColors_prepend.
Qed.

Lemma continueLine_prepend p currEdge begin dir dirOK fromColor st :
  continueLine currEdge begin dir dirOK fromColor (prependPass p st)
  = prependPass p (continueLine currEdge begin dir dirOK fromColor st).
Proof.
  unfold continueLine.
  cbn [prependPass geom potentialCaps connected lastValidDir].
  destruct (bool_decide (currEdge.1 ∈ connected st)); [done|].
  destruct (lastValidDir st) as [lvd|]; [|done].
  destruct (dirOK && (dot dir lvd <? lit_1 - lit_1e_8)%J)%bool; [|done].
  by rewrite addJoin_prepend.
Qed.

Lemma openLine_prepend p currEdge begin dir dirOK fromColor st :
  openLine currEdge begin dir dirOK fromColor (prependPass p st)
  = prependPass p (openLine currEdge begin dir dirOK fromColor st).
Proof.
  unfold openLine.
  cbn [prependPass geom potentialCaps connected lastValidDir].
  destruct (dirOK && negb (bool_decide (currEdge.1 ∈ connected st)))%bool;
    [|done].
  destruct (Map_get currEdge.1 (potentialCaps st)); [|done].
  by rewrite addJoin_prepend.
Qed.

Lemma closeLine_prepend p prevEdge fromColor st :
  closeLine prevEdge fromColor (prependPass p st)
  = prependPass p <$> closeLine prevEdge fromColor st.
Proof.
  unfold closeLine.
  cbn [prependPass geom potentialCaps connected lastValidDir].
  destruct (lastValidDir st) as [lvd|] eqn:Hlvd; [|done].
  destruct prevEdge as [prev|]; [|done]. cbn [mbind option_bind].
  destruct (bool_decide (prev.2 ∈ connected st)).
  { cbn [fmap option_fmap option_map]. unfold prependPass. by rewrite Hlvd. }
  change (vertices (prependColors p (geom st))) with (vertices (geom st)).
  destruct (vertices (geom st) !! prev.2) as [pt|]; [|done].
  cbn [mbind option_bind].
  destruct (Map_get prev.2 (potentialCaps st));
    cbn [fmap option_fmap option_map]; [|done].
  by rewrite addJoin_prepend.
Qed.

Lemma endLastEdge_prepend p i currEdge end_ dir toColor st :
  endLastEdge i currEdge end_ dir toColor (prependPass p st)
  = prependPass p (endLastEdge i currEdge end_ dir toColor st).
Proof.
  unfold endLastEdge.
  cbn [prependPass geom potentialCaps connected lastValidDir].
  change (edges (prependColors p (geom st))) with (edges (geom st)).
  destruct (Nat.eqb i (length (edges (geom st)) - 1)
            && negb (bool_decide (currEdge.2 ∈ connected st)))%bool;
    [|done].
  destruct (Map_get currEdge.2 (potentialCaps st)); [|done].
  by rewrite addJoin_prepend.
Qed.

Lemma edgeStep_prepend p i st :
  edgeStep i (prependPass p st) = prependPass p <$> edgeStep i st.
Proof.
  unfold edgeStep.
  change (geom (prependPass p st)) with (prependColors p (geom st)).
  change (edges (prependColors p (geom st))) with (edges (geom st)).
  change (vertices (prependColors p (geom st))) with (vertices (geom st)).
  change (strokeColorOf (prependColors p (geom st)))
    with (strokeColorOf (geom st)).
  destruct (edges (geom st) !! i) as [currEdge|]; [|done].
  cbn [mbind option_bind].
  destruct (vertices (geom st) !! currEdge.1) as [begin|]; [|done].
  cbn [mbind option_bind].
  destruct (vertices (geom st) !! currEdge.2) as [end_|]; [|done].
  cbn [mbind option_bind].
  set (fromColor := strokeColorOf (geom st) currEdge.1).
  set (toColor := strokeColorOf (geom st) currEdge.2).
  set (dir := vnormalize (vsub end_ begin)).
  set (dirOK := (magSq dir >? lit_0)%J).
  set (st1 := if dirOK then mkPass _ (potentialCaps st) _ _ else st).
  set (st1' := if dirOK then mkPass _ (potentialCaps (prependPass p st)) _ _
               else prependPass p st).
  assert (st1' = prependPass p st1) as ->.
  { subst st1 st1'. destruct dirOK; [|done].
    cbn [prependPass geom potentialCaps connected lastValidDir].
    by rewrite addSegment_prepend. }
  match goal with
  | |- context [if ?c then Some _ else _] => destruct c
  end.
  - cbn [mbind option_bind].
    rewrite continueLine_prepend, endLastEdge_prepend.
    cbn [fmap option_fmap option_map]. by destruct dirOK.
  - rewrite openLine_prepend, closeLine_prepend.
    destruct (closeLine _ fromColor _) as [st2|]; [|done].
    cbn [fmap option_fmap option_map mbind option_bind].
    rewrite endLastEdge_prepend. by destruct dirOK.
Qed.

Lemma edgeLoop_prepend p k : ∀ i st,
  edgeLoop k i (prependPass p st) = prependPass p <$> edgeLoop k i st.
Proof.
  induction k as [|k IH]; intros i st; [done|].
  cbn [edgeLoop]. rewrite edgeStep_prepend.
  destruct (edgeStep i st) as [st'|]; [|done].
  cbn [fmap option_fmap option_map mbind option_bind]. apply IH.
Qed.

Lemma addCaps_prepend p caps : ∀ g : Geometry,
  addCaps caps (prependColors p g) = prependColors p (addCaps caps g).
Proof.
  induction caps as [|cap caps IH]; intros g; [done|].
  cbn [addCaps foldl]. rewrite addCap_prepend. apply IH.
Qed.

Lemma edgesToVertices_prepend p (g : Geometry) :
  _edgesToVertices (prependColors p g)
  = prependColors p <$> _edgesToVertices g.
Proof.
  unfold _edgesToVertices.
  change (startPass (prependColors p g)) with (prependPass p (startPass g)).
  change (edges (prependColors p g)) with (edges g).
  rewrite edgeLoop_prepend.
  destruct (edgeLoop (length (edges g)) 0 (startPass g)) as [st|]; [|done].
  cbn [fmap option_fmap option_map mbind option_bind].
  by rewrite <- addCaps_prepend.
Qed.

Lemma edgesToVertices_clear_lines (g : Geometry) :
  _edgesToVertices (clear_lines g) = _edgesToVertices g.
Proof. reflexivity. Qed.

(** X7.  [_edgesToVertices] empties four of the stroke buffers before it
    starts and leaves [lineVertexColors] as it is.  So a second pass over
    the outcome of a first one returns as well, builds the same
    coordinates, tangents and side codes again, and appends the same
    colours a second time: the colour buffer then holds them twice. *)
Theorem edgesToVertices_again_appends_colours_again (g g' : Geometry) :
  _edgesToVertices g = Some g' →
  ∃ g'' colours, _edgesToVertices g' = Some g''
    ∧ lineVertices g'' = lineVertices g'
    ∧ lineTangentsIn g'' = lineTangentsIn g'
    ∧ lineTangentsOut g'' = lineTangentsOut g'
    ∧ lineSides g'' = lineSides g'
    ∧ lineVertexColors g' = lineVertexColors g ++ colours
    ∧ lineVertexColors g'' = lineVertexColors g' ++ colours.
Proof.
  intros Hrun.
  assert (g = prependColors (lineVertexColors g) (withoutColors g)) as Hg.
  { destruct g as [v lv lti lto ls vn fs us es vc vsc lvc dx dy df].
    unfold prependColors, withoutColors.
    cbn [vertices lineVertices lineTangentsIn lineTangentsOut lineSides
         vertexNormals faces uvs edges vertexColors vertexStrokeColors
         lineVertexColors detailX detailY dirtyFlags].
    by rewrite app_nil_r. }
  rewrite Hg, edgesToVertices_prepend in Hrun.
  destruct (_edgesToVertices (withoutColors g)) as [h|] eqn:Hh; [|done].
  cbn [fmap option_fmap option_map] in Hrun. injection Hrun as <-.
  pose proof (fillData_edgesToVertices _ _ Hh) as Hframe.
  unfold fillData in Hframe.
  injection Hframe as F1 F2 F3 F4 F5 F6 F7 F8 F9 F10.
  assert (clear_lines h
          = prependColors (lineVertexColors h)
              (clear_lines (withoutColors g))) as Hclear.
  { unfold clear_lines, prependColors.
    cbn [vertices lineVertices lineTangentsIn lineTangentsOut lineSides
         vertexNormals faces uvs edges vertexColors vertexStrokeColors
         lineVertexColors detailX detailY dirtyFlags withoutColors].
    rewrite app_nil_r.
    cbn [vertices vertexNormals faces uvs edges vertexColors
         vertexStrokeColors detailX detailY dirtyFlags withoutColors]
      in F1, F2, F3, F4, F5, F6, F7, F8, F9, F10.
    by rewrite F1, F2, F3, F4, F5, F6, F7, F8, F9, F10. }
  assert (_edgesToVertices h = Some (prependColors (lineVertexColors h) h))
    as Hagain.
  { rewrite <- edgesToVertices_clear_lines, Hclear, edgesToVertices_prepend.
    rewrite edgesToVertices_clear_lines, Hh. done. }
  exists (prependColors (lineVertexColors g)
            (prependColors (lineVertexColors h) h)), (lineVertexColors h).
  split.
  { rewrite edgesToVertices_prepend, Hagain. done. }
  split; [done|]. split; [done|]. split; [done|]. split; [done|].
  split; [done|].
  cbn [lineVertexColors prependColors]. by rewrite app_assoc.
Qed.

End Rerun.

(** ** Particular edge lists *)

Section Loops.
Context {N : JSNumber}.

Ltac mem_decide :=
  repeat match goal with
  | |- context [bool_decide (?x ∈ ?s)] =>
      first [ rewrite (bool_decide_eq_false_2 (x ∈ s)) by set_solver
            | rewrite (bool_decide_eq_true_2 (x ∈ s)) by set_solver ]
  end.

(** X8.  An only edge whose computed direction has squared length [0]
    (an edge from a vertex to itself, say) gives no segment, and still one
    cap: 6 stroke vertices at the end vertex of the edge, with the computed
    direction as tangent-in, the zero vector as tangent-out and the colour
    of the end vertex. *)
Theorem degenerate_edge_gets_one_cap (g : Geometry) a b A B :
  edges g = [(a, b)] →
  vertices g !! a = Some A → vertices g !! b = Some B →
  let dir := vnormalize (vsub B A) in
  (magSq dir >? lit_0)%J = false →
  ∃ g', _edgesToVertices g = Some g'
    ∧ lineSides g' = [-1; 2; -2; 1; 2; -1]%Z
    ∧ lineVertices g' = concat (replicate 6 (array B))
    ∧ lineTangentsIn g' = concat (replicate 6 (array dir))
    ∧ lineTangentsOut g' = concat (replicate 6 (array vzero))
    ∧ lineVertexColors g'
      = lineVertexColors g ++ concat (replicate 6 (strokeColorOf g b)).
Proof.
  intros He HA HB dir Hok.
  assert (edgeStep 0 (startPass g)
          = Some (mkPass (clear_lines g)
                    [(b, mkCap B dir (strokeColorOf g b))] ∅ None))
    as Hstep.
  { unfold edgeStep. simpl. rewrite He. simpl. rewrite HA, HB. simpl.
    fold dir. rewrite Hok. simpl.
    unfold endLastEdge. simpl. rewrite He. simpl. mem_decide.
    reflexivity. }
  eexists. split.
  { apply edgesToVertices_of_loop. rewrite He. cbn [length].
    rewrite (edgeLoop_turn _ _ _ _ Hstep). reflexivity. }
  cbn [Map_values fmap list_fmap snd addCaps foldl capPoint capDir capColor
       potentialCaps geom].
  autorewrite with buffers. cbn [app].
  split; [|split; [|split; [|split]]]; reflexivity.
Qed.

Lemma first_edge_of_three (g : Geometry) a b c A B :
  edges g = [(a, b); (b, c); (c, a)] →
  vertices g !! a = Some A → vertices g !! b = Some B →
  let d1 := vnormalize (vsub B A) in
  (magSq d1 >? lit_0)%J = true →
  edgeStep 0 (startPass g)
  = Some (mkPass
            (_addSegment A B (strokeColorOf g a) (strokeColorOf g b) d1
               (clear_lines g))
            [ (a, mkCap A (vmult d1 lit_neg_1) (strokeColorOf g a)) ]
            ∅ (Some d1)).
Proof.
  intros He HA HB d1 Hok.
  unfold edgeStep. simpl. rewrite He. simpl. rewrite HA, HB. simpl.
  fold d1. rewrite Hok. simpl.
  unfold openLine. simpl. mem_decide. simpl.
  unfold endLastEdge. simpl. rewrite He. reflexivity.
Qed.

Lemma second_edge_of_three (g1 : Geometry) a b c B C caps lvd :
  edges g1 = [(a, b); (b, c); (c, a)] →
  vertices g1 !! b = Some B → vertices g1 !! c = Some C →
  Map_delete b caps = caps →
  let d2 := vnormalize (vsub C B) in
  (magSq d2 >? lit_0)%J = true →
  let seg := _addSegment B C (strokeColorOf g1 b) (strokeColorOf g1 c) d2
               g1 in
  edgeStep 1 (mkPass g1 caps ∅ (Some lvd))
  = Some (mkPass
            (if (dot d2 lvd <? lit_1 - lit_1e_8)%J
             then _addJoin B lvd d2 (strokeColorOf g1 b) seg
             else seg)
            caps (∅ ∪ {[b]}) (Some d2)).
Proof.
  intros He HB HC Hdel d2 Hok seg.
  unfold edgeStep. cbn [geom Nat.eqb Nat.sub]. rewrite He.
  cbn [lookup list_lookup mbind option_bind fst snd]. rewrite HB, HC.
  cbn [mbind option_bind]. fold d2. rewrite Hok. fold seg.
  cbn [Nat.ltb Nat.leb andb]. rewrite Nat.eqb_refl.
  unfold continueLine. cbn [geom connected potentialCaps lastValidDir fst].
  mem_decide. rewrite Hdel. cbn [andb mbind option_bind].
  unfold endLastEdge.
  destruct (dot d2 lvd <? lit_1 - lit_1e_8)%J;
    cbn [geom connected potentialCaps lastValidDir snd]; unfold seg;
    rewrite ?edges_addJoin, ?edges_addSegment, He;
    cbn [length Nat.sub Nat.eqb andb negb]; reflexivity.
Qed.

Lemma third_edge_of_three (g2 : Geometry) a b c C A cap lvd :
  edges g2 = [(a, b); (b, c); (c, a)] →
  vertices g2 !! c = Some C → vertices g2 !! a = Some A →
  a ≠ b → b ≠ c → a ≠ c →
  let d3 := vnormalize (vsub A C) in
  (magSq d3 >? lit_0)%J = true →
  let seg := _addSegment C A (strokeColorOf g2 c) (strokeColorOf g2 a) d3
               g2 in
  edgeStep 2 (mkPass g2 [(a, cap)] (∅ ∪ {[b]}) (Some lvd))
  = Some (mkPass
            (_addJoin A d3 (vmult (capDir cap) lit_neg_1)
               (strokeColorOf g2 a)
               (if (dot d3 lvd <? lit_1 - lit_1e_8)%J
                then _addJoin C lvd d3 (strokeColorOf g2 c) seg
                else seg))
            [] (∅ ∪ {[b]} ∪ {[c]} ∪ {[a]}) (Some d3)).
Proof.
  intros He HC HA Hab Hbc Hac d3 Hok seg.
  unfold edgeStep. cbn [geom Nat.eqb Nat.sub]. rewrite He.
  cbn [lookup list_lookup mbind option_bind fst snd]. rewrite HC, HA.
  cbn [mbind option_bind]. fold d3. rewrite Hok. fold seg.
  cbn [Nat.ltb Nat.leb andb]. rewrite Nat.eqb_refl.
  unfold continueLine. cbn [geom connected potentialCaps lastValidDir fst].
  mem_decide. cbn [Map_delete].
  rewrite (proj2 (Nat.eqb_neq a c) Hac).
  cbn [andb mbind option_bind].
  unfold endLastEdge.
  destruct (dot d3 lvd <? lit_1 - lit_1e_8)%J;
    cbn [geom connected potentialCaps lastValidDir snd]; unfold seg;
    rewrite ?edges_addJoin, ?edges_addSegment, He;
    cbn [length Nat.sub Nat.eqb andb negb]; mem_decide;
    cbn [negb Map_get Map_delete]; rewrite Nat.eqb_refl; reflexivity.
Qed.

(** X9.  The outline that [_makeTriangleEdges] gives a single triangle
    with three different vertices and sides of non-zero computed length
    is stroked as a closed line: three segments, a join at the second and
    at the third vertex where the direction turns (dot product below
    [1 - 1e-8]), a join at the first vertex, where the line closes, without
    that test, and no cap.  The closing join has the direction of the last
    side as tangent-in and the direction of the first side, negated twice,
    as tangent-out. *)
Theorem triangle_outline_closes (g : Geometry) a b c A B C :
  faces g = [(a, b, c)] → a ≠ b → b ≠ c → a ≠ c →
  vertices g !! a = Some A → vertices g !! b = Some B →
  vertices g !! c = Some C →
  let d1 := vnormalize (vsub B A) in
  let d2 := vnormalize (vsub C B) in
  let d3 := vnormalize (vsub A C) in
  (magSq d1 >? lit_0)%J = true → (magSq d2 >? lit_0)%J = true →
  (magSq d3 >? lit_0)%J = true →
  let bendB := (dot d2 d1 <? lit_1 - lit_1e_8)%J in
  let bendC := (dot d3 d2 <? lit_1 - lit_1e_8)%J in
  ∃ g', _edgesToVertices (_makeTriangleEdges g) = Some g'
    ∧ lineSides g'
      = ([1; 1; -1; 1; -1; -1] ++ [1; 1; -1; 1; -1; -1]
           ++ (if bendB
               then [-1; -3; -2; -1; 0; -3; 3; 1; 2; 3; 0; 1] else [])
           ++ [1; 1; -1; 1; -1; -1]
           ++ (if bendC
               then [-1; -3; -2; -1; 0; -3; 3; 1; 2; 3; 0; 1] else [])
           ++ [-1; -3; -2; -1; 0; -3; 3; 1; 2; 3; 0; 1])%Z
    ∧ lineVertices g'
      = (array A ++ array B ++ array A ++ array B ++ array B ++ array A)
          ++ (array B ++ array C ++ array B ++ array C ++ array C
                ++ array B)
          ++ (if bendB then concat (replicate 12 (array B)) else [])
          ++ (array C ++ array A ++ array C ++ array A ++ array A
                ++ array C)
          ++ (if bendC then concat (replicate 12 (array C)) else [])
          ++ concat (replicate 12 (array A))
    ∧ lineTangentsIn g'
      = concat (replicate 6 (array d1))
          ++ concat (replicate 6 (array d2))
          ++ (if bendB then concat (replicate 12 (array d1)) else [])
          ++ concat (replicate 6 (array d3))
          ++ (if bendC then concat (replicate 12 (array d2)) else [])
          ++ concat (replicate 12 (array d3))
    ∧ lineTangentsOut g'
      = concat (replicate 6 (array d1))
          ++ concat (replicate 6 (array d2))
          ++ (if bendB then concat (replicate 12 (array d2)) else [])
          ++ concat (replicate 6 (array d3))
          ++ (if bendC then concat (replicate 12 (array d3)) else [])
          ++ concat (replicate 12
                       (array (vmult (vmult d1 lit_neg_1) lit_neg_1))).
Proof.
  intros Hf Hab Hbc Hac HA HB HC d1 d2 d3 Hok1 Hok2 Hok3 bendB bendC.
  set (h := _makeTriangleEdges g).
  assert (edges h = [(a, b); (b, c); (c, a)]) as He
    by (subst h; rewrite edges_makeTriangleEdges, Hf; reflexivity).
  change (vertices g) with (vertices h) in HA, HB, HC.
  clearbody h.
  pose proof (first_edge_of_three h a b c A B He HA HB Hok1) as Hfirst.
  fold d1 in Hfirst.
  set (capA := mkCap A (vmult d1 lit_neg_1) (strokeColorOf h a)) in *.
  set (g1 := _addSegment A B (strokeColorOf h a) (strokeColorOf h b) d1
               (clear_lines h)) in *.
  pose proof (second_edge_of_three g1 a b c B C [(a, capA)] d1) as Hsecond.
  subst g1.
  rewrite edges_addSegment, edges_clear_lines, vertices_addSegment,
    vertices_clear_lines in Hsecond.
  specialize (Hsecond He HB HC).
  cbn [Map_delete] in Hsecond.
  rewrite (proj2 (Nat.eqb_neq a b) Hab) in Hsecond.
  specialize (Hsecond eq_refl Hok2).
  fold d2 bendB in Hsecond. clearbody bendB.
  set (g1 := _addSegment A B (strokeColorOf h a) (strokeColorOf h b) d1
               (clear_lines h)) in *.
  change (strokeColorOf g1) with (strokeColorOf h) in Hsecond.
  set (g2 := if bendB then _ else _) in Hsecond.
  assert (edges g2 = edges h ∧ vertices g2 = vertices h) as [He2 Hv2].
  { subst g2 g1. destruct bendB; by autorewrite with buffers. }
  pose proof (third_edge_of_three g2 a b c C A capA d2) as Hthird.
  rewrite He2, Hv2 in Hthird.
  specialize (Hthird He HC HA Hab Hbc Hac Hok3).
  fold d3 bendC in Hthird. clearbody bendC.
  assert (strokeColorOf g2 = strokeColorOf h) as Hcol.
  { subst g2 g1. by destruct bendB. }
  rewrite Hcol in Hthird.
  eexists. split.
  { apply edgesToVertices_of_loop. rewrite He. cbn [length].
    rewrite (edgeLoop_turn _ _ _ _ Hfirst).
    rewrite (edgeLoop_turn _ _ _ _ Hsecond).
    rewrite (edgeLoop_turn _ _ _ _ Hthird). reflexivity. }
  cbn [Map_values fmap list_fmap snd addCaps foldl capPoint capDir
       capColor potentialCaps geom capA].
  subst g2 g1.
  destruct bendB, bendC; autorewrite with buffers; cbn [app];
    rewrite <- ?app_assoc; (split; [|split; [|split]]); reflexivity.
Qed.

Lemma first_edge_of_pair (g : Geometry) a b c d A B :
  edges g = [(a, b); (c, d)] →
  vertices g !! a = Some A → vertices g !! b = Some B →
  let d1 := vnormalize (vsub B A) in
  (magSq d1 >? lit_0)%J = true →
  edgeStep 0 (startPass g)
  = Some (mkPass
            (_addSegment A B (strokeColorOf g a) (strokeColorOf g b) d1
               (clear_lines g))
            [ (a, mkCap A (vmult d1 lit_neg_1) (strokeColorOf g a)) ]
            ∅ (Some d1)).
Proof.
  intros He HA HB d1 Hok.
  unfold edgeStep. simpl. rewrite He. simpl. rewrite HA, HB. simpl.
  fold d1. rewrite Hok. simpl.
  unfold openLine. simpl. mem_decide. simpl.
  unfold endLastEdge. simpl. rewrite He. reflexivity.
Qed.

Lemma second_edge_of_pair (g1 : Geometry) a b c d B C D capA lvd :
  edges g1 = [(a, b); (c, d)] →
  vertices g1 !! b = Some B → vertices g1 !! c = Some C →
  vertices g1 !! d = Some D →
  a ≠ b → a ≠ c → a ≠ d → b ≠ c → b ≠ d → c ≠ d →
  let d2 := vnormalize (vsub D C) in
  (magSq d2 >? lit_0)%J = true →
  edgeStep 1 (mkPass g1 [(a, capA)] ∅ (Some lvd))
  = Some (mkPass
            (_addSegment C D (strokeColorOf g1 c) (strokeColorOf g1 d) d2
               g1)
            [ (a, capA);
              (c, mkCap C (vmult d2 lit_neg_1) (strokeColorOf g1 c));
              (b, mkCap B lvd (strokeColorOf g1 c));
              (d, mkCap D d2 (strokeColorOf g1 d)) ]
            ∅ (Some d2)).
Proof.
  intros He HB HC HD Hab Hac Had Hbc Hbd Hcd d2 Hok.
  unfold edgeStep. cbn [geom Nat.eqb Nat.sub]. rewrite He.
  cbn [lookup list_lookup mbind option_bind fst snd]. rewrite HC, HD.
  cbn [mbind option_bind]. fold d2. rewrite Hok.
  cbn [Nat.ltb Nat.leb andb]. rewrite (proj2 (Nat.eqb_neq b c) Hbc).
  unfold openLine. cbn [geom connected potentialCaps lastValidDir fst andb].
  mem_decide. cbn [negb Map_get Map_set].
  rewrite (proj2 (Nat.eqb_neq a c) Hac).
  unfold closeLine. cbn [geom connected potentialCaps lastValidDir snd
                         mbind option_bind].
  mem_decide. rewrite vertices_addSegment, HB.
  cbn [mbind option_bind Map_get Map_set].
  rewrite (proj2 (Nat.eqb_neq a b) Hab), (proj2 (Nat.eqb_neq c b)) by done.
  cbn [mbind option_bind].
  unfold endLastEdge. cbn [geom connected potentialCaps lastValidDir snd].
  rewrite edges_addSegment, He. cbn [length Nat.sub Nat.eqb andb].
  mem_decide. cbn [negb Map_get Map_set].
  rewrite (proj2 (Nat.eqb_neq a d) Had), (proj2 (Nat.eqb_neq c d) Hcd),
    (proj2 (Nat.eqb_neq b d) Hbd).
  reflexivity.
Qed.

(** X10.  Two edges [[a, b]] and [[c, d]] on four different vertices, both
    of non-zero computed length, give two segments and four caps, 36 stroke
    vertices, the caps in the order [a], [c], [b], [d].  The cap that ends
    the first edge at [b] is registered while the second edge is handled
    and carries the colour read for [c], the start of the second edge, not
    the colour of [b]. *)
Theorem separate_edges_cap_colours (g : Geometry) a b c d A B C D :
  edges g = [(a, b); (c, d)] →
  a ≠ b → a ≠ c → a ≠ d → b ≠ c → b ≠ d → c ≠ d →
  vertices g !! a = Some A → vertices g !! b = Some B →
  vertices g !! c = Some C → vertices g !! d = Some D →
  let d1 := vnormalize (vsub B A) in
  let d2 := vnormalize (vsub D C) in
  (magSq d1 >? lit_0)%J = true → (magSq d2 >? lit_0)%J = true →
  let colour := strokeColorOf g in
  ∃ g', _edgesToVertices g = Some g'
    ∧ lineSides g'
      = ([1; 1; -1; 1; -1; -1] ++ [1; 1; -1; 1; -1; -1]
           ++ [-1; 2; -2; 1; 2; -1] ++ [-1; 2; -2; 1; 2; -1]
           ++ [-1; 2; -2; 1; 2; -1] ++ [-1; 2; -2; 1; 2; -1])%Z
    ∧ lineVertices g'
      = (array A ++ array B ++ array A ++ array B ++ array B ++ array A)
          ++ (array C ++ array D ++ array C ++ array D ++ array D
                ++ array C)
          ++ concat (replicate 6 (array A))
          ++ concat (replicate 6 (array C))
          ++ concat (replicate 6 (array B))
          ++ concat (replicate 6 (array D))
    ∧ lineTangentsIn g'
      = concat (replicate 6 (array d1))
          ++ concat (replicate 6 (array d2))
          ++ concat (replicate 6 (array (vmult d1 lit_neg_1)))
          ++ concat (replicate 6 (array (vmult d2 lit_neg_1)))
          ++ concat (replicate 6 (array d1))
          ++ concat (replicate 6 (array d2))
    ∧ lineVertexColors g'
      = lineVertexColors g
          ++ (colour a ++ colour b ++ colour a ++ colour b ++ colour b
                ++ colour a)
          ++ (colour c ++ colour d ++ colour c ++ colour d ++ colour d
                ++ colour c)
          ++ concat (replicate 6 (colour a))
          ++ concat (replicate 6 (colour c))
          ++ concat (replicate 6 (colour c))
          ++ concat (replicate 6 (colour d)).
Proof.
  intros He Hab Hac Had Hbc Hbd Hcd HA HB HC HD d1 d2 Hok1 Hok2 colour.
  pose proof (first_edge_of_pair g a b c d A B He HA HB Hok1) as Hfirst.
  fold d1 in Hfirst.
  pose proof (second_edge_of_pair
                (_addSegment A B (strokeColorOf g a) (strokeColorOf g b)
                   d1 (clear_lines g))
                a b c d B C D
                (mkCap A (vmult d1 lit_neg_1) (strokeColorOf g a)) d1)
    as Hsecond.
  rewrite edges_addSegment, edges_clear_lines, vertices_addSegment,
    vertices_clear_lines in Hsecond.
  specialize (Hsecond He HB HC HD Hab Hac Had Hbc Hbd Hcd Hok2).
  fold d2 in Hsecond.
  eexists. split.
  { apply edgesToVertices_of_loop. rewrite He. cbn [length].
    rewrite (edgeLoop_turn _ _ _ _ Hfirst).
    rewrite (edgeLoop_turn _ _ _ _ Hsecond). reflexivity. }
  cbn [Map_values fmap list_fmap snd addCaps foldl capPoint capDir
       capColor potentialCaps geom].
  change (strokeColorOf (_addSegment A B (strokeColorOf g a)
                           (strokeColorOf g b) d1 (clear_lines g)))
    with colour.
  fold colour.
  autorewrite with buffers. cbn [app]. rewrite <- ?app_assoc.
  split; [|split; [|split]]; reflexivity.
Qed.

End Loops.

(** ** Averaged normals *)

Section Seams.
Context {A : Arith} {I : Integers A}.

Lemma averageRows_seams dX k : ∀ i (vn : list Vector),
  (i + k) * (dX + 1) ≤ length vn →
  ∃ vn', averageRows dX i k vn = Some vn'
    ∧ length vn' = length vn
    ∧ (∀ r first last, i ≤ r < i + k →
         vn !! (r * (dX + 1)) = Some first →
         vn !! (r * (dX + 1) + dX) = Some last →
         vn' !! (r * (dX + 1)) = Some (vdiv (vadd first last) int_2)
         ∧ vn' !! (r * (dX + 1) + dX)
           = Some (vdiv (vadd first last) int_2))
    ∧ (∀ v, (∀ r, i ≤ r < i + k →
               v ≠ r * (dX + 1) ∧ v ≠ r * (dX + 1) + dX) →
         vn' !! v = vn !! v).
Proof.
  induction k as [|k IH]; intros i vn Hlen; cbn [averageRows].
  - exists vn. split; [done|]. split; [done|]. split; [|done].
    intros r first last Hr. lia.
  - unfold averageRow. cbv zeta.
    destruct (lookup_lt_is_Some_2 vn (i * (dX + 1)) ltac:(nia)) as [a Ha].
    destruct (lookup_lt_is_Some_2 vn (i * (dX + 1) + dX) ltac:(nia))
      as [b Hb].
    rewrite Ha. cbn [mbind option_bind]. rewrite Hb. cbn [mbind option_bind].
    set (temp := vdiv (vadd a b) int_2).
    set (vn1 := <[i * (dX + 1) + dX := temp]> (<[i * (dX + 1) := temp]> vn)).
    assert (length vn1 = length vn) as Hlen1
      by (subst vn1; by rewrite !length_insert).
    assert (∀ v, v ≠ i * (dX + 1) → v ≠ i * (dX + 1) + dX →
                 vn1 !! v = vn !! v) as Hother.
    { intros v H1 H2. subst vn1.
      by rewrite !list_lookup_insert_ne by done. }
    assert (vn1 !! (i * (dX + 1)) = Some temp
            ∧ vn1 !! (i * (dX + 1) + dX) = Some temp) as [Hfirst Hlast].
    { subst vn1. split.
      - destruct (decide (dX = 0)) as [->|Hne].
        + rewrite Nat.add_0_r. apply list_lookup_insert_eq.
          rewrite length_insert. apply lookup_lt_Some in Ha. lia.
        + rewrite list_lookup_insert_ne by lia.
          apply list_lookup_insert_eq. by apply lookup_lt_Some in Ha.
      - apply list_lookup_insert_eq. rewrite length_insert.
        by apply lookup_lt_Some in Hb. }
    destruct (IH (S i) vn1) as (vn' & Hrun & Hlen' & Hrows & Hrest).
    { rewrite Hlen1. lia. }
    exists vn'. split; [exact Hrun|]. split; [congruence|]. split.
    + intros r first last Hr Hf Hl.
      destruct (decide (r = i)) as [->|Hne].
      * rewrite Ha in Hf. rewrite Hb in Hl.
        injection Hf as <-. injection Hl as <-. fold temp.
        rewrite !Hrest; [done| |]; intros r' Hr'; nia.
      * apply Hrows; [lia| |]; rewrite Hother; [done| | |done| |]; nia.
    + intros v Hv. rewrite Hrest.
      * apply Hother; apply (Hv i); lia.
      * intros r Hr. apply Hv. lia.
Qed.

(** X11.  On a geometry that holds the [(detailX + 1) * (detailY + 1)]
    normals of its grid, [averageNormals] returns; in every row the first
    and the last normal both become half the sum of the two, every other
    normal stays as it was, and nothing but [vertexNormals] changes. *)
Theorem averageNormals_closes_seams (g : Geometry) :
  (detailX g + 1) * (detailY g + 1) ≤ length (vertexNormals g) →
  ∃ g', averageNormals g = Some g'
    ∧ g' = set_vertexNormals g (vertexNormals g')
    ∧ length (vertexNormals g') = length (vertexNormals g)
    ∧ (∀ i first last, i ≤ detailY g →
         vertexNormals g !! (i * (detailX g + 1)) = Some first →
         vertexNormals g !! (i * (detailX g + 1) + detailX g) = Some last →
         vertexNormals g' !! (i * (detailX g + 1))
         = Some (vdiv (vadd first last) int_2)
         ∧ vertexNormals g' !! (i * (detailX g + 1) + detailX g)
           = Some (vdiv (vadd first last) int_2))
    ∧ (∀ v, (∀ i, i ≤ detailY g →
               v ≠ i * (detailX g + 1)
               ∧ v ≠ i * (detailX g + 1) + detailX g) →
         vertexNormals g' !! v = vertexNormals g !! v).
Proof.
  intros Hgrid. unfold averageNormals.
  destruct (averageRows_seams (detailX g) (detailY g + 1) 0
              (vertexNormals g)) as (vn' & -> & Hlen & Hrows & Hrest).
  { lia. }
  cbn [mbind option_bind]. eexists. split; [reflexivity|].
  cbn [vertexNormals set_vertexNormals].
  split; [done|]. split; [done|]. split.
  - intros i first last Hi. apply Hrows. lia.
  - intros v Hv. apply Hrest. intros r Hr. apply Hv. lia.
Qed.

End Seams.

Section Poles.
Context {A : Arith} {I : Integers A}.

Lemma addNormals_sum (vn : list Vector) indices : ∀ vs sum,
  Forall2 (λ i v, vn !! i = Some v) indices vs →
  addNormals vn indices sum = Some (foldl vadd sum vs).
Proof.
  induction indices as [|i indices IH]; intros vs sum Hvs;
    inversion Hvs as [|? v ? vs' Hv Hrest]; subst; [done|].
  cbn [addNormals foldl]. rewrite Hv. cbn [mbind option_bind].
  by apply IH.
Qed.

Lemma assignNormals_lookup indices sum : ∀ vn : list Vector,
  Forall (λ i, i < length vn) indices →
  ∃ vn', assignNormals indices sum vn = Some vn'
    ∧ length vn' = length vn
    ∧ (∀ v, v ∈ indices → vn' !! v = Some sum)
    ∧ (∀ v, v ∉ indices → vn' !! v = vn !! v).
Proof.
  induction indices as [|i indices IH]; intros vn Hin.
  - exists vn. split; [done|]. split; [done|]. split; [|done].
    intros v Hv. by apply elem_of_nil in Hv.
  - inversion Hin as [|? ? Hi Hrest]; subst. cbn [assignNormals].
    destruct (lookup_lt_is_Some_2 vn i Hi) as [x ->].
    cbn [mbind option_bind].
    destruct (IH (<[i := sum]> vn)) as (vn' & Hrun & Hlen & Hset & Hkeep).
    { by rewrite length_insert. }
    rewrite length_insert in Hlen.
    exists vn'. split; [exact Hrun|]. split; [exact Hlen|]. split.
    + intros v Hv. destruct (decide (v ∈ indices)) as [Hv'|Hv'].
      * by apply Hset.
      * apply elem_of_cons in Hv as [->|Hv]; [|done].
        rewrite (Hkeep i Hv'). by apply list_lookup_insert_eq.
    + intros v Hv. apply not_elem_of_cons in Hv as [Hne Hv].
      rewrite (Hkeep v Hv). by apply list_lookup_insert_ne.
Qed.

(** X12.  On a geometry with as many normals as vertices, at least
    [2 * detailX] of them, [averagePoleNormals] returns: the first
    [detailX] normals all become their sum, added up from index [0],
    divided by [detailX]; the last [detailX] normals all become their sum,
    added up from the last index downwards, divided by [detailX]; the
    normals in between stay as they were, and nothing but [vertexNormals]
    changes.  With [detailX = 0] the normals are left as they are. *)
Theorem averagePoleNormals_shares_pole_normals (g : Geometry) :
  length (vertices g) = length (vertexNormals g) →
  2 * detailX g ≤ length (vertexNormals g) →
  let dX := detailX g in
  let vn := vertexNormals g in
  let north := vdiv (foldl vadd vzero (take dX vn)) (of_count dX) in
  let south :=
    vdiv (foldl vadd vzero (reverse (drop (length vn - dX) vn)))
         (of_count dX) in
  ∃ g', averagePoleNormals g = Some g'
    ∧ g' = set_vertexNormals g (vertexNormals g')
    ∧ vertexNormals g'
      = replicate dX north
          ++ take (length vn - 2 * dX) (drop dX vn)
          ++ replicate dX south.
Proof.
  intros Hsame Hroom dX vn north south.
  change (length (vertices g) = length vn) in Hsame.
  change (2 * dX ≤ length vn) in Hroom.
  unfold averagePoleNormals. cbv zeta. fold dX vn.
  rewrite (addNormals_sum vn (seq 0 dX) (take dX vn)).
  2:{ apply Forall2_same_length_lookup_2.
      - rewrite length_seq, length_take. lia.
      - intros i j v Hi Hv. apply lookup_seq in Hi as [-> Hi].
        rewrite lookup_take_lt in Hv; done. }
  cbn [mbind option_bind]. fold north.
  destruct (assignNormals_lookup (seq 0 dX) north vn)
    as (vn1 & -> & Hlen1 & Hset1 & Hkeep1).
  { apply Forall_forall. intros i Hi. apply elem_of_seq in Hi. lia. }
  cbn [mbind option_bind]. unfold southIndices.
  rewrite Hsame. fold vn.
  rewrite (proj2 (Nat.leb_le dX (length vn))) by lia.
  cbn [mbind option_bind].
  set (indices := (λ k, length vn - 1 - k) <$> seq 0 dX).
  assert (∀ v, v ∈ indices ↔ length vn - dX ≤ v < length vn) as Hsouth.
  { intros v. subst indices. rewrite list_elem_of_fmap. split.
    - intros (k & -> & Hk). apply elem_of_seq in Hk. lia.
    - intros Hv. exists (length vn - 1 - v). split; [lia|].
      apply elem_of_seq. lia. }
  rewrite (addNormals_sum vn1 indices
             (reverse (drop (length vn - dX) vn))).
  2:{ apply Forall2_same_length_lookup_2.
      - subst indices.
        rewrite length_fmap, length_seq, length_reverse, length_drop. lia.
      - intros i j v Hi Hv. subst indices.
        rewrite list_lookup_fmap in Hi.
        destruct (seq 0 dX !! i) as [k|] eqn:Hk; [|done].
        apply lookup_seq in Hk as [-> Hk]. injection Hi as <-.
        rewrite reverse_lookup in Hv by (rewrite length_drop; lia).
        rewrite length_drop, lookup_drop in Hv.
        rewrite Hkeep1.
        + rewrite <- Hv. f_equal. lia.
        + rewrite elem_of_seq. lia. }
  cbn [mbind option_bind]. fold south.
  destruct (assignNormals_lookup indices south vn1)
    as (vn2 & -> & Hlen2 & Hset2 & Hkeep2).
  { apply Forall_forall. intros i Hi. apply Hsouth in Hi. lia. }
  cbn [mbind option_bind].
  eexists. split; [reflexivity|]. cbn [vertexNormals set_vertexNormals].
  split; [done|].
  apply list_eq. intros v.
  destruct (decide (v < dX)) as [Hnorth|Hnorth].
  - rewrite lookup_app_l by (rewrite length_replicate; lia).
    rewrite lookup_replicate_2 by done.
    rewrite Hkeep2 by (rewrite Hsouth; lia).
    apply Hset1. apply elem_of_seq. lia.
  - rewrite lookup_app_r by (rewrite length_replicate; lia).
    rewrite length_replicate.
    destruct (decide (v < length vn - dX)) as [Hmid|Hmid].
    + rewrite lookup_app_l by (rewrite length_take, length_drop; lia).
      rewrite lookup_take_lt by lia. rewrite lookup_drop.
      rewrite Hkeep2 by (rewrite Hsouth; lia).
      rewrite Hkeep1 by (rewrite elem_of_seq; lia).
      f_equal. lia.
    + rewrite lookup_app_r by (rewrite length_take, length_drop; lia).
      rewrite length_take, length_drop.
      destruct (decide (v < length vn)) as [Hin|Hout].
      * rewrite lookup_replicate_2 by lia.
        apply Hset2. apply Hsouth. lia.
      * rewrite lookup_ge_None_2 by lia.
        symmetry. apply lookup_ge_None_2. rewrite length_replicate. lia.
Qed.

End Poles.

Section NormalsAfterReset.
Context {N : JSNumber}.
Variable asin : num → num.

(** X13.  [reset()] empties the vertices and keeps the faces, so
    [computeNormals()] right after it fails on the first face, which
    indexes vertices that are gone; it returns, with no normals and no
    warning, only if there was no face. *)
Theorem computeNormals_after_reset (g : Geometry) :
  (faces g ≠ [] → computeNormals asin (reset g) = None)
  ∧ (faces g = [] → computeNormals asin (reset g) = Some (reset g, [])).
Proof.
  unfold computeNormals. cbv zeta. cbn [vertices faces reset length replicate].
  split.
  - destruct (faces g) as [|face fs] eqn:Hf; [done|]. intros _.
    cbn [accumulateFaces]. unfold accumulateFace, _getFaceNormal.
    cbn [faces vertices reset]. rewrite Hf.
    cbn [lookup list_lookup mbind option_bind]. reflexivity.
  - intros ->. reflexivity.
Qed.

End NormalsAfterReset.

(** ** buildGeometry *)

Section BuildGeometryProps.
Variables (Builder Model R : Type).
Variable newGeometryBuilder : R → Builder * R.
Variable finish : Builder → R → Model * R.

(** X16.  When [beginGeometry] returns and the callback returns with a
    builder still in place, [buildGeometry] returns what [finish()] of
    that builder gives and leaves the renderer without a builder. *)
Theorem buildGeometry_brackets_the_callback callback
    (this begun working : RendererGL Builder R) builder :
  beginGeometry Builder R newGeometryBuilder this = Returns begun →
  callback begun = (Returns tt, working) →
  geometryBuilder _ _ working = Some builder →
  buildGeometry Builder Model R newGeometryBuilder finish callback this
  = (Returns (finish builder (renderer _ _ working)).1,
     mkRendererGL _ _ None (finish builder (renderer _ _ working)).2).
Proof.
  intros Hbegin Hcall Hbuilder. unfold buildGeometry.
  rewrite Hbegin, Hcall. unfold endGeometry. rewrite Hbuilder.
  by destruct (finish builder (renderer _ _ working)).
Qed.

(** X17.  [buildGeometry] has no handler around the callback: when the
    callback throws with the builder still in place, the exception leaves
    [buildGeometry] with the builder still set, and from then on
    [beginGeometry] and every further [buildGeometry] throw the error of a
    build already in flight, without running their callback. *)
Theorem buildGeometry_failure_keeps_the_builder callback
    (this begun working : RendererGL Builder R) message :
  beginGeometry Builder R newGeometryBuilder this = Returns begun →
  callback begun = (Throws message, working) →
  is_Some (geometryBuilder _ _ working) →
  buildGeometry Builder Model R newGeometryBuilder finish callback this
  = (Throws message, working)
  ∧ beginGeometry Builder R newGeometryBuilder working
    = Throws "It looks like `beginGeometry()` is being called while another p5.Geometry is already being build."
  ∧ ∀ callback',
      buildGeometry Builder Model R newGeometryBuilder finish callback'
        working
      = (Throws "It looks like `beginGeometry()` is being called while another p5.Geometry is already being build.",
         working).
Proof.
  intros Hbegin Hcall [builder Hbuilder].
  assert (beginGeometry Builder R newGeometryBuilder working
          = Throws "It looks like `beginGeometry()` is being called while another p5.Geometry is already being build.")
    as Hstuck by (unfold beginGeometry; by rewrite Hbuilder).
  split; [|split; [exact Hstuck|]].
  - unfold buildGeometry. by rewrite Hbegin, Hcall.
  - intros callback'. unfold buildGeometry. by rewrite Hstuck.
Qed.

(** X18.  Inside the callback of [buildGeometry] a build is in flight.  A
    callback that calls [buildGeometry] again makes the outer call throw
    the error of [beginGeometry], with the outer builder left in place and
    the inner callback never run; a callback that returns after ending the
    build itself makes [buildGeometry] throw the error of [endGeometry]. *)
Theorem buildGeometry_misuse_in_the_callback :
  (∀ inner (this : RendererGL Builder R),
     geometryBuilder _ _ this = None →
     ∃ begun,
       beginGeometry Builder R newGeometryBuilder this = Returns begun
       ∧ is_Some (geometryBuilder _ _ begun)
       ∧ buildGeometry Builder Model R newGeometryBuilder finish
           (nestedBuild Builder Model R newGeometryBuilder finish inner)
           this
         = (Throws "It looks like `beginGeometry()` is being called while another p5.Geometry is already being build.",
            begun))
  ∧ (∀ callback (this begun working : RendererGL Builder R),
       beginGeometry Builder R newGeometryBuilder this = Returns begun →
       callback begun = (Returns tt, working) →
       geometryBuilder _ _ working = None →
       buildGeometry Builder Model R newGeometryBuilder finish callback this
       = (Throws "Make sure you call beginGeometry() before endGeometry()!",
          working)).
Proof.
  split.
  - intros inner this Hnone. unfold buildGeometry at 1, beginGeometry at 1 2.
    rewrite Hnone.
    destruct (newGeometryBuilder (renderer _ _ this)) as [builder r].
    eexists. split; [reflexivity|]. split; [by eexists|].
    unfold nestedBuild, buildGeometry, beginGeometry.
    cbn [geometryBuilder]. reflexivity.
  - intros callback this begun working Hbegin Hcall Hnone.
    unfold buildGeometry.
    rewrite Hbegin, Hcall. unfold endGeometry. by rewrite Hnone.
Qed.

End BuildGeometryProps.

(** ** The utility functions *)

Section Flatten.
Context {A : Arith}.

Lemma pop_nil {X} : pop (@nil X) = None.
Proof. reflexivity. Qed.

Lemma pop_snoc {X} (l : list X) x : pop (l ++ [x]) = Some (x, l).
Proof.
  unfold pop. rewrite reverse_app. cbn [reverse app].
  change (reverse [x]) with [x]. cbn [app]. by rewrite reverse_involutive.
Qed.

Lemma snoc_or_nil {X} (l : list X) : l = [] ∨ ∃ r x, l = r ++ [x].
Proof.
  induction l as [|x r _] using rev_ind; [by left|]. right. by exists r, x.
Qed.

Lemma flat_map_snoc {X Y} (f : X → list Y) l x :
  flat_map f (l ++ [x]) = flat_map f l ++ f x.
Proof. rewrite flat_map_app. cbn [flat_map]. by rewrite app_nil_r. Qed.

Lemma nodeCount_pos (v : Value) : 0 < nodeCount v.
Proof. destruct v; simpl; apply Nat.lt_0_succ. Qed.

Lemma list_sum_snoc l x : list_sum (l ++ [x]) = list_sum l + x.
Proof. rewrite list_sum_app. simpl. lia. Qed.

Lemma flattenLoop_leaves fuel : ∀ node nodes result,
  defined node = true → forallb defined nodes = true →
  nodeCount node + list_sum (map nodeCount nodes) ≤ fuel →
  flattenLoop fuel node nodes result
  = Some (result ++ reverse (leaves node)
            ++ reverse (flat_map leaves nodes)).
Proof.
  induction fuel as [|fuel IH]; intros node nodes result Hnode Hnodes Hfuel.
  { pose proof (nodeCount_pos node). lia. }
  cbn [flattenLoop].
  destruct node as [x| |items]; [| done |].
  - cbn [leaves nodeCount] in *.
    destruct (snoc_or_nil nodes) as [->|(r & y & ->)].
    + rewrite pop_nil. cbn [flat_map reverse app]. by rewrite app_nil_r.
    + rewrite pop_snoc. rewrite forallb_app in Hnodes.
      apply andb_true_iff in Hnodes as [Hr Hy].
      cbn [forallb] in Hy. rewrite andb_true_r in Hy.
      rewrite map_app in Hfuel. cbn [map] in Hfuel.
      rewrite list_sum_snoc in Hfuel.
      rewrite flat_map_snoc, reverse_app.
      destruct y as [y| |ys]; [| done |];
        rewrite IH by (done || cbn [nodeCount map list_sum] in *; lia);
        by rewrite <- !app_assoc.
  - cbn [leaves nodeCount defined] in *.
    destruct (snoc_or_nil (nodes ++ items)) as [Hnil|(r & y & Hsnoc)].
    + rewrite Hnil, pop_nil. apply app_eq_nil in Hnil as [-> ->].
      cbn [flat_map reverse app]. by rewrite app_nil_r.
    + rewrite Hsnoc, pop_snoc.
      assert (forallb defined (r ++ [y]) = true) as Hall
        by (rewrite <- Hsnoc, forallb_app; by rewrite Hnodes, Hnode).
      rewrite forallb_app in Hall.
      apply andb_true_iff in Hall as [Hr Hy].
      cbn [forallb] in Hy. rewrite andb_true_r in Hy.
      assert (list_sum (map nodeCount r) + nodeCount y
              = list_sum (map nodeCount nodes)
                + list_sum (map nodeCount items)) as Hcount.
      { rewrite <- list_sum_snoc, <- list_sum_app, <- !map_app.
        change [nodeCount y] with (map nodeCount [y]).
        by rewrite <- map_app, Hsnoc. }
      assert (reverse (flat_map leaves items)
                ++ reverse (flat_map leaves nodes)
              = reverse (leaves y) ++ reverse (flat_map leaves r)) as Hout.
      { rewrite <- !reverse_app, <- flat_map_snoc, <- flat_map_app.
        by rewrite Hsnoc. }
      rewrite Hout.
      destruct y as [y| |ys]; [| done |]; apply IH; (done || lia).
Qed.

(** Above 20000 elements the loop over the pending nodes is run; it has
    fuel for every node, and returns. *)
Lemma flatten_long (arr : list Value) :
  forallb defined arr = true → (20000 < Z.of_nat (length arr))%Z →
  _flatten arr = Some (flat_map leaves arr).
Proof.
  intros Hdefined Hbig. unfold _flatten.
  rewrite (proj2 (Nat.eqb_neq _ 0)) by lia.
  rewrite (proj2 (Z.ltb_lt _ _) Hbig).
  destruct (snoc_or_nil arr) as [->|(r & x & ->)]; [cbn in Hbig; lia|].
  rewrite pop_snoc. cbn [mbind option_bind].
  rewrite forallb_app in Hdefined.
  apply andb_true_iff in Hdefined as [Hr Hx].
  cbn [forallb] in Hx. rewrite andb_true_r in Hx.
  rewrite flattenLoop_leaves;
    [| done | done | rewrite map_app; cbn [map]; rewrite list_sum_snoc; lia].
  cbn [mbind option_bind app].
  by rewrite <- reverse_app, <- flat_map_snoc, reverse_involutive.
Qed.

(** Up to 20000 elements one [concat] is all that runs. *)
Lemma flatten_short (arr : list Value) :
  0 < length arr → (Z.of_nat (length arr) <= 20000)%Z →
  _flatten arr = Some (concatSpread arr).
Proof.
  intros Hpos Hsmall. unfold _flatten.
  rewrite (proj2 (Nat.eqb_neq _ 0)) by lia.
  by rewrite (proj2 (Z.ltb_ge _ _) Hsmall).
Qed.

(** X19.  How deep [_flatten] goes depends on how long the array is.  An
    empty array gives an empty array.  Up to 20000 elements the elements
    that are arrays are replaced by their own elements, one level and no
    more.  Above 20000 elements, and with no [undefined] inside, the loop
    returns and gives every value that is not an array, at any depth, in
    reading order. *)
Theorem flatten_depth_depends_on_length (arr : list Value) :
  (length arr = 0 → _flatten arr = Some [])
  ∧ (0 < length arr → (Z.of_nat (length arr) <= 20000)%Z →
       _flatten arr = Some (concatSpread arr))
  ∧ (forallb defined arr = true → (20000 < Z.of_nat (length arr))%Z →
       _flatten arr = Some (flat_map leaves arr)).
Proof.
  split; [|split].
  - destruct arr; [reflexivity | discriminate].
  - apply flatten_short.
  - apply flatten_long.
Qed.

Lemma leaves_rowsOf (rows : list (list num)) :
  flat_map leaves (rowsOf rows) = Num <$> concat rows
  ∧ concatSpread (rowsOf rows) = Num <$> concat rows
  ∧ forallb defined (rowsOf rows) = true.
Proof.
  induction rows as [|row rows (IH1 & IH2 & IH3)]; [done|].
  unfold rowsOf, concatSpread in *. rewrite fmap_cons.
  cbn [flat_map concat leaves forallb defined].
  rewrite IH1, IH2, IH3, fmap_app. split; [|split; [done|]].
  - f_equal. induction row as [|x row IHrow]; [done|].
    rewrite fmap_cons. cbn [flat_map leaves app]. by rewrite IHrow.
  - rewrite andb_true_r. by induction row.
Qed.

(** X20.  On a two-dimensional array of numbers, whatever its length,
    [_flatten] returns the numbers of the rows in order, one row after the
    other: the branch for long arrays and the branch for short ones
    agree. *)
Theorem flatten_rows (rows : list (list num)) :
  _flatten (rowsOf rows) = Some (Num <$> concat rows).
Proof.
  destruct (leaves_rowsOf rows) as (Hdeep & Hflat & Hdefined).
  destruct rows as [|row rows]; [reflexivity|].
  destruct (Z_le_gt_dec (Z.of_nat (length (rowsOf (row :: rows)))) 20000).
  - rewrite flatten_short; [by rewrite Hflat | cbn; lia | done].
  - rewrite flatten_long by (done || lia). by rewrite Hdeep.
Qed.

Lemma vToNArray_concat (arr : list Vector) :
  _vToNArray arr = flat_map array arr.
Proof.
  unfold _vToNArray.
  assert (∀ ret, foldl (λ ret item, ret ++ [vx item; vy item; vz item])
                   ret arr = ret ++ flat_map array arr) as Hfold.
  { induction arr as [|v arr IH]; intros ret; cbn [foldl flat_map].
    - by rewrite app_nil_r.
    - rewrite IH, <- app_assoc. done. }
  apply Hfold.
Qed.

(** X21.  [_vToNArray] lays the vectors out three numbers each: the array
    has three times the length, and vector [i] has its [x], [y] and [z] at
    the positions [3i], [3i + 1] and [3i + 2]. *)
Theorem vToNArray_layout (arr : list Vector) :
  length (_vToNArray arr) = 3 * length arr
  ∧ ∀ i v, arr !! i = Some v →
      _vToNArray arr !! (3 * i) = Some (vx v)
      ∧ _vToNArray arr !! (3 * i + 1) = Some (vy v)
      ∧ _vToNArray arr !! (3 * i + 2) = Some (vz v).
Proof.
  rewrite vToNArray_concat. split.
  - rewrite (length_flat_map_block _ 3); [lia | done].
  - intros i v Hi.
    pose proof (lookup_flat_map_block array 3 arr (λ _, eq_refl) i) as Hl.
    rewrite (Nat.mul_comm 3 i). split; [|split].
    + rewrite <- (Nat.add_0_r (i * 3)). by rewrite (Hl 0 _ Hi) by lia.
    + by rewrite (Hl 1 _ Hi) by lia.
    + by rewrite (Hl 2 _ Hi) by lia.
Qed.

End Flatten.

Section ArraysEqual.
Context {N : JSNumber}.

Lemma forallb_imap {X} (f : nat → X → bool) (l : list X) :
  forallb id (imap f l) = true ↔ ∀ i x, l !! i = Some x → f i x = true.
Proof.
  revert f. induction l as [|y l IH]; intros f.
  - split; [intros _ i x Hi; done | done].
  - cbn [imap forallb id]. rewrite andb_true_iff, IH. unfold id. split.
    + intros [H0 HS] [|i] x Hi; [by injection Hi as <- | by apply HS].
    + intros Hall. split; [by apply (Hall 0) | intros i x Hi].
      by apply (Hall (S i)).
Qed.

Lemma arraysEqual_true (a b : list num) :
  _arraysEqual a b = true
  ↔ length a = length b
    ∧ ∀ i x y, a !! i = Some x → b !! i = Some y → (x === y)%J = true.
Proof.
  unfold _arraysEqual. cbv zeta.
  destruct (Nat.eqb (length a) (length b)) eqn:Hlen; cbn [negb].
  - apply Nat.eqb_eq in Hlen. rewrite forallb_imap. split.
    + intros Hall. split; [done|]. intros i x y Hx Hy.
      specialize (Hall i x Hx). by rewrite Hy in Hall.
    + intros [_ Hall] i x Hx.
      destruct (lookup_lt_is_Some_2 b i) as [y Hy].
      { rewrite <- Hlen. by apply lookup_lt_Some in Hx. }
      rewrite Hy. by apply (Hall i).
  - apply Nat.eqb_neq in Hlen. split; [done | by intros [? _]].
Qed.

End ArraysEqual.

Section ArraysEqualOnDoubles.
Import Binary64.

Lemma SFeqb_sym x y : SpecFloat.SFeqb x y = SpecFloat.SFeqb y x.
Proof.
  unfold SpecFloat.SFeqb.
  destruct x as [sx|sx| |sx mx ex], y as [sy|sy| |sy my ey];
    cbn [SpecFloat.SFcompare]; try reflexivity;
    try (by destruct sx, sy); try (by destruct sx); try (by destruct sy).
  change (Pos.compare_cont Eq mx my) with (mx ?= my)%positive.
  change (Pos.compare_cont Eq my mx) with (my ?= mx)%positive.
  rewrite (Z.compare_antisym ex ey), (Pos.compare_antisym mx my).
  destruct sx, sy; try reflexivity;
    by destruct (ex ?= ey)%Z, (mx ?= my)%positive.
Qed.

Lemma eqb_sym (x y : float) : PrimFloat.eqb x y = PrimFloat.eqb y x.
Proof. rewrite !FloatAxioms.eqb_spec. apply SFeqb_sym. Qed.

(** X24.  On arrays of doubles, [_arraysEqual] answers [true] only for
    arrays of the same length, it answers the same with its arguments
    swapped, and it finds an array equal to itself exactly when the array
    holds no [NaN]. *)
Theorem arraysEqual_on_doubles (a b : list float) :
  (_arraysEqual (N := number) a b = true → length a = length b)
  ∧ _arraysEqual (N := number) a b = _arraysEqual (N := number) b a
  ∧ (_arraysEqual (N := number) a a = true
     ↔ Forall (λ x, PrimFloat.is_nan x = false) a).
Proof.
  split; [|split].
  - intros Heq. by apply (arraysEqual_true (N := number)) in Heq as [? _].
  - apply eq_true_iff_eq.
    rewrite !(arraysEqual_true (N := number)). cbn [neq number].
    split; intros [Hlen Hall]; (split; [done|]); intros i x y Hx Hy;
      rewrite eqb_sym; by apply (Hall i).
  - rewrite (arraysEqual_true (N := number)), Forall_lookup.
    cbn [neq number]. unfold PrimFloat.is_nan. split.
    + intros [_ Hall] i x Hx. by rewrite (Hall i x x Hx Hx).
    + intros Hall. split; [done|]. intros i x y Hx Hy.
      rewrite Hx in Hy. injection Hy as <-.
      specialize (Hall i x Hx). by apply negb_false_iff in Hall.
Qed.

End ArraysEqualOnDoubles.

(** ** _triangulate *)

Section TriangulateProps.
Context {N : JSNumber}.

Lemma tessCoords_vertex coords (calls : list TessCall) :
  tessCoords (gluTessVertex coords :: calls) = coords :: tessCoords calls.
Proof. reflexivity. Qed.

Lemma tessVertices_chunks contour k : ∀ j,
  length contour ≤ j + k →
  concat (tessCoords (tessVertices k j contour)) = drop j contour
  ∧ Forall (λ coords, 0 < length coords ≤ tessyVertexSize)
      (tessCoords (tessVertices k j contour))
  ∧ ((tessyVertexSize | length contour) → (tessyVertexSize | j) →
       Forall (λ coords, length coords = tessyVertexSize)
         (tessCoords (tessVertices k j contour))).
Proof.
  unfold tessyVertexSize.
  induction k as [|k IH]; intros j Hfuel; cbn [tessVertices].
  - rewrite drop_ge by lia. by repeat constructor.
  - destruct (Nat.ltb j (length contour)) eqn:Hj.
    + apply Nat.ltb_lt in Hj.
      destruct (IH (j + 12)) as (Hcat & Hlen & Hfull); [unfold tessyVertexSize; lia|].
      unfold tessyVertexSize in *.
      rewrite tessCoords_vertex. cbn [concat].
      split; [|split].
      * rewrite Hcat, <- drop_drop. apply take_drop.
      * constructor; [|done]. rewrite length_take, length_drop. lia.
      * intros Hdiv Hdivj. constructor.
        -- rewrite length_take, length_drop.
           destruct Hdiv as [m Hm], Hdivj as [n Hn]. nia.
        -- apply Hfull; [done|]. by apply Nat.divide_add_r, Nat.divide_refl.
    + apply Nat.ltb_ge in Hj. rewrite drop_ge by lia.
      by repeat constructor.
Qed.

Lemma tessCoords_app (xs ys : list TessCall) :
  tessCoords (xs ++ ys) = tessCoords xs ++ tessCoords ys.
Proof. apply flat_map_app. Qed.

Lemma tessCoords_contours (contours : list (list num)) :
  tessCoords
    (flat_map (λ contour, [gluTessBeginContour]
                 ++ tessVertices (length contour) 0 contour
                 ++ [gluTessEndContour]) contours)
  = flat_map (λ contour,
                tessCoords (tessVertices (length contour) 0 contour))
      contours.
Proof.
  induction contours as [|contour contours IH]; [done|].
  cbn [flat_map]. rewrite !tessCoords_app, IH.
  cbn [tessCoords flat_map app]. by rewrite app_nil_r.
Qed.

Lemma tessCoords_triangulate (contours : list (list num)) :
  tessCoords (_triangulate contours)
  = flat_map (λ contour,
                tessCoords (tessVertices (length contour) 0 contour))
      contours.
Proof.
  unfold _triangulate. cbv zeta.
  rewrite !tessCoords_app, tessCoords_contours.
  match goal with
  | |- context [tessCoords [if ?c then _ else _]] => destruct c
  end; cbn [tessCoords flat_map app]; by rewrite app_nil_r.
Qed.

(** X25.  [_triangulate] hands every slot of every contour to the
    tessellator exactly once and in order: the coordinate arrays of the
    [gluTessVertex] calls, put end to end, are the contours put end to
    end.  No call gets an empty array or more than [tessyVertexSize]
    slots, and every call gets exactly [tessyVertexSize] when the length
    of every contour is a multiple of it. *)
Theorem triangulate_hands_over_every_slot (contours : list (list num)) :
  let handed := tessCoords (_triangulate contours) in
  concat handed = concat contours
  ∧ Forall (λ coords, 0 < length coords ≤ tessyVertexSize) handed
  ∧ (Forall (λ contour, (tessyVertexSize | length contour)) contours →
       Forall (λ coords, length coords = tessyVertexSize) handed).
Proof.
  intros handed. subst handed. rewrite tessCoords_triangulate.
  induction contours as [|contour contours (IH1 & IH2 & IH3)].
  - by repeat constructor.
  - cbn [flat_map concat].
    destruct (tessVertices_chunks contour (length contour) 0)
      as (Hcat & Hlen & Hfull); [lia|].
    rewrite drop_0 in Hcat.
    split; [|split].
    + by rewrite concat_app, Hcat, IH1.
    + by apply Forall_app.
    + intros Hdiv. inversion Hdiv as [|? ? Hc Hcs]; subst.
      apply Forall_app. split; [|by apply IH3].
      apply Hfull; [done|]. by exists 0.
Qed.

Lemma sameZ_true contour z k : ∀ j allSameZ,
  length contour ≤ j + k →
  sameZ k j contour z allSameZ = true
  ↔ allSameZ = true
    ∧ ∀ q, j + tessyVertexSize * q < length contour →
        differs (contour !! (j + tessyVertexSize * q + 2)) z = false.
Proof.
  unfold tessyVertexSize.
  induction k as [|k IH]; intros j allSameZ Hfuel; cbn [sameZ].
  - split; [|by intros [-> _]]. intros ->. split; [done|]. intros q Hq. lia.
  - destruct (Nat.ltb j (length contour)) eqn:Hj.
    + apply Nat.ltb_lt in Hj.
      destruct (differs (contour !! (j + 2)) z) eqn:Hz.
      * split; [done|]. intros [_ Hall].
        specialize (Hall 0). rewrite Nat.mul_0_r, Nat.add_0_r in Hall.
        rewrite Hall in Hz; [done|lia].
      * unfold tessyVertexSize. rewrite IH by lia. split.
        -- intros [-> Hall]. split; [done|]. intros q Hq.
           destruct q as [|q].
           ++ by rewrite Nat.mul_0_r, Nat.add_0_r.
           ++ replace (j + 12 * S q) with (j + 12 + 12 * q) by lia.
              apply Hall. lia.
        -- intros [-> Hall]. split; [done|]. intros q Hq.
           replace (j + 12 + 12 * q) with (j + 12 * S q) by lia.
           apply Hall. lia.
    + apply Nat.ltb_ge in Hj. split.
      * intros ->. split; [done|]. intros q Hq. lia.
      * by intros [-> _].
Qed.

Lemma allSameZ_true (contours : list (list num)) z : ∀ allSameZ,
  foldl (λ allSameZ contour,
           sameZ (length contour) 0 contour z allSameZ) allSameZ contours
  = true
  ↔ allSameZ = true
    ∧ ∀ contour q, contour ∈ contours →
        tessyVertexSize * q < length contour →
        differs (contour !! (tessyVertexSize * q + 2)) z = false.
Proof.
  induction contours as [|contour contours IH]; intros allSameZ.
  - cbn [foldl]. split; [|by intros [-> _]]. intros ->. split; [done|].
    intros contour q Hin. by apply elem_of_nil in Hin.
  - cbn [foldl]. rewrite IH, sameZ_true by lia. cbn [Nat.add]. split.
    + intros [[-> Hhead] Htail]. split; [done|]. intros c q Hin Hq.
      apply elem_of_cons in Hin as [->|Hin]; [by apply Hhead|].
      by apply Htail.
    + intros [-> Hall]. split; [split; [done|]|].
      * intros q Hq. apply Hall; [by left | done].
      * intros c q Hin. apply Hall. by right.
Qed.

(** X26.  The first call of [_triangulate] is [gluTessNormal]: with
    [(0, 0, 1)] when the third slot of every vertex, one vertex every
    [tessyVertexSize] slots of every contour, is strictly equal to the
    third slot of the first contour, and with [(0, 0, 0)] otherwise. *)
Theorem triangulate_normal_hint (contours : list (list num)) :
  let z := contour ← contours !! 0; contour !! 2 in
  let flat :=
    ∀ contour q, contour ∈ contours →
      tessyVertexSize * q < length contour →
      differs (contour !! (tessyVertexSize * q + 2)) z = false in
  ∃ hint calls, _triangulate contours = hint :: calls
    ∧ (flat → hint = gluTessNormal lit_0 lit_0 lit_1)
    ∧ (¬ flat → hint = gluTessNormal lit_0 lit_0 lit_0).
Proof.
  intros z flat. unfold _triangulate. cbv zeta. fold z.
  pose proof (allSameZ_true contours z true) as Hflat.
  destruct (foldl _ true contours) eqn:Hfold.
  - eexists _, _. split; [reflexivity|]. split; [done|].
    intros Hno. destruct Hno. exact (proj2 (proj1 Hflat eq_refl)).
  - eexists _, _. split; [reflexivity|]. split; [|done].
    intros Hyes. assert (false = true) as Habs; [|done].
    apply (proj2 Hflat). split; [done | exact Hyes].
Qed.

End TriangulateProps.

(** ** Edges of no length *)

Section OnlyEdge.
Context {N : JSNumber}.

(** The pass over one edge without a valid direction. *)
Lemma only_edge_without_direction (g : Geometry) a b A B :
  edges g = [(a, b)] →
  vertices g !! a = Some A → vertices g !! b = Some B →
  (magSq (vnormalize (vsub B A)) >? lit_0)%J = false →
  ∃ g', _edgesToVertices g = Some g'
    ∧ lineSides g' = [-1; 2; -2; 1; 2; -1]%Z
    ∧ lineVertices g' = concat (replicate 6 (array B))
    ∧ lineTangentsOut g' = concat (replicate 6 (array vzero)).
Proof.
  intros He HA HB Hok.
  assert (edgeStep 0 (startPass g)
          = Some (mkPass (clear_lines g)
                    [(b, mkCap B (vnormalize (vsub B A))
                           (strokeColorOf g b))] ∅ None))
    as Hstep.
  { unfold edgeStep. simpl. rewrite He. simpl. rewrite HA, HB. simpl.
    rewrite Hok. simpl.
    unfold endLastEdge. simpl. rewrite He. simpl.
    rewrite (bool_decide_eq_false_2 (b ∈ (∅ : gset nat))) by set_solver.
    reflexivity. }
  eexists. split.
  { apply edgesToVertices_of_loop. rewrite He. cbn [length].
    rewrite (edgeLoop_turn _ _ _ _ Hstep). reflexivity. }
  cbn [Map_values fmap list_fmap snd addCaps foldl capPoint capDir capColor
       potentialCaps geom].
  autorewrite with buffers. cbn [app].
  split; [|split]; reflexivity.
Qed.

End OnlyEdge.

Section ZeroLengthEdges.
Import Binary64.

(** X29.  On doubles an edge between two vertices at the same position
    never passes the test of a valid direction, whatever the position is
    (finite, infinite or [NaN]): the squared length of its computed
    direction is a zero or [NaN].  An only such edge gives no segment and
    one cap at that position. *)
Theorem zero_length_edge_gets_one_cap_on_doubles (g : Geometry) a b A :
  edges g = [(a, b)] →
  vertices g !! a = Some A → vertices g !! b = Some A →
  (magSq (vnormalize (N := number) (vsub A A)) >? lit_0)%J = false
  ∧ ∃ g', _edgesToVertices (N := number) g = Some g'
      ∧ lineSides g' = [-1; 2; -2; 1; 2; -1]%Z
      ∧ lineVertices g' = concat (replicate 6 (array A))
      ∧ lineTangentsOut g' = concat (replicate 6 (array vzero)).
Proof.
  intros He Ha Hb.
  pose proof (zero_length_direction A) as Hok. split; [exact Hok|].
  exact (only_edge_without_direction (N := number) g a b A A He Ha Hb Hok).
Qed.

End ZeroLengthEdges.

(** ** Vertices that no face uses *)

Section UnusedVertices.
Import Binary64.
Variable asin : float → float.

Lemma contributions_unused (g : Geometry) v fs : ∀ f,
  (∀ face : Face, face ∈ fs →
     face.1.1 ≠ v ∧ face.1.2 ≠ v ∧ face.2 ≠ v) →
  contributions (N := number) asin g fs f v = [].
Proof.
  induction fs as [|face fs IH]; intros f Hunused; [done|].
  cbn [contributions]. rewrite IH by (intros ??; apply Hunused; by right).
  destruct (Hunused face ltac:(by left)) as (Ha & Hb & Hc).
  destruct (_getFaceNormal (N := number) asin g f) as [[n ?]|]; [|done].
  unfold occurrences.
  by rewrite !(proj2 (Nat.eqb_neq _ _)) by done.
Qed.

(** X28.  On doubles, [computeNormals] gives the normal [(0, 0, 0)] to a
    vertex that no face uses: nothing is added to the zero vector it
    starts from, and normalising does not divide it by its length. *)
Theorem computeNormals_unused_vertex_on_doubles (g : Geometry) v :
  (∀ face : Face, face ∈ faces g → validFace g face) →
  v < length (vertices g) →
  (∀ face : Face, face ∈ faces g →
     face.1.1 ≠ v ∧ face.1.2 ≠ v ∧ face.2 ≠ v) →
  ∃ g' console, computeNormals (N := number) asin g = Some (g', console)
    ∧ vertexNormals g' !! v = Some (mkVector 0 0 0)%float.
Proof.
  intros Hvalid Hv Hunused.
  destruct (computeNormals_accumulates (N := number) asin g Hvalid)
    as (g' & console & Hrun & _ & Hat).
  exists g', console. split; [done|].
  rewrite (Hat v Hv), contributions_unused by done. reflexivity.
Qed.

End UnusedVertices.

(** ** Open lines of any length *)

Section OpenLines.
Context {N : JSNumber}.

Lemma edgeStep_opening (st : Pass) currEdge begin end_ :
  edges (geom st) !! 0 = Some currEdge →
  vertices (geom st) !! currEdge.1 = Some begin →
  vertices (geom st) !! currEdge.2 = Some end_ →
  lastValidDir st = None →
  let fromColor := strokeColorOf (geom st) currEdge.1 in
  let toColor := strokeColorOf (geom st) currEdge.2 in
  let dir := vnormalize (vsub end_ begin) in
  let dirOK := (magSq dir >? lit_0)%J in
  let st1 :=
    if dirOK
    then mkPass (_addSegment begin end_ fromColor toColor dir (geom st))
           (potentialCaps st) (connected st) (lastValidDir st)
    else st in
  let st3 :=
    endLastEdge 0 currEdge end_ dir toColor
      (openLine currEdge begin dir dirOK fromColor st1) in
  edgeStep 0 st
  = Some (if dirOK
          then mkPass (geom st3) (potentialCaps st3) (connected st3)
                 (Some dir)
          else st3).
Proof.
  intros Hcur Hb He Hlvd. cbv zeta. unfold edgeStep.
  cbn [Nat.eqb]. rewrite Hcur. cbn [mbind option_bind].
  rewrite Hb, He. cbn [mbind option_bind].
  set (dir := vnormalize (vsub end_ begin)).
  set (st1 := if (magSq dir >? lit_0)%J then _ else st).
  assert (lastValidDir
            (openLine currEdge begin dir (magSq dir >? lit_0)%J
               (strokeColorOf (geom st) currEdge.1) st1) = None) as Hnone.
  { unfold openLine.
    assert (lastValidDir st1 = None) as Hst1
      by (subst st1; by destruct (magSq dir >? lit_0)%J).
    destruct (_ && _)%bool; [|done].
    by destruct (Map_get _ _). }
  unfold closeLine at 1. rewrite Hnone. cbn [mbind option_bind].
  reflexivity.
Qed.

Lemma edgeStep_continuing i (st : Pass) prev currEdge begin end_ :
  0 < i → edges (geom st) !! (i - 1) = Some prev →
  edges (geom st) !! i = Some currEdge → prev.2 = currEdge.1 →
  vertices (geom st) !! currEdge.1 = Some begin →
  vertices (geom st) !! currEdge.2 = Some end_ →
  let fromColor := strokeColorOf (geom st) currEdge.1 in
  let toColor := strokeColorOf (geom st) currEdge.2 in
  let dir := vnormalize (vsub end_ begin) in
  let dirOK := (magSq dir >? lit_0)%J in
  let st1 :=
    if dirOK
    then mkPass (_addSegment begin end_ fromColor toColor dir (geom st))
           (potentialCaps st) (connected st) (lastValidDir st)
    else st in
  let st3 :=
    endLastEdge i currEdge end_ dir toColor
      (continueLine currEdge begin dir dirOK fromColor st1) in
  edgeStep i st
  = Some (if dirOK
          then mkPass (geom st3) (potentialCaps st3) (connected st3)
                 (Some dir)
          else st3).
Proof.
  intros Hi Hprev Hcur Hshared Hb He.
  cbv zeta. unfold edgeStep.
  destruct i as [|i]; [lia|].
  replace (S i - 1) with i in * by lia.
  cbn [Nat.eqb]. rewrite Hprev, Hcur. cbn [mbind option_bind].
  rewrite Hb, He. cbn [mbind option_bind].
  rewrite Hshared, Nat.eqb_refl.
  destruct (magSq (vnormalize (vsub end_ begin)) >? lit_0)%J; reflexivity.
Qed.

Lemma countTrue_snoc bs b :
  countTrue (bs ++ [b]) = countTrue bs + (if b then 1 else 0).
Proof.
  unfold countTrue. rewrite filter_app, length_app.
  destruct b; cbn; [done|].
  rewrite decide_False by done. cbn. lia.
Qed.

Section Line.
Variables (g : Geometry) (path : list nat) (points : list Vector).
Hypothesis Hdistinct : NoDup path.
Hypothesis Hedges : edges g = zip path (tail path).
Hypothesis Hpoints : Forall2 (λ v A, vertices g !! v = Some A) path points.
Hypothesis Hok :
  Forall (λ d, (magSq d >? lit_0)%J = true) (directions points).

Lemma line_lengths :
  length points = length path
  ∧ length (edges g) = length path - 1
  ∧ length (directions points) = length path - 1
  ∧ length (turns (directions points)) = length path - 2.
Proof.
  pose proof (Forall2_length _ _ _ Hpoints) as Hlen.
  unfold turns, directions. rewrite Hedges.
  rewrite ?length_zip_with, ?length_tl, ?length_zip_with, ?length_tl. lia.
Qed.

Lemma line_edge i :
  i < length (edges g) →
  ∃ a b A B,
    path !! i = Some a ∧ path !! S i = Some b
    ∧ points !! i = Some A ∧ points !! S i = Some B
    ∧ edges g !! i = Some (a, b)
    ∧ vertices g !! a = Some A ∧ vertices g !! b = Some B
    ∧ directions points !! i = Some (vnormalize (vsub B A))
    ∧ (magSq (vnormalize (vsub B A)) >? lit_0)%J = true.
Proof.
  intros Hi. destruct line_lengths as (Hlp & Hle & Hld & _).
  destruct (lookup_lt_is_Some_2 path i ltac:(lia)) as [a Ha].
  destruct (lookup_lt_is_Some_2 path (S i) ltac:(lia)) as [b Hb].
  destruct (lookup_lt_is_Some_2 points i ltac:(lia)) as [A HA].
  destruct (lookup_lt_is_Some_2 points (S i) ltac:(lia)) as [B HB].
  exists a, b, A, B.
  assert (directions points !! i = Some (vnormalize (vsub B A))) as Hdir.
  { unfold directions. apply lookup_zip_with_Some.
    exists A, B. by rewrite lookup_tail. }
  split; [done|]. split; [done|]. split; [done|]. split; [done|].
  split.
  { rewrite Hedges. apply lookup_zip_with_Some.
    exists a, b. by rewrite lookup_tail. }
  split; [exact (Forall2_lookup_lr _ _ _ _ _ _ Hpoints Ha HA)|].
  split; [exact (Forall2_lookup_lr _ _ _ _ _ _ Hpoints Hb HB)|].
  split; [done|].
  exact (Forall_lookup_1 _ _ _ _ Hok Hdir).
Qed.

Lemma line_not_yet_connected i j v :
  path !! j = Some v → i - 1 < j → v ∉ take (i - 1) (tail path).
Proof.
  intros Hj Hlt Hin. apply list_elem_of_lookup in Hin as [k Hk].
  pose proof (lookup_lt_Some _ _ _ Hk) as Hlen.
  rewrite length_take in Hlen.
  rewrite lookup_take_lt, lookup_tail in Hk by lia.
  pose proof (NoDup_lookup _ _ _ _ Hdistinct Hk Hj). lia.
Qed.

Variables (startCap endCap : nat * Cap).
Variables (p0 pn : nat) (P0 Pn d0 dn : Vector).
Hypothesis Hp0 : path !! 0 = Some p0.
Hypothesis HP0 : points !! 0 = Some P0.
Hypothesis Hd0 : directions points !! 0 = Some d0.
Hypothesis Hpn : last path = Some pn.
Hypothesis HPn : last points = Some Pn.
Hypothesis Hdn : last (directions points) = Some dn.
Hypothesis HstartCap :
  startCap = (p0, mkCap P0 (vmult d0 lit_neg_1) (strokeColorOf g p0)).
Hypothesis HendCap : endCap = (pn, mkCap Pn dn (strokeColorOf g pn)).

Lemma line_first_edge :
  ∃ st, edgeStep 0 (startPass g) = Some st
    ∧ alongLine g path points startCap endCap 1 st.
Proof.
  destruct line_lengths as (Hlp & Hle & Hld & _).
  assert (0 < length (edges g)) as Hn.
  { rewrite Hle. apply lookup_lt_Some in Hd0. lia. }
  destruct (line_edge 0 Hn)
    as (a & b & A & B & Ha & Hb & HA & HB & He & HvA & HvB & Hdir & Hgood).
  rewrite Hp0 in Ha. injection Ha as <-.
  rewrite HP0 in HA. injection HA as <-.
  rewrite Hd0 in Hdir. injection Hdir as Hdir.
  rewrite (edgeStep_opening (startPass g) (p0, b) P0 B); [|done..].
  cbn [fst snd startPass geom potentialCaps connected lastValidDir].
  rewrite <- Hdir in Hgood |- *. rewrite Hgood.
  change (strokeColorOf (clear_lines g)) with (strokeColorOf g).
  set (seg := _addSegment P0 B (strokeColorOf g p0) (strokeColorOf g b) d0
                (clear_lines g)).
  unfold openLine.
  cbn [geom potentialCaps connected lastValidDir fst andb].
  rewrite (bool_decide_eq_false_2 (p0 ∈ (∅ : gset nat))) by set_solver.
  cbn [negb Map_get Map_set].
  unfold endLastEdge.
  cbn [geom potentialCaps connected lastValidDir snd].
  assert (edges seg = edges g) as Heseg
    by (subst seg; by autorewrite with buffers).
  rewrite Heseg.
  rewrite (bool_decide_eq_false_2 (b ∈ (∅ : gset nat))) by set_solver.
  assert (p0 ≠ b) as Hne.
  { intros ->. pose proof (NoDup_lookup _ _ _ _ Hdistinct Hp0 Hb). lia. }
  cbn [negb]. rewrite andb_true_r.
  eexists. split; [reflexivity|].
  destruct (Nat.eqb 0 (length (edges g) - 1)) eqn:Hlast.
  - apply Nat.eqb_eq in Hlast.
    cbn [Map_get Map_set]. rewrite (proj2 (Nat.eqb_neq p0 b) Hne).
    assert (length path = 2) as Hlen2 by lia.
    assert (pn = b ∧ Pn = B ∧ dn = d0) as (-> & -> & ->).
    { rewrite last_lookup in Hpn. rewrite last_lookup in HPn.
      rewrite last_lookup in Hdn.
      rewrite Hlp, Hlen2 in HPn. rewrite Hlen2 in Hpn.
      rewrite Hld, Hlen2 in Hdn. cbn [pred Nat.sub] in *.
      rewrite Hb in Hpn. rewrite HB in HPn. rewrite Hd0 in Hdn.
      by simplify_eq. }
    unfold alongLine.
    cbn [geom potentialCaps connected lastValidDir Nat.sub take].
    subst seg. autorewrite with buffers.
    split; [done|]. split; [done|]. split; [done|]. split; [done|].
    split; [set_solver|]. split; [reflexivity|].
    rewrite (proj2 (Nat.eqb_eq 1 (length (edges g)))) by lia.
    by rewrite HstartCap, HendCap.
  - apply Nat.eqb_neq in Hlast.
    unfold alongLine.
    cbn [geom potentialCaps connected lastValidDir Nat.sub take].
    subst seg. autorewrite with buffers.
    split; [done|]. split; [done|]. split; [done|]. split; [done|].
    split; [set_solver|]. split; [reflexivity|].
    rewrite (proj2 (Nat.eqb_neq 1 (length (edges g)))) by lia.
    by rewrite HstartCap.
Qed.

Lemma line_next_edge i st :
  0 < i → i < length (edges g) →
  alongLine g path points startCap endCap i st →
  ∃ st', edgeStep i st = Some st'
    ∧ alongLine g path points startCap endCap (S i) st'.
Proof.
  intros Hi Hlt (Hes & Hvs & Hcs & Hlvd & Hconn & Hsides & Hcaps).
  destruct line_lengths as (Hlp & Hle & Hld & Hlt').
  destruct (line_edge (i - 1) ltac:(lia))
    as (a & b & A & B & Ha & Hb & HA & HB & He1 & HvA & HvB & Hd1 & _).
  destruct (line_edge i Hlt)
    as (b' & c & B' & C & Hb' & Hc & HB' & HC & He2 & HvB' & HvC & Hd2
        & Hgood).
  replace (S (i - 1)) with i in * by lia.
  rewrite Hb in Hb'. injection Hb' as <-.
  rewrite HB in HB'. injection HB' as <-.
  rewrite (edgeStep_continuing i st (a, b) (b, c) B C);
    [|done|by rewrite Hes|by rewrite Hes|done|by rewrite Hvs..].
  cbn [fst snd]. set (dir := vnormalize (vsub C B)) in *.
  rewrite Hgood.
  assert (strokeColorOf (geom st) = strokeColorOf g) as Hcol
    by (unfold strokeColorOf; by rewrite Hcs).
  rewrite Hcol.
  set (seg := _addSegment B C (strokeColorOf g b) (strokeColorOf g c) dir
                (geom st)).
  rewrite Hd1 in Hlvd.
  assert (b ∉ connected st) as Hfresh.
  { rewrite Hconn. by apply (line_not_yet_connected i i); [|lia]. }
  assert (p0 ≠ b) as Hne0.
  { intros ->. pose proof (NoDup_lookup _ _ _ _ Hdistinct Hp0 Hb). lia. }
  rewrite (proj2 (Nat.eqb_neq i (length (edges g)))) in Hcaps by lia.
  unfold continueLine.
  cbn [geom potentialCaps connected lastValidDir fst andb].
  rewrite (bool_decide_eq_false_2 _ Hfresh), Hlvd, Hcaps, HstartCap.
  cbn [Map_delete]. rewrite (proj2 (Nat.eqb_neq p0 b) Hne0).
  set (bend := (dot dir (vnormalize (vsub B A)) <? lit_1 - lit_1e_8)%J).
  set (g2 := if bend then _addJoin B (vnormalize (vsub B A)) dir
                            (strokeColorOf g b) seg else seg).
  assert ((if bend
           then mkPass (_addJoin B (vnormalize (vsub B A)) dir
                          (strokeColorOf g b) seg)
                  [(p0, mkCap P0 (vmult d0 lit_neg_1) (strokeColorOf g p0))]
                  (connected st ∪ {[b]}) (Some (vnormalize (vsub B A)))
           else mkPass seg
                  [(p0, mkCap P0 (vmult d0 lit_neg_1) (strokeColorOf g p0))]
                  (connected st ∪ {[b]}) (Some (vnormalize (vsub B A))))
          = mkPass g2
              [(p0, mkCap P0 (vmult d0 lit_neg_1) (strokeColorOf g p0))]
              (connected st ∪ {[b]}) (Some (vnormalize (vsub B A))))
    as -> by (subst g2; by destruct bend).
  assert (edges g2 = edges g ∧ vertices g2 = vertices g
          ∧ vertexStrokeColors g2 = vertexStrokeColors g
          ∧ length (lineSides g2)
            = 6 * S i
              + 12 * countTrue (take i (turns (directions points))))
    as (He' & Hv' & Hc' & Hs').
  { assert (turns (directions points) !! (i - 1) = Some bend) as Hturn.
    { unfold turns. apply lookup_zip_with_Some.
      exists (vnormalize (vsub B A)), dir. rewrite lookup_tail.
      replace (S (i - 1)) with i by lia. done. }
    replace i with (S (i - 1)) at 2 by lia.
    rewrite (take_S_r _ _ _ Hturn), countTrue_snoc.
    subst g2 seg. destruct bend; autorewrite with buffers;
      rewrite ?length_app, Hsides; cbn [length]; (split; [done|]);
      (split; [done|]); (split; [done|]); lia. }
  assert (∀ v, v ∈ connected st ∪ {[b]} ↔ v ∈ take i (tail path))
    as Hconn'.
  { intros v. replace i with (S (i - 1)) at 1 by lia.
    assert (tail path !! (i - 1) = Some b) as Htail
      by (rewrite lookup_tail; by replace (S (i - 1)) with i by lia).
    rewrite (take_S_r _ _ _ Htail), elem_of_app, list_elem_of_singleton.
    rewrite elem_of_union, elem_of_singleton, Hconn. done. }
  unfold endLastEdge.
  cbn [geom potentialCaps connected lastValidDir snd]. rewrite He'.
  eexists. split; [reflexivity|].
  destruct (Nat.eqb i (length (edges g) - 1)) eqn:Hlast.
  - apply Nat.eqb_eq in Hlast.
    assert (c ∉ connected st ∪ {[b]}) as Hfresh'.
    { rewrite Hconn'.
      replace i with (S i - 1) by lia.
      by apply (line_not_yet_connected (S i) (S i)); [|lia]. }
    rewrite (bool_decide_eq_false_2 _ Hfresh'). cbn [negb andb].
    assert (p0 ≠ c) as Hnec.
    { intros ->. pose proof (NoDup_lookup _ _ _ _ Hdistinct Hp0 Hc). lia. }
    cbn [Map_get Map_set]. rewrite (proj2 (Nat.eqb_neq p0 c) Hnec).
    assert (pn = c ∧ Pn = C ∧ dn = dir) as (-> & -> & ->).
    { rewrite last_lookup in Hpn. rewrite last_lookup in HPn.
      rewrite last_lookup in Hdn.
      rewrite Hlp in HPn. rewrite Hld in Hdn.
      replace (pred (length path)) with (S i) in Hpn, HPn by lia.
      replace (pred (length path - 1)) with i in Hdn by lia.
      rewrite Hc in Hpn. rewrite HC in HPn. rewrite Hd2 in Hdn.
      by simplify_eq. }
    unfold alongLine.
    cbn [geom potentialCaps connected lastValidDir].
    replace (S i - 1) with i by lia.
    split; [done|]. split; [done|]. split; [done|]. split; [done|].
    split; [done|]. split; [done|].
    rewrite (proj2 (Nat.eqb_eq (S i) (length (edges g)))) by lia.
    by rewrite HendCap.
  - apply Nat.eqb_neq in Hlast. cbn [andb].
    unfold alongLine.
    cbn [geom potentialCaps connected lastValidDir].
    replace (S i - 1) with i by lia.
    split; [done|]. split; [done|]. split; [done|]. split; [done|].
    split; [done|]. split; [done|].
    by rewrite (proj2 (Nat.eqb_neq (S i) (length (edges g)))) by lia.
Qed.

Lemma line_rest k : ∀ i st,
  0 < i → i + k = length (edges g) →
  alongLine g path points startCap endCap i st →
  ∃ st', edgeLoop k i st = Some st'
    ∧ alongLine g path points startCap endCap (length (edges g)) st'.
Proof.
  induction k as [|k IH]; intros i st Hi Hlen Hst.
  - exists st. split; [done|]. by replace (length (edges g)) with i by lia.
  - destruct (line_next_edge i st Hi ltac:(lia) Hst) as (st1 & Hstep & Hst1).
    destruct (IH (S i) st1 ltac:(lia) ltac:(lia) Hst1) as (st' & Hrun & Hst').
    exists st'. split; [|done].
    cbn [edgeLoop]. rewrite Hstep. exact Hrun.
Qed.

Lemma line_strokes :
  ∃ g' sides coords tangents,
    _edgesToVertices g = Some g'
    ∧ lineSides g'
      = sides ++ [-1; 2; -2; 1; 2; -1]%Z ++ [-1; 2; -2; 1; 2; -1]%Z
    ∧ length sides
      = 6 * length (edges g)
        + 12 * countTrue (turns (directions points))
    ∧ lineVertices g'
      = coords ++ concat (replicate 6 (array P0))
          ++ concat (replicate 6 (array Pn))
    ∧ lineTangentsIn g'
      = tangents ++ concat (replicate 6 (array (vmult d0 lit_neg_1)))
          ++ concat (replicate 6 (array dn)).
Proof.
  destruct line_lengths as (Hlp & Hle & Hld & Hlt).
  destruct line_first_edge as (st1 & Hstep & Hst1).
  assert (0 < length (edges g)) as Hn.
  { rewrite Hle. apply lookup_lt_Some in Hd0. lia. }
  destruct (line_rest (length (edges g) - 1) 1 st1 ltac:(lia) ltac:(lia)
              Hst1) as (st & Hrun & Hst).
  destruct Hst as (_ & _ & _ & _ & _ & Hsides & Hcaps).
  rewrite Nat.eqb_refl in Hcaps.
  rewrite take_ge in Hsides by lia.
  exists (addCaps (Map_values (potentialCaps st)) (geom st)),
    (lineSides (geom st)), (lineVertices (geom st)),
    (lineTangentsIn (geom st)).
  split.
  { apply edgesToVertices_of_loop.
    replace (length (edges g)) with (S (length (edges g) - 1)) by lia.
    cbn [edgeLoop]. rewrite Hstep. exact Hrun. }
  rewrite Hcaps, HstartCap, HendCap.
  cbn [Map_values fmap list_fmap snd addCaps foldl capPoint capDir
       capColor].
  autorewrite with buffers. rewrite <- !app_assoc.
  split; [done|]. split; [done|]. split; done.
Qed.

End Line.

(** X27.  An open line of any length through vertices that are all
    different, none of its edges of zero computed length: the pass returns;
    it leaves the 6 stroke vertices of a segment for every edge and the 12
    of a join at every inner vertex where the line turns, and after them
    exactly two caps, the first at the start of the line, pointing back
    along its first edge, the second at its end, pointing along its last
    edge. *)
Theorem open_line_gets_two_caps (g : Geometry) path points
    p0 pn P0 Pn d0 dn :
  NoDup path → edges g = zip path (tail path) →
  Forall2 (λ v A, vertices g !! v = Some A) path points →
  Forall (λ d, (magSq d >? lit_0)%J = true) (directions points) →
  head path = Some p0 → head points = Some P0 →
  head (directions points) = Some d0 →
  last path = Some pn → last points = Some Pn →
  last (directions points) = Some dn →
  ∃ g' sides coords tangents,
    _edgesToVertices g = Some g'
    ∧ lineSides g'
      = sides ++ [-1; 2; -2; 1; 2; -1]%Z ++ [-1; 2; -2; 1; 2; -1]%Z
    ∧ length sides
      = 6 * length (edges g)
        + 12 * countTrue (turns (directions points))
    ∧ lineVertices g'
      = coords ++ concat (replicate 6 (array P0))
          ++ concat (replicate 6 (array Pn))
    ∧ lineTangentsIn g'
      = tangents ++ concat (replicate 6 (array (vmult d0 lit_neg_1)))
          ++ concat (replicate 6 (array dn)).
Proof.
  intros Hdistinct Hedges Hpoints Hok Hp0 HP0 Hd0 Hpn HPn Hdn.
  rewrite head_lookup in Hp0. rewrite head_lookup in HP0.
  rewrite head_lookup in Hd0.
  exact (line_strokes g path points Hdistinct Hedges Hpoints Hok
           _ _ p0 pn P0 Pn d0 dn Hp0 HP0 Hd0 Hpn HPn Hdn eq_refl eq_refl).
Qed.

End OpenLines.

(** ** Further runs on doubles *)

Section MoreWitnesses.
Import Binary64 Examples MoreExamples.

Lemma makeTriangleEdges_outlines_faces_witness :
  edges (_makeTriangleEdges triangle) = [(0, 1); (1, 2); (2, 0)]
  ∧ length (edges (_makeTriangleEdges triangle)) = 3.
Proof.
  pose proof (makeTriangleEdges_outlines_faces triangle) as (Hlen & Hat & _).
  split; [reflexivity | exact Hlen].
Defined.

Lemma grid_outline_and_normals_return_witness :
  length (edges (_makeTriangleEdges (computeFaces quad))) = 6
  ∧ is_Some (_edgesToVertices (N := number)
               (_makeTriangleEdges (computeFaces quad)))
  ∧ is_Some (computeNormals (N := number) asin (computeFaces quad)).
Proof.
  destruct (grid_outline_and_normals_return (N := number) asin quad)
    as (Hcount & _ & Hstrokes & Hnormals).
  { cbn. lia. }
  split; [exact Hcount|]. split; [exact Hstrokes | exact Hnormals].
Defined.

Lemma grid_outline_draws_each_diagonal_twice_witness :
  edges (_makeTriangleEdges (computeFaces quad)) !! 1 = Some (1, 2)
  ∧ edges (_makeTriangleEdges (computeFaces quad)) !! 3 = Some (2, 1).
Proof.
  exact (grid_outline_draws_each_diagonal_twice (N := number) quad 0 0
           ltac:(cbn; lia) ltac:(cbn; lia)).
Defined.

Lemma edgesToVertices_writes_stroke_buffers_only_witness :
  match _edgesToVertices (N := number) painted with
  | Some g' =>
      vertices g' = vertices painted ∧ edges g' = edges painted
      ∧ vertexStrokeColors g' = vertexStrokeColors painted
  | None => False
  end.
Proof.
  destruct (_edgesToVertices (N := number) painted) as [g'|] eqn:Hrun.
  - destruct (edgesToVertices_writes_stroke_buffers_only (N := number) painted g' Hrun)
      as (Hv & _ & _ & _ & He & _ & Hc & _).
    exact (conj Hv (conj He Hc)).
  - vm_compute in Hrun. discriminate Hrun.
Defined.

Lemma edgesToVertices_buffers_aligned_witness :
  match _edgesToVertices (N := number) painted with
  | Some g' =>
      length (lineSides g') = 36 ∧ length (lineVertices g') = 3 * 36
      ∧ length (lineTangentsIn g') = 3 * 36
      ∧ length (lineTangentsOut g') = 3 * 36
  | None => False
  end.
Proof.
  destruct (_edgesToVertices (N := number) painted) as [g'|] eqn:Hrun.
  - destruct (edgesToVertices_buffers_aligned (N := number) painted g' Hrun)
      as (Hv & Hi & Ho & _).
    assert (length (lineSides g') = 36) as Hsides
      by (vm_compute in Hrun; injection Hrun as <-; reflexivity).
    rewrite Hsides in Hv, Hi, Ho.
    exact (conj Hsides (conj Hv (conj Hi Ho))).
  - vm_compute in Hrun. discriminate Hrun.
Defined.

Lemma edgesToVertices_colours_aligned_witness :
  match _edgesToVertices (N := number) painted with
  | Some g' =>
      length (lineVertexColors g') = 4 + 4 * length (lineSides g')
  | None => False
  end.
Proof.
  destruct (_edgesToVertices (N := number) painted) as [g'|] eqn:Hrun.
  - apply (edgesToVertices_colours_aligned (N := number) painted g');
      [right; vm_compute; lia | exact Hrun].
  - vm_compute in Hrun. discriminate Hrun.
Defined.

Lemma edgesToVertices_again_appends_colours_again_witness :
  match _edgesToVertices (N := number) painted with
  | Some g' =>
      ∃ g'' colours, _edgesToVertices g' = Some g''
        ∧ lineSides g'' = lineSides g'
        ∧ lineVertexColors g' = [0.5; 0.5; 0.5; 1]%float ++ colours
        ∧ lineVertexColors g'' = lineVertexColors g' ++ colours
  | None => False
  end.
Proof.
  destruct (_edgesToVertices (N := number) painted) as [g'|] eqn:Hrun.
  - destruct (edgesToVertices_again_appends_colours_again (N := number) painted g' Hrun)
      as (g'' & colours & Hagain & _ & _ & _ & Hsides & Hfirst & Hsecond).
    exists g'', colours.
    exact (conj Hagain (conj Hsides (conj Hfirst Hsecond))).
  - vm_compute in Hrun. discriminate Hrun.
Defined.

Lemma degenerate_edge_gets_one_cap_witness :
  ∃ g', _edgesToVertices (N := number) selfEdge = Some g'
    ∧ lineSides g' = [-1; 2; -2; 1; 2; -1]%Z
    ∧ lineVertices g' = concat (replicate 6 [1; 2; 3]%float)
    ∧ lineTangentsIn g' = concat (replicate 6 [0; 0; 0]%float).
Proof.
  destruct (degenerate_edge_gets_one_cap (N := number) selfEdge 0 0
              (vec 1 2 3) (vec 1 2 3) eq_refl eq_refl eq_refl eq_refl)
    as (g' & Hrun & Hsides & Hvertices & Hin & _).
  exists g'. exact (conj Hrun (conj Hsides (conj Hvertices Hin))).
Defined.

Lemma triangle_outline_closes_witness :
  ∃ g', _edgesToVertices (N := number) (_makeTriangleEdges triangle)
        = Some g'
    ∧ length (lineSides g') = 54
    ∧ lineSides g'
      = ([1; 1; -1; 1; -1; -1] ++ [1; 1; -1; 1; -1; -1]
           ++ [-1; -3; -2; -1; 0; -3; 3; 1; 2; 3; 0; 1]
           ++ [1; 1; -1; 1; -1; -1]
           ++ [-1; -3; -2; -1; 0; -3; 3; 1; 2; 3; 0; 1]
           ++ [-1; -3; -2; -1; 0; -3; 3; 1; 2; 3; 0; 1])%Z.
Proof.
  destruct (triangle_outline_closes (N := number) triangle 0 1 2
              (vec 0 0 0) (vec 1 0 0) (vec 0 1 0) eq_refl
              ltac:(lia) ltac:(lia) ltac:(lia) eq_refl eq_refl eq_refl
              eq_refl eq_refl eq_refl)
    as (g' & Hrun & Hsides & _).
  exists g'. split; [exact Hrun|]. split; [|exact Hsides].
  rewrite Hsides. reflexivity.
Defined.

Lemma separate_edges_cap_colours_witness :
  let red := [1; 0; 0; 1]%float in
  let green := [0; 1; 0; 1]%float in
  let blue := [0; 0; 1; 1]%float in
  let white := [1; 1; 1; 1]%float in
  ∃ g', _edgesToVertices (N := number) dashes = Some g'
    ∧ lineVertexColors g'
      = (red ++ green ++ red ++ green ++ green ++ red)
          ++ (blue ++ white ++ blue ++ white ++ white ++ blue)
          ++ concat (replicate 6 red)
          ++ concat (replicate 6 blue)
          ++ concat (replicate 6 blue)
          ++ concat (replicate 6 white).
Proof.
  intros red green blue white.
  destruct (separate_edges_cap_colours (N := number) dashes 0 1 2 3
              (vec 0 0 0) (vec 1 0 0) (vec 2 0 0) (vec 3 0 0) eq_refl
              ltac:(lia) ltac:(lia) ltac:(lia) ltac:(lia) ltac:(lia)
              ltac:(lia) eq_refl eq_refl eq_refl eq_refl eq_refl eq_refl)
    as (g' & Hrun & _ & _ & _ & Hcolours).
  exists g'. split; [exact Hrun | exact Hcolours].
Defined.

Lemma averageNormals_closes_seams_witness :
  ∃ g', averageNormals strip = Some g'
    ∧ vertexNormals g' !! 0 = Some (vec 0.5 0.5 0)
    ∧ vertexNormals g' !! 2 = Some (vec 0.5 0.5 0)
    ∧ vertexNormals g' !! 1 = Some (vec 0 0 1).
Proof.
  destruct (averageNormals_closes_seams strip)
    as (g' & Hrun & _ & _ & Hrows & Hrest).
  { cbn. lia. }
  exists g'. split; [exact Hrun|].
  destruct (Hrows 0 (vec 1 0 0) (vec 0 1 0) ltac:(cbn; lia)
              eq_refl eq_refl) as [Hfirst Hlast].
  split; [exact Hfirst|]. split; [exact Hlast|].
  rewrite (Hrest 1); [reflexivity|].
  intros i Hi. cbn in Hi |- *. lia.
Defined.

Lemma averagePoleNormals_shares_pole_normals_witness :
  ∃ g', averagePoleNormals globe = Some g'
    ∧ vertexNormals g'
      = [vec 0.5 0 0.5; vec 0.5 0 0.5; vec 1 0 0;
         vec (-0.5) 0 (-0.5); vec (-0.5) 0 (-0.5)].
Proof.
  destruct (averagePoleNormals_shares_pole_normals globe eq_refl)
    as (g' & Hrun & _ & Hnormals).
  { cbn. lia. }
  exists g'. split; [exact Hrun | exact Hnormals].
Defined.

Lemma computeNormals_after_reset_witness :
  computeNormals (N := number) asin (reset triangle) = None.
Proof.
  apply (computeNormals_after_reset (N := number) asin triangle).
  discriminate.
Defined.

Lemma buildGeometry_brackets_the_callback_witness :
  buildGeometry nat nat unit (λ r, (0, r)) (λ b r, (b, r)) drawOne counting
  = (Returns 1, counting).
Proof.
  exact (buildGeometry_brackets_the_callback nat nat unit (λ r, (0, r))
           (λ b r, (b, r)) drawOne counting
           (mkRendererGL nat unit (Some 0) tt)
           (mkRendererGL nat unit (Some 1) tt) 1 eq_refl eq_refl eq_refl).
Defined.

Lemma buildGeometry_failure_keeps_the_builder_witness :
  buildGeometry nat nat unit (λ r, (0, r)) (λ b r, (b, r)) failing counting
  = (Throws "the callback failed", mkRendererGL nat unit (Some 0) tt)
  ∧ buildGeometry nat nat unit (λ r, (0, r)) (λ b r, (b, r)) drawOne
      (mkRendererGL nat unit (Some 0) tt)
    = (Throws "It looks like `beginGeometry()` is being called while another p5.Geometry is already being build.",
       mkRendererGL nat unit (Some 0) tt).
Proof.
  destruct (buildGeometry_failure_keeps_the_builder nat nat unit
              (λ r, (0, r)) (λ b r, (b, r)) failing counting
              (mkRendererGL nat unit (Some 0) tt)
              (mkRendererGL nat unit (Some 0) tt) "the callback failed"
              eq_refl eq_refl (mk_is_Some _ _ eq_refl))
    as (Hthrown & _ & Hstuck).
  split; [exact Hthrown | exact (Hstuck drawOne)].
Defined.

Lemma buildGeometry_misuse_in_the_callback_witness :
  buildGeometry nat nat unit (λ r, (0, r)) (λ b r, (b, r))
    (nestedBuild nat nat unit (λ r, (0, r)) (λ b r, (b, r)) drawOne)
    counting
  = (Throws "It looks like `beginGeometry()` is being called while another p5.Geometry is already being build.",
     mkRendererGL nat unit (Some 0) tt).
Proof.
  destruct (proj1 (buildGeometry_misuse_in_the_callback nat nat unit
                     (λ r, (0, r)) (λ b r, (b, r))) drawOne counting
              eq_refl) as (begun & Hbegun & _ & Hnested).
  injection Hbegun as <-. exact Hnested.
Defined.

Lemma flatten_depth_depends_on_length_witness :
  _flatten nested = Some [Num 1%float; Arr [Num 2%float]; Num 3%float].
Proof.
  exact (proj1 (proj2 (flatten_depth_depends_on_length nested))
           ltac:(cbn; lia) ltac:(cbn; lia)).
Defined.

Lemma flatten_rows_witness :
  _flatten (rowsOf cornerUvs) = Some (Num <$> [0; 0; 1; 0; 1; 1]%float).
Proof. exact (flatten_rows cornerUvs). Defined.

Lemma vToNArray_layout_witness :
  _vToNArray [vec 1 2 3; vec 4 5 6] !! 4 = Some 5%float.
Proof.
  exact (proj1 (proj2 (proj2 (vToNArray_layout [vec 1 2 3; vec 4 5 6])
                         1 (vec 4 5 6) eq_refl))).
Defined.

Lemma arraysEqual_on_doubles_witness :
  _arraysEqual (N := number) [1; nan]%float [1; nan]%float = false
  ∧ _arraysEqual (N := number) [1; 2]%float [1; 2]%float = true.
Proof.
  split.
  - destruct (_arraysEqual (N := number) [1; nan]%float [1; nan]%float)
      eqn:Hequal; [|reflexivity].
    apply (proj1 (proj2 (proj2 (arraysEqual_on_doubles [1; nan]%float
                                  [1; nan]%float)))) in Hequal.
    inversion Hequal as [|? ? _ Hrest]. inversion Hrest as [|? ? Hnan _].
    discriminate Hnan.
  - apply (proj2 (proj2 (arraysEqual_on_doubles [1; 2]%float
                           [1; 2]%float))).
    repeat constructor.
Defined.

Lemma triangulate_hands_over_every_slot_witness :
  tessCoords (_triangulate (N := number) [flatContour])
  = [take 12 flatContour; drop 12 flatContour]
  ∧ concat (tessCoords (_triangulate (N := number) [flatContour]))
    = flatContour
  ∧ Forall (λ coords, length coords = 12)
      (tessCoords (_triangulate (N := number) [flatContour])).
Proof.
  destruct (triangulate_hands_over_every_slot (N := number) [flatContour])
    as (Hall & _ & Hfull).
  split; [reflexivity|]. split.
  - rewrite Hall. reflexivity.
  - apply Hfull. repeat constructor. by exists 2.
Defined.

Lemma triangulate_normal_hint_witness :
  ∃ calls, _triangulate (N := number) [flatContour]
           = gluTessNormal 0%float 0%float 1%float :: calls.
Proof.
  destruct (triangulate_normal_hint (N := number) [flatContour])
    as (hint & calls & Hcalls & Hflat & _).
  exists calls. rewrite Hcalls. f_equal. apply Hflat.
  intros contour q Hin Hq. apply list_elem_of_singleton in Hin as ->.
  destruct q as [|[|q]]; [reflexivity | reflexivity |].
  unfold tessyVertexSize in Hq. cbn [length flatContour] in Hq. lia.
Defined.

Lemma open_line_gets_two_caps_witness :
  ∃ g' sides coords tangents,
    _edgesToVertices (N := number) zigzag = Some g'
    ∧ lineSides g'
      = sides ++ [-1; 2; -2; 1; 2; -1]%Z ++ [-1; 2; -2; 1; 2; -1]%Z
    ∧ length sides = 6 * 3 + 12 * 1
    ∧ lineVertices g'
      = coords ++ concat (replicate 6 [0; 0; 0]%float)
          ++ concat (replicate 6 [2; 1; 0]%float)
    ∧ lineTangentsIn g'
      = tangents
          ++ concat (replicate 6 (array (vmult (vec 1 0 0) (-1)%float)))
          ++ concat (replicate 6 [0; 1; 0]%float).
Proof.
  destruct (open_line_gets_two_caps (N := number) zigzag [0; 1; 2; 3]
              [vec 0 0 0; vec 1 0 0; vec 2 0 0; vec 2 1 0]
              0 3 (vec 0 0 0) (vec 2 1 0) (vec 1 0 0) (vec 0 1 0))
    as (g' & sides & coords & tangents & Hrun & Hsides & Hlen & Hv & Hin).
  - apply (bool_decide_unpack _). vm_compute. exact I.
  - reflexivity.
  - repeat constructor.
  - repeat (apply Forall_cons; split; [vm_compute; reflexivity|]).
    apply Forall_nil_2.
  - reflexivity.
  - reflexivity.
  - vm_compute. reflexivity.
  - reflexivity.
  - reflexivity.
  - vm_compute. reflexivity.
  - exists g', sides, coords, tangents.
    split; [exact Hrun|]. split; [exact Hsides|].
    split; [exact Hlen|]. split; [exact Hv | exact Hin].
Defined.

Lemma computeNormals_unused_vertex_on_doubles_witness :
  ∃ g' console, computeNormals (N := number) asin spare = Some (g', console)
    ∧ vertexNormals g' !! 3 = Some (vec 0 0 0).
Proof.
  apply (computeNormals_unused_vertex_on_doubles asin spare 3).
  - intros face Hface. apply list_elem_of_singleton in Hface as ->.
    unfold validFace. cbn. lia.
  - cbn. lia.
  - intros face Hface. apply list_elem_of_singleton in Hface as ->.
    cbn. lia.
Defined.

Lemma zero_length_edge_gets_one_cap_on_doubles_witness :
  ∃ g', _edgesToVertices (N := number) doubled = Some g'
    ∧ lineSides g' = [-1; 2; -2; 1; 2; -1]%Z
    ∧ lineVertices g' = concat (replicate 6 [1; 2; 3]%float).
Proof.
  destruct (proj2 (zero_length_edge_gets_one_cap_on_doubles doubled 0 1
                     (vec 1 2 3) eq_refl eq_refl eq_refl))
    as (g' & Hrun & Hsides & Hvertices & _).
  exists g'. exact (conj Hrun (conj Hsides Hvertices)).
Defined.

End MoreWitnesses.
